(** * PairDrop signaling server

    A shallow embedding of [server/ws-server.js] (class [PairDropWsServer])
    and the properties of its room registry, pairing protocol, relay engine
    and keep-alive supervisor.

    The source file holds the class twice, one declaration after the other:
    lines 7-547 and lines 555-1146.  Both are modelled; the functions take
    the [revision] as a parameter and branch on it exactly where the two
    texts differ ([_send], [_signalAndRelay], [_disconnect], [_keepAlive],
    [_onRoomSecrets], [_onConnection]).

    Conventions of the embedding.
    - A JavaScript string is kept as the sequence of bytes of its UTF-8
      encoding (Rocq's [string]).
    - A [Peer] is a mutable object: the server state has a heap of peers (a
      list, a reference [ref] being an index into it; [new Peer] appends)
      and everything else holds references, so that the aliasing between
      [_rooms], [_roomSecrets] and the handlers' arguments is the source's.
    - A JS object used as a dictionary is a finite map; where the source
      iterates over one ([for ... in] over a room) it is an association list
      in insertion order, the order JS enumerates string keys that are not
      array indices (peer ids are UUID-shaped).  Properties inherited from
      [Object.prototype] are not modelled.
    - Effects on the outside world (frames written to a socket, a socket
      terminated) are appended to the [wire] of the state.
    - Wall-clock time, random draws and the rate limiter are inputs of the
      handlers ([Oracle]). *)

From Stdlib Require Import ZArith Lia.
From Stdlib.Strings Require Import Byte Ascii.
From stdpp Require Import gmap strings list fin_maps pretty.

Local Open Scope Z_scope.

(** ** Association lists in insertion order (a JS object that is iterated) *)

Section AList.
Context {A : Type}.

Fixpoint alookup (k : string) (l : list (string * A)) : option A :=
  match l with
  | [] => None
  | (k', v) :: t => if decide (k = k') then Some v else alookup k t
  end.

(** [delete o[k]] *)
Fixpoint adelete (k : string) (l : list (string * A)) : list (string * A) :=
  match l with
  | [] => []
  | (k', v) :: t => if decide (k = k') then adelete k t else (k', v) :: adelete k t
  end.

(** [o[k] = v]: an existing key keeps its place, a new one goes last. *)
Fixpoint ainsert (k : string) (v : A) (l : list (string * A)) : list (string * A) :=
  match l with
  | [] => [(k, v)]
  | (k', v') :: t => if decide (k = k') then (k, v) :: t else (k', v') :: ainsert k v t
  end.

Lemma alookup_adelete_eq k l : alookup k (adelete k l) = None.
Proof.
  induction l as [|[k' v] t IH]; simpl; [done|].
  destruct (decide (k = k')) as [->|Hne]; [done|].
  simpl. by rewrite decide_False.
Qed.

Lemma alookup_adelete_ne k k' l : k ≠ k' → alookup k' (adelete k l) = alookup k' l.
Proof.
  intros Hne. induction l as [|[k0 v] t IH]; simpl; [done|].
  destruct (decide (k = k0)) as [->|Hk].
  - by rewrite decide_False.
  - simpl. by rewrite IH.
Qed.

Lemma alookup_ainsert_eq k v l : alookup k (ainsert k v l) = Some v.
Proof.
  induction l as [|[k' v'] t IH]; simpl.
  - by rewrite decide_True.
  - destruct (decide (k = k')) as [->|Hne]; simpl.
    + by rewrite decide_True.
    + by rewrite decide_False.
Qed.

Lemma alookup_ainsert_ne k k' v l : k ≠ k' → alookup k' (ainsert k v l) = alookup k' l.
Proof.
  intros Hne. induction l as [|[k0 v0] t IH]; simpl.
  - by rewrite decide_False.
  - destruct (decide (k = k0)) as [->|Hk]; simpl.
    + by rewrite !decide_False.
    + by rewrite IH.
Qed.

Lemma ainsert_nonempty k v l : ainsert k v l ≠ [].
Proof. destruct l as [|[k' v'] t]; simpl; [done|]. by destruct (decide (k = k')). Qed.

Lemma adelete_absent k l : alookup k l = None → adelete k l = l.
Proof.
  induction l as [|[k' v] t IH]; simpl; [done|].
  destruct (decide (k = k')); [done|]. intros H. by rewrite IH.
Qed.

Lemma alookup_Some_elem k v l : alookup k l = Some v → (k, v) ∈ l.
Proof.
  induction l as [|[k' v'] t IH]; simpl; [done|].
  destruct (decide (k = k')) as [->|Hne].
  - intros [= ->]. apply list_elem_of_here.
  - intros H. apply list_elem_of_further. auto.
Qed.
End AList.

(** ** Peers *)

Definition ref := nat.

Record Name := { displayName : string; deviceName : string }.

(** [PeerInfo], the result of [peer.getInfo()]. *)
Record PeerInfo := { info_id : string; info_name : Name; info_rtcSupported : bool }.

Module Peer.
(** The fields of a [Peer] object that the server reads or writes.
    [readyState] is [peer.socket.readyState] (1 is OPEN, 2 CLOSING,
    3 CLOSED).  [publicRoomId] and [pairKey] are [None] for [null]. *)
Record t := {
  id : string;
  ip : string;
  name : Name;
  rtcSupported : bool;
  readyState : Z;
  roomSecrets : list string;
  publicRoomId : option string;
  pairKey : option string
}.

#[global] Instance inhabited : Inhabited t :=
  populate {| id := ""; ip := ""; name := {| displayName := ""; deviceName := "" |};
              rtcSupported := false; readyState := 3; roomSecrets := [];
              publicRoomId := None; pairKey := None |}.

Definition set_readyState (z : Z) (p : t) : t :=
  {| id := id p; ip := ip p; name := name p; rtcSupported := rtcSupported p;
     readyState := z; roomSecrets := roomSecrets p;
     publicRoomId := publicRoomId p; pairKey := pairKey p |}.

Definition set_roomSecrets (l : list string) (p : t) : t :=
  {| id := id p; ip := ip p; name := name p; rtcSupported := rtcSupported p;
     readyState := readyState p; roomSecrets := l;
     publicRoomId := publicRoomId p; pairKey := pairKey p |}.

Definition set_publicRoomId (r : option string) (p : t) : t :=
  {| id := id p; ip := ip p; name := name p; rtcSupported := rtcSupported p;
     readyState := readyState p; roomSecrets := roomSecrets p;
     publicRoomId := r; pairKey := pairKey p |}.

Definition set_pairKey (k : option string) (p : t) : t :=
  {| id := id p; ip := ip p; name := name p; rtcSupported := rtcSupported p;
     readyState := readyState p; roomSecrets := roomSecrets p;
     publicRoomId := publicRoomId p; pairKey := k |}.

(** Modelled from the spec: the constructor of server/peer.js, which is
    not among the sources, for a connection whose upgrade request gives
    the identity [id], the address [ip], the names and the
    [rtcSupported] flag: an open socket, no room, no pair key. *)
Definition new (id ip : string) (name : Name) (rtcSupported : bool) : t :=
  {| id := id; ip := ip; name := name; rtcSupported := rtcSupported;
     readyState := 1; roomSecrets := []; publicRoomId := None; pairKey := None |}.

Definition is_hex (a : Ascii.ascii) : bool :=
  let n := Ascii.N_of_ascii a in
  ((48 <=? n) && (n <=? 57) || (97 <=? n) && (n <=? 102))%N.

Fixpoint uuid_shape (i : nat) (l : list Ascii.ascii) : bool :=
  match l with
  | [] => true
  | a :: l' =>
    (if bool_decide (i ∈ [8; 13; 18; 23]%nat) then bool_decide (a = "-"%char) else is_hex a)
    && uuid_shape (S i) l'
  end.

(** Modelled from the spec: the static [Peer.isValidUuid] of
    server/peer.js, which is not among the sources.  "UUID-shaped, 36
    ASCII characters": five groups of 8, 4, 4, 4 and 12 hexadecimal
    digits joined by hyphens. *)
Definition isValidUuid (s : string) : bool :=
  bool_decide (String.length s = 36%nat) && uuid_shape 0 (String.list_ascii_of_string s).

(** Modelled from the spec: [Peer.getInfo] of server/peer.js, which is not
    among the sources.  "PeerInfo = {id, name:{displayName,deviceName},
    rtcSupported}". *)
Definition getInfo (p : t) : PeerInfo :=
  {| info_id := id p; info_name := name p; info_rtcSupported := rtcSupported p |}.

(** Modelled from the spec: [Peer.addRoomSecret] of server/peer.js, which
    is not among the sources.  "roomSecrets: ordered sequence of secrets
    this peer currently occupies (insertion order preserved; duplicates
    forbidden)". *)
Definition addRoomSecret (s : string) (p : t) : t :=
  if decide (s ∈ roomSecrets p) then p
  else set_roomSecrets (roomSecrets p ++ [s]) p.

(** Modelled from the spec: [Peer.removeRoomSecret] of server/peer.js,
    which is not among the sources.  The secret leaves the sequence of
    secrets the peer occupies; the others keep their order. *)
Definition removeRoomSecret (s : string) (p : t) : t :=
  set_roomSecrets (filter (λ x, x ≠ s) (roomSecrets p)) p.
End Peer.

(** ** Outbound messages *)

Inductive RoomType := RoomIp | RoomSecret | RoomPublicId.

(** JSON values of the messages that are relayed untouched.  Numbers and
    arrays do not occur in the routing fields the server reads and are left
    out of the embedding. *)
#[warnings="-register-all"]
Inductive jval :=
| JNull
| JBool (b : bool)
| JStr (s : string)
| JObj (fields : list (string * jval)).

(** The object the server sends, before [JSON.stringify]. *)
Inductive OutMsg :=
| MsgWsConfig (rtcConfig : string) (wsFallback : bool)
| MsgDisplayName (n : Name) (peerId peerIdHash : string)
| MsgPing
| MsgPeers (peers : list PeerInfo) (roomType : RoomType) (roomId : string)
| MsgPeerJoined (peer : PeerInfo) (roomType : RoomType) (roomId : string)
| MsgPeerLeft (peerId : string) (roomType : RoomType) (roomId : string) (disconnect : bool)
| MsgPairDeviceInitiated (roomSecret pairKey : string)
| MsgPairDeviceJoined (roomSecret peerId : string)
| MsgPairDeviceCanceled (pairKey : string)
| MsgPairDeviceJoinKeyInvalid
| MsgJoinKeyRateLimit
| MsgSecretRoomDeleted (roomSecret : string)
| MsgRoomSecretRegenerated (oldRoomSecret newRoomSecret : string)
| MsgPublicRoomCreated (roomId : string)
| MsgPublicRoomIdInvalid (publicRoomId : string)
| MsgPublicRoomLeft
| MsgRelayed (message : gmap string jval).

(** What the server does to the outside world. *)
Inductive Effect :=
| SocketSend (to : ref) (m : OutMsg)
| SocketSendBinary (to : ref) (payload : list byte)
| SocketTerminate (p : ref).

(** ** Server state *)

Inductive revision := Rev1 | Rev2.

Record Conf := { wsFallback : bool; rtcConfig : string }.

(** The two properties of [this._wss] that the first [_send] compares;
    [None] is [undefined]. *)
Record Wss := { wss_readyState : option Z; wss_OPEN : option Z }.

(** An entry of [_keepAliveTimers].  [timer] is [None] for the initial [0],
    else the handle [setTimeout] returned: an index into [timeouts], the
    list of the callbacks ever scheduled, each [Some (due, peer)] while it
    is pending and [None] once cleared or run. *)
Record KeepAlive := { timer : option nat; lastBeat : Z }.

Record PairEntry := { roomSecret : string; creator : ref }.

Record Server := {
  _conf : Conf;
  _wss : Wss;
  _rooms : gmap string (list (string * ref));
  _roomSecrets : gmap string PairEntry;
  _keepAliveTimers : gmap string KeepAlive;
  heap : list Peer.t;
  timeouts : list (option (Z * ref));
  wire : list Effect
}.

Definition set_rooms (f : gmap string (list (string * ref)) → gmap string (list (string * ref)))
    (st : Server) : Server :=
  {| _conf := _conf st; _wss := _wss st; _rooms := f (_rooms st);
     _roomSecrets := _roomSecrets st; _keepAliveTimers := _keepAliveTimers st;
     heap := heap st; timeouts := timeouts st; wire := wire st |}.

Definition set_roomSecrets (f : gmap string PairEntry → gmap string PairEntry)
    (st : Server) : Server :=
  {| _conf := _conf st; _wss := _wss st; _rooms := _rooms st;
     _roomSecrets := f (_roomSecrets st); _keepAliveTimers := _keepAliveTimers st;
     heap := heap st; timeouts := timeouts st; wire := wire st |}.

Definition set_keepAliveTimers (f : gmap string KeepAlive → gmap string KeepAlive)
    (st : Server) : Server :=
  {| _conf := _conf st; _wss := _wss st; _rooms := _rooms st;
     _roomSecrets := _roomSecrets st; _keepAliveTimers := f (_keepAliveTimers st);
     heap := heap st; timeouts := timeouts st; wire := wire st |}.

Definition set_heap (f : list Peer.t → list Peer.t) (st : Server) : Server :=
  {| _conf := _conf st; _wss := _wss st; _rooms := _rooms st;
     _roomSecrets := _roomSecrets st; _keepAliveTimers := _keepAliveTimers st;
     heap := f (heap st); timeouts := timeouts st; wire := wire st |}.

Definition set_timeouts (f : list (option (Z * ref)) → list (option (Z * ref)))
    (st : Server) : Server :=
  {| _conf := _conf st; _wss := _wss st; _rooms := _rooms st;
     _roomSecrets := _roomSecrets st; _keepAliveTimers := _keepAliveTimers st;
     heap := heap st; timeouts := f (timeouts st); wire := wire st |}.

Definition emits (es : list Effect) (st : Server) : Server :=
  {| _conf := _conf st; _wss := _wss st; _rooms := _rooms st;
     _roomSecrets := _roomSecrets st; _keepAliveTimers := _keepAliveTimers st;
     heap := heap st; timeouts := timeouts st; wire := wire st ++ es |}.

Definition emit (e : Effect) (st : Server) : Server := emits [e] st.

(** The object a reference names. *)
Definition deref (st : Server) (r : ref) : Peer.t := heap st !!! r.

(** A method call on the peer object [r]. *)
Definition update_peer (r : ref) (f : Peer.t → Peer.t) (st : Server) : Server :=
  set_heap (λ h, <[r := f (h !!! r)]> h) st.

(** ** Sending

    [_send(peer, message)], lines 505-511 and 1097-1111.  The first revision
    returns when [this._wss.readyState !== this._wss.OPEN]; the second when
    the peer's socket is not open. *)

Definition sendable (rev : revision) (st : Server) (r : ref) : bool :=
  match rev with
  | Rev1 => bool_decide (wss_readyState (_wss st) = wss_OPEN (_wss st))
  | Rev2 => bool_decide (Peer.readyState (deref st r) = 1)
  end.

Definition _send (rev : revision) (peer : option ref) (message : OutMsg) (st : Server) : Server :=
  match peer with
  | None => st
  | Some r => if sendable rev st r then emit (SocketSend r message) st else st
  end.

(** ** Room registry primitives *)

(** [_leaveRoom(peer, roomType, roomId, disconnect = false)], lines 430-456
    and 1019-1043. *)
Definition _leaveRoom (rev : revision) (peer : ref) (roomType : RoomType) (roomId : string)
    (disconnect : bool) (st : Server) : Server :=
  let peerId := Peer.id (deref st peer) in
  match _rooms st !! roomId with
  | None => st
  | Some room =>
    match alookup peerId room with
    | None => st
    | Some _ =>
      (* remove peer from room *)
      match adelete peerId room with
      | [] =>
        (* delete room if empty and abort *)
        set_rooms (delete roomId) st
      | remaining =>
        (* notify all other peers that remain in room that peer left *)
        foldl (λ s '(otherPeerId, otherPeer),
                 _send rev (Some otherPeer)
                   (MsgPeerLeft peerId roomType roomId disconnect) s)
              (set_rooms (<[roomId := remaining]>) st) remaining
      end
    end
  end.

(** [_notifyPeers(peer, roomType, roomId)], lines 458-491 and 1045-1083. *)
Definition _notifyPeers (rev : revision) (peer : ref) (roomType : RoomType) (roomId : string)
    (st : Server) : Server :=
  match _rooms st !! roomId with
  | None => st
  | Some room =>
    let peerId := Peer.id (deref st peer) in
    (* notify all other peers that peer joined *)
    let st1 :=
      foldl (λ s '(otherPeerId, otherPeer),
               if decide (otherPeerId = peerId) then s
               else _send rev (Some otherPeer)
                      (MsgPeerJoined (Peer.getInfo (deref s peer)) roomType roomId) s)
            st room in
    (* notify peer about peers already in the room *)
    let otherPeers :=
      foldl (λ acc '(otherPeerId, otherPeer),
               if decide (otherPeerId = peerId) then acc
               else acc ++ [Peer.getInfo (deref st1 otherPeer)])
            [] room in
    _send rev (Some peer) (MsgPeers otherPeers roomType roomId) st1
  end.

(** [_joinRoom(peer, roomType, roomId)], lines 392-408 and 986-1002. *)
Definition _joinRoom (rev : revision) (peer : ref) (roomType : RoomType) (roomId : string)
    (st : Server) : Server :=
  let peerId := Peer.id (deref st peer) in
  let st1 :=
    match _rooms st !! roomId with
    | Some room =>
      match alookup peerId room with
      | Some _ =>
        (* ensures that otherPeers never receive `peer-left` after
           `peer-joined` on reconnect. *)
        _leaveRoom rev peer roomType roomId false st
      | None => st
      end
    | None => st
    end in
  (* if room doesn't exist, create it *)
  let st2 :=
    match _rooms st1 !! roomId with
    | None => set_rooms (<[roomId := []]>) st1
    | Some _ => st1
    end in
  let st3 := _notifyPeers rev peer roomType roomId st2 in
  (* add peer to room *)
  set_rooms (λ rooms, <[roomId := ainsert peerId peer (default [] (rooms !! roomId))]> rooms) st3.

(** A JS value used as a condition: [null] and the empty string are falsy. *)
Definition truthy (s : option string) : bool :=
  match s with
  | None => false
  | Some s => bool_decide (s ≠ "")
  end.

Definition _joinIpRoom (rev : revision) (peer : ref) (st : Server) : Server :=
  _joinRoom rev peer RoomIp (Peer.ip (deref st peer)) st.

Definition _joinSecretRoom (rev : revision) (peer : ref) (roomSecret : string)
    (st : Server) : Server :=
  let st1 := _joinRoom rev peer RoomSecret roomSecret st in
  (* add secret to peer *)
  update_peer peer (Peer.addRoomSecret roomSecret) st1.

Definition _leaveIpRoom (rev : revision) (peer : ref) (disconnect : bool) (st : Server) : Server :=
  _leaveRoom rev peer RoomIp (Peer.ip (deref st peer)) disconnect st.

Definition _leaveSecretRoom (rev : revision) (peer : ref) (roomSecret : string)
    (disconnect : bool) (st : Server) : Server :=
  let st1 := _leaveRoom rev peer RoomSecret roomSecret disconnect st in
  (* remove secret from peer *)
  update_peer peer (Peer.removeRoomSecret roomSecret) st1.

Definition _leavePublicRoom (rev : revision) (peer : ref) (disconnect : bool)
    (st : Server) : Server :=
  match Peer.publicRoomId (deref st peer) with
  | Some publicRoomId =>
    if truthy (Some publicRoomId) then
      let st1 := _leaveRoom rev peer RoomPublicId publicRoomId disconnect st in
      update_peer peer (Peer.set_publicRoomId None) st1
    else st
  | None => st
  end.

Definition _joinPublicRoom (rev : revision) (peer : ref) (publicRoomId : string)
    (st : Server) : Server :=
  (* prevent joining of 2 public rooms simultaneously *)
  let st1 := _leavePublicRoom rev peer false st in
  let st2 := _joinRoom rev peer RoomPublicId publicRoomId st1 in
  update_peer peer (Peer.set_publicRoomId (Some publicRoomId)) st2.

(** [_joinSecretRooms(peer, roomSecrets)], lines 493-497 and 1085-1089. *)
Definition _joinSecretRooms (rev : revision) (peer : ref) (roomSecrets : list string)
    (st : Server) : Server :=
  foldl (λ s roomSecret, _joinSecretRoom rev peer roomSecret s) st roomSecrets.

(** [_leaveAllSecretRooms(peer, disconnect)], lines 499-503 and 1091-1095:
    [for (let i=0; i<peer.roomSecrets.length; i++)] reads the peer's own
    array, the very one [_leaveSecretRoom] updates.  The loop is run on
    [fuel]; [_leaveAllSecretRooms] gives it the length of the array at
    entry, which it never exceeds ([leaveAll_fuel_enough]). *)
Fixpoint _leaveAllSecretRooms_loop (rev : revision) (peer : ref) (disconnect : bool)
    (fuel : nat) (i : nat) (st : Server) : Server :=
  match fuel with
  | O => st
  | S fuel' =>
    match Peer.roomSecrets (deref st peer) !! i with
    | None => st
    | Some roomSecret =>
      _leaveAllSecretRooms_loop rev peer disconnect fuel' (S i)
        (_leaveSecretRoom rev peer roomSecret disconnect st)
    end
  end.

Definition _leaveAllSecretRooms (rev : revision) (peer : ref) (disconnect : bool)
    (st : Server) : Server :=
  _leaveAllSecretRooms_loop rev peer disconnect
    (length (Peer.roomSecrets (deref st peer))) 0 st.

(** ** Pair-key directory *)

(** The property key a nullable string denotes: [null] is the key "null". *)
Definition property_key (k : option string) : string := default "null" k.

(** [s.substring(n)] *)
Definition substring_from (n : nat) (s : string) : string :=
  String.substring n (String.length s - n) s.

(** [n.toString().substring(1)] of a draw [n] of
    [crypto.randomInt(1000000, 1999999)]. *)
Definition pairKeyOf (n : N) : string := substring_from 1 (pretty n).

(** [_createPairKey(creator, roomSecret)], lines 350-363 and 950-962.
    [draws] are the successive results of [crypto.randomInt]; the do-while
    loop stops at the first whose key is free.  [None]: every draw given
    was taken, the loop has not ended. *)
Fixpoint _createPairKey (creator : ref) (roomSecret : string) (draws : list N)
    (st : Server) : option (string * Server) :=
  match draws with
  | [] => None
  | n :: draws' =>
    let pairKey := pairKeyOf n in
    match _roomSecrets st !! pairKey with
    | Some _ => _createPairKey creator roomSecret draws' st
    | None =>
      Some (pairKey,
            set_roomSecrets (<[pairKey := {| roomSecret := roomSecret; creator := creator |}]>) st)
    end
  end.

(** [_removePairKey(pairKey)], lines 365-370 and 964-969. *)
Definition _removePairKey (pairKey : option string) (st : Server) : Server :=
  let key := property_key pairKey in
  match _roomSecrets st !! key with
  | Some entry =>
    set_roomSecrets (delete key) (update_peer (creator entry) (Peer.set_pairKey None) st)
  | None => st
  end.

(** ** Keep-alive and disconnect *)

(** [clearTimeout(h)] *)
Definition clearTimeout (h : nat) (st : Server) : Server :=
  set_timeouts (λ ts, <[h := None]> ts) st.

(** [_cancelKeepAlive(peer)], lines 536-540 and 1135-1139. *)
Definition _cancelKeepAlive (peer : ref) (st : Server) : Server :=
  match _keepAliveTimers st !! Peer.id (deref st peer) with
  | Some {| timer := Some h |} => clearTimeout h st
  | _ => st
  end.

(** [socket.terminate()] of the ws package: a socket that is not yet
    CLOSED becomes CLOSING and its connection is destroyed. *)
Definition terminate (peer : ref) (st : Server) : Server :=
  emit (SocketTerminate peer)
    (update_peer peer
       (λ p, if bool_decide (Peer.readyState p = 3) then p else Peer.set_readyState 2 p) st).

(** [_disconnect(sender)], lines 197-209 and 784-798. *)
Definition _disconnect (rev : revision) (sender : ref) (st : Server) : Server :=
  let st := _removePairKey (Peer.pairKey (deref st sender)) st in
  let st := update_peer sender (Peer.set_pairKey None) st in
  let st := _cancelKeepAlive sender st in
  let st := set_keepAliveTimers (delete (Peer.id (deref st sender))) st in
  let st := _leaveIpRoom rev sender true st in
  let st := _leaveAllSecretRooms rev sender true st in
  let st := _leavePublicRoom rev sender true st in
  match rev with
  | Rev1 => terminate sender st
  | Rev2 =>
    if bool_decide (Peer.readyState (deref st sender) = 1) then terminate sender st else st
  end.

Definition _onDisconnect (rev : revision) (sender : ref) (st : Server) : Server :=
  _disconnect rev sender st.

(** [let timeout = 2000] of [_keepAlive]. *)
Definition timeout : Z := 2000.

(** The factor in [Date.now() - lastBeat > k * timeout]: [2 * timeout] at
    line 526, [3 * timeout] at line 1124. *)
Definition beat_factor (rev : revision) : Z :=
  match rev with Rev1 => 2 | Rev2 => 3 end.

(** [_keepAlive(peer)], lines 513-534 and 1113-1133, run at time [now]. *)
Definition _keepAlive (rev : revision) (now : Z) (peer : ref) (st : Server) : Server :=
  let st := _cancelKeepAlive peer st in
  let peerId := Peer.id (deref st peer) in
  let st :=
    match _keepAliveTimers st !! peerId with
    | None => set_keepAliveTimers (<[peerId := {| timer := None; lastBeat := now |}]>) st
    | Some _ => st
    end in
  let beat := default now (lastBeat <$> _keepAliveTimers st !! peerId) in
  if bool_decide (now - beat > beat_factor rev * timeout) then
    _disconnect rev peer st
  else
    let st := _send rev (Some peer) MsgPing st in
    (* setTimeout(() => this._keepAlive(peer), timeout) *)
    let h := length (timeouts st) in
    let st := set_timeouts (λ ts, ts ++ [Some (now + timeout, peer)]) st in
    set_keepAliveTimers
      (alter (λ r, {| timer := Some h; lastBeat := lastBeat r |}) peerId) st.

(** [_setKeepAliveTimerToNow(peer)], lines 542-546 and 1141-1145: the test
    [?.lastBeat] is on the number, so a beat of 0 is never renewed. *)
Definition _setKeepAliveTimerToNow (now : Z) (peer : ref) (st : Server) : Server :=
  let peerId := Peer.id (deref st peer) in
  match _keepAliveTimers st !! peerId with
  | Some r =>
    if bool_decide (lastBeat r ≠ 0) then
      set_keepAliveTimers (<[peerId := {| timer := timer r; lastBeat := now |}]>) st
    else st
  | None => st
  end.

(** ** Handlers of the text frames *)

(** [/^[\x00-\x7F]{64,256}$/.test(roomSecret)] *)
Definition is_7bit (a : Ascii.ascii) : bool := (Ascii.N_of_ascii a <? 128)%N.

Definition isRoomSecret (s : string) : bool :=
  forallb is_7bit (String.list_ascii_of_string s)
  && bool_decide (64 ≤ String.length s ≤ 256)%nat.

(** [_onRoomSecrets(sender, message)], lines 211-221 and 800-811;
    [roomSecrets] is [None] when the message has no such field. *)
Definition _onRoomSecrets (rev : revision) (sender : ref) (roomSecrets : option (list string))
    (st : Server) : Server :=
  match roomSecrets with
  | None => st
  | Some l =>
    let roomSecrets := List.filter isRoomSecret l in
    match rev, roomSecrets with
    | Rev2, [] => st
    | _, _ => _joinSecretRooms rev sender roomSecrets st
    end
  end.

(** [_deleteSecretRoom(roomSecret)], lines 229-243 and 819-835.  The loop
    [for (const peerId in room)] enumerates the keys the room had at entry
    and passes over one that has been deleted before its turn. *)
Definition _deleteSecretRoom (rev : revision) (roomSecret : string) (st : Server) : Server :=
  match _rooms st !! roomSecret with
  | None => st
  | Some room =>
    foldl (λ s '(peerId, peer),
             match alookup peerId (default [] (_rooms s !! roomSecret)) with
             | None => s
             | Some _ =>
               let s := _leaveSecretRoom rev peer roomSecret true s in
               _send rev (Some peer) (MsgSecretRoomDeleted roomSecret) s
             end)
          st room
  end.

Definition _onRoomSecretsDeleted (rev : revision) (sender : ref) (roomSecrets : list string)
    (st : Server) : Server :=
  foldl (λ s roomSecret, _deleteSecretRoom rev roomSecret s) st roomSecrets.

(** [_onPairDeviceInitiate(sender)], lines 245-260 and 837-854, with the
    value of [randomizer.getRandomString(256)] and the draws of
    [_createPairKey]. *)
Definition _onPairDeviceInitiate (rev : revision) (sender : ref) (roomSecret : string)
    (draws : list N) (st : Server) : option Server :=
  match _createPairKey sender roomSecret draws st with
  | None => None
  | Some (pairKey, st) =>
    let st :=
      if truthy (Peer.pairKey (deref st sender))
      then _removePairKey (Peer.pairKey (deref st sender)) st
      else st in
    let st := update_peer sender (Peer.set_pairKey (Some pairKey)) st in
    let st := _send rev (Some sender) (MsgPairDeviceInitiated roomSecret pairKey) st in
    Some (_joinSecretRoom rev sender roomSecret st)
  end.

(** [_onPairDeviceJoin(sender, message)], lines 262-288 and 856-886;
    [rateLimitReached] is the result of [sender.rateLimitReached()]. *)
Definition _onPairDeviceJoin (rev : revision) (sender : ref) (rateLimitReached : bool)
    (pairKey : string) (st : Server) : Server :=
  if rateLimitReached then _send rev (Some sender) MsgJoinKeyRateLimit st
  else
    match _roomSecrets st !! pairKey with
    | None => _send rev (Some sender) MsgPairDeviceJoinKeyInvalid st
    | Some entry =>
      if decide (Peer.id (deref st sender) = Peer.id (deref st (creator entry))) then
        _send rev (Some sender) MsgPairDeviceJoinKeyInvalid st
      else
        let roomSecret := roomSecret entry in
        let creator := creator entry in
        let st := _removePairKey (Some pairKey) st in
        let st := _send rev (Some sender)
                    (MsgPairDeviceJoined roomSecret (Peer.id (deref st creator))) st in
        let st := _send rev (Some creator)
                    (MsgPairDeviceJoined roomSecret (Peer.id (deref st sender))) st in
        let st := _joinSecretRoom rev sender roomSecret st in
        _removePairKey (Peer.pairKey (deref st sender)) st
    end.

(** [_onPairDeviceCancel(sender)], lines 290-300 and 888-898. *)
Definition _onPairDeviceCancel (rev : revision) (sender : ref) (st : Server) : Server :=
  match Peer.pairKey (deref st sender) with
  | Some pairKey =>
    if truthy (Some pairKey) then
      let st := _removePairKey (Some pairKey) st in
      _send rev (Some sender) (MsgPairDeviceCanceled pairKey) st
    else st
  | None => st
  end.

(** [_onCreatePublicRoom(sender)], lines 302-311 and 900-911, with the
    value of [randomizer.getRandomString(5, true).toLowerCase()]. *)
Definition _onCreatePublicRoom (rev : revision) (sender : ref) (publicRoomId : string)
    (st : Server) : Server :=
  let st := _send rev (Some sender) (MsgPublicRoomCreated publicRoomId) st in
  _joinPublicRoom rev sender publicRoomId st.

(** [_onJoinPublicRoom(sender, message)], lines 313-326 and 913-927. *)
Definition _onJoinPublicRoom (rev : revision) (sender : ref) (rateLimitReached : bool)
    (publicRoomId : string) (createIfInvalid : bool) (st : Server) : Server :=
  if rateLimitReached then _send rev (Some sender) MsgJoinKeyRateLimit st
  else
    match _rooms st !! publicRoomId, createIfInvalid with
    | None, false => _send rev (Some sender) (MsgPublicRoomIdInvalid publicRoomId) st
    | _, _ =>
      let st := _leavePublicRoom rev sender false st in
      _joinPublicRoom rev sender publicRoomId st
    end.

(** [_onLeavePublicRoom(sender)], lines 328-331 and 929-932. *)
Definition _onLeavePublicRoom (rev : revision) (sender : ref) (st : Server) : Server :=
  let st := _leavePublicRoom rev sender true st in
  _send rev (Some sender) MsgPublicRoomLeft st.

(** [_onRegenerateRoomSecret(sender, message)], lines 333-348 and 934-948,
    with the value of [randomizer.getRandomString(256)]. *)
Definition _onRegenerateRoomSecret (rev : revision) (sender : ref)
    (oldRoomSecret newRoomSecret : string) (st : Server) : Server :=
  let st :=
    foldl (λ s '(peerId, peer),
             let s := _send rev (Some peer)
                        (MsgRoomSecretRegenerated oldRoomSecret newRoomSecret) s in
             update_peer peer (Peer.removeRoomSecret oldRoomSecret) s)
          st (default [] (_rooms st !! oldRoomSecret)) in
  set_rooms (delete oldRoomSecret) st.

(** ** Relay of text frames *)

(** [ToString] of the value of a field, as JS takes it for a property key;
    [None] is a field the object does not have ([undefined]). *)
Definition js_key (v : option jval) : string :=
  match v with
  | None => "undefined"
  | Some JNull => "null"
  | Some (JBool true) => "true"
  | Some (JBool false) => "false"
  | Some (JStr s) => s
  | Some (JObj _) => "[object Object]"
  end.

Definition js_truthy (v : option jval) : bool :=
  match v with
  | None | Some JNull => false
  | Some (JBool b) => b
  | Some (JStr s) => bool_decide (s ≠ "")
  | Some (JObj _) => true
  end.

(** [Peer.isValidUuid] on the value of a field. *)
Definition js_isValidUuid (v : option jval) : bool :=
  match v with
  | Some (JStr s) => Peer.isValidUuid s
  | _ => false
  end.

(** [{id: sender.id, rtcSupported: sender.rtcSupported}] *)
Definition sender_tag (p : Peer.t) : jval :=
  JObj [("id", JStr (Peer.id p)); ("rtcSupported", JBool (Peer.rtcSupported p))].

(** The room a relayed text message names. *)
Definition relay_room (st : Server) (sender : ref) (message : gmap string jval) : string :=
  match message !! "roomType" with
  | Some (JStr roomType) =>
    if decide (roomType = "ip") then Peer.ip (deref st sender)
    else js_key (message !! "roomId")
  | _ => js_key (message !! "roomId")
  end.

(** [_signalAndRelay(sender, message)], lines 175-191 and 757-778. *)
Definition _signalAndRelay (rev : revision) (sender : ref) (message : gmap string jval)
    (st : Server) : Server :=
  let room := relay_room st sender message in
  (* relay message to recipient *)
  if js_truthy (message !! "to") && js_isValidUuid (message !! "to") then
    match _rooms st !! room with
    | Some members =>
      let recipient := alookup (js_key (message !! "to")) members in
      match rev, recipient with
      | Rev2, None => st
      | _, _ =>
        (* delete message.to; add sender *)
        let message := <["sender" := sender_tag (deref st sender)]> (delete "to" message) in
        _send rev recipient (MsgRelayed message) st
      end
    | None => st
    end
  else st.

(** ** Relay of binary frames *)

(** [buf.slice(from, to)] *)
Definition slice (from to : nat) (data : list byte) : list byte :=
  take (to - from) (drop from data).

(** UTF-8 encodings of the code points [String.prototype.trim] strips: the
    WhiteSpace and LineTerminator productions of ECMAScript. *)
Definition white_space : list string :=
  String.string_of_list_byte <$>
    [ [x09]; [x0a]; [x0b]; [x0c]; [x0d]; [x20];
      [xc2; xa0]; [xe1; x9a; x80];
      [xe2; x80; x80]; [xe2; x80; x81]; [xe2; x80; x82]; [xe2; x80; x83];
      [xe2; x80; x84]; [xe2; x80; x85]; [xe2; x80; x86]; [xe2; x80; x87];
      [xe2; x80; x88]; [xe2; x80; x89]; [xe2; x80; x8a];
      [xe2; x80; xa8]; [xe2; x80; xa9]; [xe2; x80; xaf];
      [xe2; x81; x9f]; [xe3; x80; x80]; [xef; xbb; xbf] ].

Definition strip_prefix (p s : string) : option string :=
  if String.prefix p s then Some (substring_from (String.length p) s) else None.

Fixpoint strip_any (ps : list string) (s : string) : option string :=
  match ps with
  | [] => None
  | p :: ps' =>
    match strip_prefix p s with
    | Some s' => Some s'
    | None => strip_any ps' s
    end
  end.

Fixpoint trim_left (ps : list string) (fuel : nat) (s : string) : string :=
  match fuel with
  | O => s
  | S fuel' =>
    match strip_any ps s with
    | Some s' => trim_left ps fuel' s'
    | None => s
    end
  end.

Definition trimStart (s : string) : string := trim_left white_space (String.length s) s.

Definition trimEnd (s : string) : string :=
  String.rev (trim_left (String.rev <$> white_space) (String.length s) (String.rev s)).

(** [s.trim()] *)
Definition trim (s : string) : string := trimEnd (trimStart s).

Definition is_7bit_byte (b : byte) : bool := (Byte.to_N b <? 128)%N.

Section Dispatcher.
(** [buf.toString('utf8')] on a buffer that has a byte above 127.  Node
    decodes it, replacing what is not well-formed UTF-8; nothing below
    depends on how. *)
Variable utf8_decode : list byte → string.

(** [buf.toString('utf8')] *)
Definition toString_utf8 (data : list byte) : string :=
  if forallb is_7bit_byte data then String.string_of_list_byte data else utf8_decode data.

(** The room a binary frame names. *)
Definition binary_room (st : Server) (sender : ref) (binaryData : list byte) : string :=
  let roomType := toString_utf8 (slice 36 37 binaryData) in
  if decide (roomType = "i") then Peer.ip (deref st sender)
  else trim (toString_utf8 (slice 37 101 binaryData)).

(** [_relayBinaryMessage(sender, binaryData)], lines 157-173 and 741-755. *)
Definition _relayBinaryMessage (rev : revision) (sender : ref) (binaryData : list byte)
    (st : Server) : Server :=
  if negb (wsFallback (_conf st)) then st
  else
    let recipientId := toString_utf8 (slice 0 36 binaryData) in
    let room := binary_room st sender binaryData in
    if Peer.isValidUuid recipientId then
      match _rooms st !! room with
      | Some members =>
        match alookup recipientId members with
        | Some recipient =>
          if bool_decide (Peer.readyState (deref st recipient) = 1)
          then emit (SocketSendBinary recipient (drop 101 binaryData)) st
          else st
        | None => st
        end
      | None => st
      end
    else st.

(** ** Dispatcher *)

(** A text frame after [JSON.parse], by its [type].  The fields a handler
    reads have the types the protocol gives them.  [Other] is an object
    whose [type] is none of the twelve above: a signal, a fallback relay
    type, or a type the server does not know. *)
Inductive Message :=
| Disconnect
| Pong
| JoinIpRoom
| RoomSecrets (roomSecrets : option (list string))
| RoomSecretsDeleted (roomSecrets : list string)
| PairDeviceInitiate
| PairDeviceJoin (pairKey : string)
| PairDeviceCancel
| RegenerateRoomSecret (roomSecret : string)
| CreatePublicRoom
| JoinPublicRoom (publicRoomId : string) (createIfInvalid : bool)
| LeavePublicRoom
| Other (message : gmap string jval).

Inductive Frame :=
| Binary (data : list byte)
| Malformed
| Text (message : Message).

(** What a handler takes from outside the server state: the clock, the
    rate limiter of the sender and the random sources. *)
Record Oracle := {
  now : Z;
  rateLimitReached : bool;
  randomString256 : string;
  randomString5 : string;
  randomInts : list N
}.

(** The types relayed when [wsFallback] is on, lines 134-145 and 715-726. *)
Definition fallback_types : list string :=
  [ "request"; "header"; "partition"; "partition-received"; "progress";
    "files-transfer-response"; "file-transfer-complete";
    "message-transfer-complete"; "text"; "display-name-changed";
    "ws-chunk"; "ws-chunk-binary" ].

(** [_onMessage(sender, message)], lines 78-154 and 654-739.  [None]: the
    draws of the oracle did not end the loop of [_createPairKey]. *)
Definition _onMessage (rev : revision) (o : Oracle) (sender : ref) (frame : Frame)
    (st : Server) : option Server :=
  match frame with
  | Binary data => Some (_relayBinaryMessage rev sender data st)
  | Malformed => Some st
  | Text Disconnect => Some (_onDisconnect rev sender st)
  | Text Pong => Some (_setKeepAliveTimerToNow (now o) sender st)
  | Text JoinIpRoom => Some (_joinIpRoom rev sender st)
  | Text (RoomSecrets l) => Some (_onRoomSecrets rev sender l st)
  | Text (RoomSecretsDeleted l) => Some (_onRoomSecretsDeleted rev sender l st)
  | Text PairDeviceInitiate =>
    _onPairDeviceInitiate rev sender (randomString256 o) (randomInts o) st
  | Text (PairDeviceJoin k) => Some (_onPairDeviceJoin rev sender (rateLimitReached o) k st)
  | Text PairDeviceCancel => Some (_onPairDeviceCancel rev sender st)
  | Text (RegenerateRoomSecret s) =>
    Some (_onRegenerateRoomSecret rev sender s (randomString256 o) st)
  | Text CreatePublicRoom => Some (_onCreatePublicRoom rev sender (randomString5 o) st)
  | Text (JoinPublicRoom r c) =>
    Some (_onJoinPublicRoom rev sender (rateLimitReached o) r c st)
  | Text LeavePublicRoom => Some (_onLeavePublicRoom rev sender st)
  | Text (Other message) =>
    match message !! "type" with
    | Some (JStr type) =>
      if decide (type = "signal") then Some (_signalAndRelay rev sender message st)
      else if bool_decide (type ∈ fallback_types) then
        (* relay ws-fallback *)
        if wsFallback (_conf st) then Some (_signalAndRelay rev sender message st)
        else Some st
      else Some st
    | _ => Some st
    end
  end.

(** [_onConnection(new Peer(socket, request, conf))], lines 39-76 and
    606-652, at time [now]; [peerIdHash] is the value of
    [hasher.hashCodeSalted(peer.id)]. *)
Definition _onConnection (rev : revision) (now : Z) (id ip : string) (name : Name)
    (rtcSupported : bool) (peerIdHash : string) (st : Server) : Server :=
  let peer := length (heap st) in
  let st := set_heap (λ h, h ++ [Peer.new id ip name rtcSupported]) st in
  let st := _keepAlive rev now peer st in
  let st := _send rev (Some peer)
              (MsgWsConfig (rtcConfig (_conf st)) (wsFallback (_conf st))) st in
  (* send displayName *)
  _send rev (Some peer) (MsgDisplayName name id peerIdHash) st.

(** ** The server as a transition system *)

Inductive Input :=
| Connection (id ip : string) (name : Name) (rtcSupported : bool) (peerIdHash : string)
| Received (sender : ref) (frame : Frame)
| TimerFired (h : nat)
| SocketClosing (peer : ref)
| SocketClosed (peer : ref).

(** One turn of the event loop.  [None]: the input is not enabled (a
    peer that does not exist, a timer that is not due). *)
Definition step (rev : revision) (o : Oracle) (i : Input) (st : Server) : option Server :=
  match i with
  | Connection id ip name rtc hash => Some (_onConnection rev (now o) id ip name rtc hash st)
  | Received sender frame =>
    if bool_decide (sender < length (heap st))%nat then _onMessage rev o sender frame st
    else None
  | TimerFired h =>
    match timeouts st !! h with
    | Some (Some (due, peer)) =>
      if bool_decide (due ≤ now o) then Some (_keepAlive rev (now o) peer (clearTimeout h st))
      else None
    | _ => None
    end
  | SocketClosing peer =>
    if bool_decide (peer < length (heap st))%nat
    then Some (update_peer peer
                 (λ p, if bool_decide (Peer.readyState p = 3) then p
                       else Peer.set_readyState 2 p) st)
    else None
  | SocketClosed peer =>
    if bool_decide (peer < length (heap st))%nat then
      let st := update_peer peer (Peer.set_readyState 3) st in
      match rev with
      | Rev1 => Some st
      | Rev2 => Some (_onDisconnect rev peer st)
      end
    else None
  end.

(** The state of [new PairDropWsServer(server, conf)]. *)
Definition init (conf : Conf) (wss : Wss) : Server :=
  {| _conf := conf; _wss := wss; _rooms := ∅; _roomSecrets := ∅;
     _keepAliveTimers := ∅; heap := []; timeouts := []; wire := [] |}.

Inductive reachable (rev : revision) (conf : Conf) (wss : Wss) : Server → Prop :=
| reachable_init : reachable rev conf wss (init conf wss)
| reachable_step st o i st' :
    reachable rev conf wss st →
    step rev o i st = Some st' →
    reachable rev conf wss st'.
End Dispatcher.

(** * Properties *)

(** ** What a computation writes and what it leaves alone *)

Lemma emits_nil st : emits [] st = st.
Proof. destruct st. unfold emits. simpl. by rewrite app_nil_r. Qed.

Lemma emits_emits es1 es2 st : emits es2 (emits es1 st) = emits (es1 ++ es2) st.
Proof. unfold emits. simpl. by rewrite app_assoc. Qed.

Lemma set_rooms_id st : set_rooms (λ m, m) st = st.
Proof. by destruct st. Qed.

Lemma set_rooms_emits f es st : set_rooms f (emits es st) = emits es (set_rooms f st).
Proof. done. Qed.

Lemma update_peer_emits r f es st : update_peer r f (emits es st) = emits es (update_peer r f st).
Proof. done. Qed.

(** What [_send] writes. *)
Definition send_out (rev : revision) (st : Server) (peer : ref) (m : OutMsg) : list Effect :=
  if sendable rev st peer then [SocketSend peer m] else [].

Lemma _send_Some rev r m st : _send rev (Some r) m st = emits (send_out rev st r m) st.
Proof.
  unfold _send, send_out. destruct (sendable rev st r); [done|]. by rewrite emits_nil.
Qed.

Lemma sendable_emits rev es st r : sendable rev (emits es st) r = sendable rev st r.
Proof. by destruct rev. Qed.

Lemma sendable_set_rooms rev f st r : sendable rev (set_rooms f st) r = sendable rev st r.
Proof. by destruct rev. Qed.

Lemma send_out_emits rev es st r m : send_out rev (emits es st) r m = send_out rev st r m.
Proof. unfold send_out. by rewrite sendable_emits. Qed.

Lemma send_out_set_rooms rev f st r m : send_out rev (set_rooms f st) r m = send_out rev st r m.
Proof. unfold send_out. by rewrite sendable_set_rooms. Qed.

(** A loop whose body only writes. *)
Lemma foldl_emits {A} (f : Server → A → Server) (g : Server → A → list Effect) l st :
  (∀ s x, f s x = emits (g s x) s) →
  (∀ es s x, g (emits es s) x = g s x) →
  foldl f st l = emits (flat_map (g st) l) st.
Proof.
  intros Hf Hg. revert st. induction l as [|x l IH]; intros st; simpl.
  - by rewrite emits_nil.
  - rewrite IH, Hf, emits_emits. f_equal. f_equal.
    apply flat_map_ext. intros a. apply Hg.
Qed.

(** The registry after [_leaveRoom] of the peer with id [peerId]. *)
Definition leave_rooms (peerId roomId : string) (rooms : gmap string (list (string * ref)))
    : gmap string (list (string * ref)) :=
  match rooms !! roomId with
  | None => rooms
  | Some room =>
    match alookup peerId room with
    | None => rooms
    | Some _ =>
      match adelete peerId room with
      | [] => delete roomId rooms
      | remaining => <[roomId := remaining]> rooms
      end
    end
  end.

(** The members of a room that stay when the peer with id [peerId] goes;
    none when it is not a member. *)
Definition remaining_members (peerId roomId : string) (st : Server) : list (string * ref) :=
  match _rooms st !! roomId with
  | None => []
  | Some room =>
    match alookup peerId room with
    | None => []
    | Some _ => adelete peerId room
    end
  end.

(** What [_leaveRoom] writes: a [peer-left] to each remaining member. *)
Definition leave_out (rev : revision) (st : Server) (peer : ref) (roomType : RoomType)
    (roomId : string) (disconnect : bool) : list Effect :=
  let peerId := Peer.id (deref st peer) in
  flat_map (λ kv, send_out rev st kv.2 (MsgPeerLeft peerId roomType roomId disconnect))
           (remaining_members peerId roomId st).

Lemma _leaveRoom_spec rev peer roomType roomId disconnect st :
  _leaveRoom rev peer roomType roomId disconnect st
  = emits (leave_out rev st peer roomType roomId disconnect)
          (set_rooms (leave_rooms (Peer.id (deref st peer)) roomId) st).
Proof.
  assert (Hid : ∀ f, f (_rooms st) = _rooms st → set_rooms f st = st).
  { intros f Hf. destruct st; unfold set_rooms; simpl in *. by rewrite Hf. }
  unfold _leaveRoom, leave_out, remaining_members.
  destruct (_rooms st !! roomId) as [room|] eqn:Hroom; cbv beta iota zeta.
  2: { rewrite emits_nil, Hid; [done|]. unfold leave_rooms. by rewrite Hroom. }
  destruct (alookup _ room) eqn:Hmem; cbv beta iota zeta.
  2: { rewrite emits_nil, Hid; [done|]. unfold leave_rooms. by rewrite Hroom, Hmem. }
  assert (Hrooms : set_rooms (leave_rooms (Peer.id (deref st peer)) roomId) st
          = match adelete (Peer.id (deref st peer)) room with
            | [] => set_rooms (delete roomId) st
            | remaining => set_rooms (<[roomId := remaining]>) st
            end).
  { destruct st; unfold set_rooms, leave_rooms; simpl in *. rewrite Hroom, Hmem.
    by destruct (adelete _ room). }
  rewrite Hrooms.
  destruct (adelete _ room) as [|kv rest] eqn:Hdel.
  - by rewrite emits_nil.
  - set (msg := MsgPeerLeft _ _ _ _).
    rewrite (foldl_emits _ (λ s kv, send_out rev s kv.2 msg) (kv :: rest)).
    + f_equal; try (apply flat_map_ext; intros [k o]; apply send_out_set_rooms).
    + intros s [k o]. apply _send_Some.
    + intros es s [k o]. apply send_out_emits.
Qed.

Lemma elem_of_adelete {A} k k' (v : A) l : (k', v) ∈ adelete k l → k' ≠ k ∧ (k', v) ∈ l.
Proof.
  induction l as [|[k0 v0] t IH]; simpl; [by intros ?%elem_of_nil|].
  destruct (decide (k = k0)) as [->|Hne].
  - intros [? ?]%IH. split; [done|]. by apply list_elem_of_further.
  - intros [[= -> ->]|Hin]%elem_of_cons.
    + split; [done|]. apply list_elem_of_here.
    + destruct (IH Hin). split; [done|]. by apply list_elem_of_further.
Qed.


Lemma flat_map_others {A B} (peerId : string) (g : string * A → list B) l :
  (∀ kv, kv ∈ l → kv.1 ≠ peerId) →
  flat_map (λ kv, if decide (kv.1 = peerId) then [] else g kv) l = flat_map g l.
Proof.
  intros H. induction l as [|kv l IH]; simpl; [done|].
  rewrite decide_False by (apply H, list_elem_of_here).
  rewrite IH; [done|]. intros kv' Hin. apply H. by apply list_elem_of_further.
Qed.

Lemma foldl_collect {A B} (f : list B → A → list B) (g : A → list B) l acc :
  (∀ acc x, f acc x = acc ++ g x) →
  foldl f acc l = acc ++ flat_map g l.
Proof.
  intros Hf. revert acc. induction l as [|x l IH]; intros acc; simpl.
  - by rewrite app_nil_r.
  - by rewrite IH, Hf, <- app_assoc.
Qed.

(** What [_notifyPeers] writes: a [peer-joined] to every other member,
    then the [peers] snapshot to the peer itself. *)
Definition notify_out (rev : revision) (st : Server) (peer : ref) (roomType : RoomType)
    (roomId : string) : list Effect :=
  match _rooms st !! roomId with
  | None => []
  | Some room =>
    let p := deref st peer in
    flat_map (λ kv, if decide (kv.1 = Peer.id p) then []
                    else send_out rev st kv.2 (MsgPeerJoined (Peer.getInfo p) roomType roomId))
             room
    ++ send_out rev st peer
         (MsgPeers (flat_map (λ kv, if decide (kv.1 = Peer.id p) then []
                                    else [Peer.getInfo (deref st kv.2)]) room)
                   roomType roomId)
  end.

Lemma _notifyPeers_spec rev peer roomType roomId st :
  _notifyPeers rev peer roomType roomId st = emits (notify_out rev st peer roomType roomId) st.
Proof.
  unfold _notifyPeers, notify_out.
  destruct (_rooms st !! roomId) as [room|]; [|by rewrite emits_nil].
  cbv beta iota zeta.
  rewrite (foldl_emits _
    (λ s kv, if decide (kv.1 = Peer.id (deref st peer)) then []
             else send_out rev s kv.2
                    (MsgPeerJoined (Peer.getInfo (deref s peer)) roomType roomId)) room).
  - rewrite _send_Some, emits_emits, send_out_emits. do 4 f_equal.
    rewrite (foldl_collect _
      (λ kv, if decide (kv.1 = Peer.id (deref st peer)) then []
             else [Peer.getInfo (deref st kv.2)])); [done|].
    intros acc [k o]. simpl. case_decide; [by rewrite app_nil_r|done].
  - intros s [k o]. simpl. case_decide; [by rewrite emits_nil|]. apply _send_Some.
  - intros es s [k o]. simpl. case_decide; [done|]. apply send_out_emits.
Qed.

(** The registry after [_joinRoom]. *)
Definition join_rooms (peerId : string) (peer : ref) (roomId : string)
    (rooms : gmap string (list (string * ref))) : gmap string (list (string * ref)) :=
  <[roomId := ainsert peerId peer (adelete peerId (default [] (rooms !! roomId)))]> rooms.

(** What [_joinRoom] writes: the [peer-left] of the rejoin, if the peer was
    a member, then a [peer-joined] to every other member and the [peers]
    snapshot. *)
Definition join_out (rev : revision) (st : Server) (peer : ref) (roomType : RoomType)
    (roomId : string) : list Effect :=
  let p := deref st peer in
  let others := adelete (Peer.id p) (default [] (_rooms st !! roomId)) in
  leave_out rev st peer roomType roomId false
  ++ flat_map (λ kv, send_out rev st kv.2 (MsgPeerJoined (Peer.getInfo p) roomType roomId))
       others
  ++ send_out rev st peer
       (MsgPeers ((λ kv, Peer.getInfo (deref st kv.2)) <$> others) roomType roomId).

Lemma set_rooms_ext f g st : f (_rooms st) = g (_rooms st) → set_rooms f st = set_rooms g st.
Proof. intros H. unfold set_rooms. by rewrite H. Qed.


(** The state in which [_joinRoom] notifies: the peer has left the room,
    if it was in it, and the room exists. *)
Lemma _joinRoom_before_notify rev peer roomType roomId st :
  let peerId := Peer.id (deref st peer) in
  let others := adelete peerId (default [] (_rooms st !! roomId)) in
  let st1 :=
    match _rooms st !! roomId with
    | Some room =>
      match alookup peerId room with
      | Some _ => _leaveRoom rev peer roomType roomId false st
      | None => st
      end
    | None => st
    end in
  match _rooms st1 !! roomId with
  | None => set_rooms (<[roomId := []]>) st1
  | Some _ => st1
  end
  = emits (leave_out rev st peer roomType roomId false) (set_rooms (<[roomId := others]>) st).
Proof.
  intros peerId others st1. subst st1 others.
  destruct (_rooms st !! roomId) as [room|] eqn:Hroom; simpl.
  - destruct (alookup peerId room) as [x|] eqn:Hmem.
    + rewrite _leaveRoom_spec. fold peerId.
      change (_rooms (emits _ (set_rooms ?f st))) with (f (_rooms st)).
      destruct (adelete peerId room) as [|kv rest] eqn:Hdel.
      * assert (Hl : leave_rooms peerId roomId (_rooms st) = delete roomId (_rooms st)).
        { unfold leave_rooms. by rewrite Hroom, Hmem, Hdel. }
        rewrite Hl, lookup_delete_eq, set_rooms_emits. f_equal.
        change (set_rooms <[roomId:=[]]> (set_rooms (leave_rooms peerId roomId) st))
          with (set_rooms (λ m, <[roomId:=[]]> (leave_rooms peerId roomId m)) st).
        apply set_rooms_ext. by rewrite Hl, insert_delete_eq.
      * assert (Hl : leave_rooms peerId roomId (_rooms st)
                     = <[roomId := kv :: rest]> (_rooms st)).
        { unfold leave_rooms. by rewrite Hroom, Hmem, Hdel. }
        rewrite Hl, lookup_insert_eq. f_equal. by apply set_rooms_ext.
    + rewrite Hroom. unfold leave_out, remaining_members. fold peerId.
      rewrite Hroom, Hmem. simpl. rewrite emits_nil.
      rewrite (adelete_absent _ _ Hmem).
      rewrite <- (set_rooms_id st) at 1. apply set_rooms_ext. by rewrite insert_id.
  - rewrite Hroom. unfold leave_out, remaining_members. fold peerId. rewrite Hroom.
    simpl. by rewrite emits_nil.
Qed.

Lemma _joinRoom_spec rev peer roomType roomId st :
  _joinRoom rev peer roomType roomId st
  = emits (join_out rev st peer roomType roomId)
          (set_rooms (join_rooms (Peer.id (deref st peer)) peer roomId) st).
Proof.
  unfold _joinRoom. rewrite _joinRoom_before_notify.
  set (peerId := Peer.id (deref st peer)).
  set (others := adelete peerId (default [] (_rooms st !! roomId))).
  rewrite _notifyPeers_spec, emits_emits, set_rooms_emits.
  unfold join_out. fold peerId others. f_equal.
  - f_equal. unfold notify_out. simpl. rewrite lookup_insert_eq.
    change (deref (emits _ (set_rooms _ st)) peer) with (deref st peer). fold peerId.
    rewrite send_out_emits, send_out_set_rooms. f_equal.
    + rewrite (flat_map_others peerId
        (λ kv, send_out rev (emits (leave_out rev st peer roomType roomId false)
                               (set_rooms <[roomId:=others]> st)) kv.2
                 (MsgPeerJoined (Peer.getInfo (deref st peer)) roomType roomId))).
      * apply flat_map_ext. intros [k o]. by rewrite send_out_emits, send_out_set_rooms.
      * intros [k o] Hin. by apply elem_of_adelete in Hin as [? _].
    + do 2 f_equal.
      rewrite (flat_map_others peerId (λ kv, [Peer.getInfo (deref st kv.2)])).
      * induction others as [|kv l IH]; simpl; [done|]. by rewrite IH.
      * intros [k o] Hin. by apply elem_of_adelete in Hin as [? _].
  - unfold set_rooms, join_rooms; simpl. f_equal.
    rewrite lookup_insert_eq. simpl. by rewrite insert_insert_eq.
Qed.

(** Projections through the state updates. *)
Ltac proj :=
  cbn [emits emit set_rooms set_heap set_roomSecrets set_keepAliveTimers set_timeouts
       update_peer clearTimeout _rooms heap _roomSecrets _keepAliveTimers timeouts wire
       _conf _wss] in *.

Lemma deref_update_peer_eq r f st :
  (r < length (heap st))%nat → deref (update_peer r f st) r = f (deref st r).
Proof. intros H. unfold deref. proj. by rewrite list_lookup_total_insert_eq. Qed.

Lemma deref_update_peer_ne r r' f st : r ≠ r' → deref (update_peer r f st) r' = deref st r'.
Proof. intros H. unfold deref. proj. by rewrite list_lookup_total_insert_ne. Qed.

Lemma deref_update_peer r r' f st :
  deref (update_peer r f st) r'
  = if decide (r = r' ∧ (r < length (heap st))%nat) then f (deref st r') else deref st r'.
Proof.
  case_decide as H.
  - destruct H as [-> H]. by apply deref_update_peer_eq.
  - destruct (decide (r = r')) as [->|Hne]; [|by apply deref_update_peer_ne].
    unfold deref. proj. rewrite list_insert_ge; [done|]. lia.
Qed.

Lemma length_heap_update_peer r f st : length (heap (update_peer r f st)) = length (heap st).
Proof. proj. by rewrite length_insert. Qed.

(** Two states that a sender cannot tell apart: the same transport, the
    same rooms, and for every peer the same identity and socket state. *)
Definition same_view (st1 st2 : Server) : Prop :=
  _wss st1 = _wss st2 ∧ _rooms st1 = _rooms st2
  ∧ ∀ r, Peer.id (deref st1 r) = Peer.id (deref st2 r)
         ∧ Peer.getInfo (deref st1 r) = Peer.getInfo (deref st2 r)
         ∧ Peer.readyState (deref st1 r) = Peer.readyState (deref st2 r).

Lemma same_view_refl st : same_view st st.
Proof. by repeat split. Qed.

Lemma same_view_trans st1 st2 st3 : same_view st1 st2 → same_view st2 st3 → same_view st1 st3.
Proof.
  intros (? & ? & H1) (? & ? & H2). repeat split; try congruence.
  - destruct (H1 r) as (-> & _), (H2 r) as (-> & _). done.
  - destruct (H1 r) as (_ & -> & _), (H2 r) as (_ & -> & _). done.
  - destruct (H1 r) as (_ & _ & ->), (H2 r) as (_ & _ & ->). done.
Qed.

Lemma same_view_set_pairKey r k st : same_view (update_peer r (Peer.set_pairKey k) st) st.
Proof.
  repeat split; rewrite deref_update_peer; by case_decide.
Qed.

Lemma same_view_set_roomSecrets f st : same_view (set_roomSecrets f st) st.
Proof. by repeat split. Qed.

Lemma same_view_emits es st : same_view (emits es st) st.
Proof. by repeat split. Qed.

Lemma same_view_sendable rev st1 st2 r : same_view st1 st2 → sendable rev st1 r = sendable rev st2 r.
Proof.
  intros (Hw & _ & H). destruct rev; simpl.
  - by rewrite Hw.
  - by destruct (H r) as (_ & _ & ->).
Qed.

Lemma same_view_send_out rev st1 st2 r m : same_view st1 st2 → send_out rev st1 r m = send_out rev st2 r m.
Proof. intros H. unfold send_out. by rewrite (same_view_sendable rev st1 st2). Qed.

Lemma same_view_join_out rev st1 st2 peer roomType roomId :
  same_view st1 st2 → join_out rev st1 peer roomType roomId = join_out rev st2 peer roomType roomId.
Proof.
  intros Hv. pose proof Hv as (Hw & Hr & H).
  unfold join_out, leave_out, remaining_members. rewrite Hr.
  destruct (H peer) as (-> & -> & _).
  f_equal; [|f_equal].
  - apply flat_map_ext. intros [k o]. by apply same_view_send_out.
  - apply flat_map_ext. intros [k o]. by apply same_view_send_out.
  - rewrite (same_view_send_out rev st1 st2) by done. do 2 f_equal.
    apply list_fmap_ext. intros i [k o] _. simpl. by destruct (H o) as (_ & -> & _).
Qed.

(** ** Pairing *)

Lemma _removePairKey_Some K entry st :
  _roomSecrets st !! K = Some entry →
  _removePairKey (Some K) st
  = set_roomSecrets (delete K) (update_peer (creator entry) (Peer.set_pairKey None) st).
Proof. intros H. unfold _removePairKey. simpl. by rewrite H. Qed.

Lemma _removePairKey_same_view k st : same_view (_removePairKey k st) st.
Proof.
  unfold _removePairKey. destruct (_roomSecrets st !! _); [|apply same_view_refl].
  eapply same_view_trans; [apply same_view_set_roomSecrets|apply same_view_set_pairKey].
Qed.

Lemma _removePairKey_lookup_None k K st :
  _roomSecrets st !! K = None → _roomSecrets (_removePairKey k st) !! K = None.
Proof.
  intros H. unfold _removePairKey. destruct (_roomSecrets st !! property_key k); [|done].
  proj. rewrite lookup_delete. by case_decide.
Qed.

Lemma _removePairKey_roomSecrets k st r :
  Peer.roomSecrets (deref (_removePairKey k st) r) = Peer.roomSecrets (deref st r).
Proof.
  unfold _removePairKey. destruct (_roomSecrets st !! property_key k); [|done].
  change (deref (set_roomSecrets ?f ?s) r) with (deref s r).
  rewrite deref_update_peer. by case_decide.
Qed.

Lemma _removePairKey_rooms k st : _rooms (_removePairKey k st) = _rooms st.
Proof. unfold _removePairKey. by destruct (_roomSecrets st !! property_key k). Qed.

Lemma _joinSecretRoom_spec rev peer roomSecret st :
  _joinSecretRoom rev peer roomSecret st
  = emits (join_out rev st peer RoomSecret roomSecret)
      (update_peer peer (Peer.addRoomSecret roomSecret)
         (set_rooms (join_rooms (Peer.id (deref st peer)) peer roomSecret) st)).
Proof. unfold _joinSecretRoom. by rewrite _joinRoom_spec. Qed.

Lemma elem_of_addRoomSecret s p : s ∈ Peer.roomSecrets (Peer.addRoomSecret s p).
Proof.
  unfold Peer.addRoomSecret. case_decide; [done|]. simpl. apply elem_of_app. right.
  apply list_elem_of_here.
Qed.

Lemma _removePairKey_wire k st : wire (_removePairKey k st) = wire st.
Proof. unfold _removePairKey. by destruct (_roomSecrets st !! property_key k). Qed.

Lemma _removePairKey_length_heap k st : length (heap (_removePairKey k st)) = length (heap st).
Proof.
  unfold _removePairKey. destruct (_roomSecrets st !! property_key k); [|done].
  proj. by rewrite length_insert.
Qed.

(** C1.  A [pair-device-join] with key [K] from a peer [S] whose rate limit
    is not reached, when the directory has an entry for [K] created by a
    peer with another id: the handler removes [K] from the directory, hands
    to [_send] a [pair-device-joined] for [S] with the entry's secret and
    the creator's id, then one for the creator with the same secret and
    the id of [S] ([send_out]: the frame is written when the transport
    guard of [_send] passes), and joins [S] to the secret room of that
    name: [S] is a member under its id and holds the secret. *)
Theorem pair_device_join_pairs rev S K entry st :
  (S < length (heap st))%nat →
  _roomSecrets st !! K = Some entry →
  Peer.id (deref st S) ≠ Peer.id (deref st (creator entry)) →
  let st' := _onPairDeviceJoin rev S false K st in
  _roomSecrets st' !! K = None
  ∧ wire st' = wire st
      ++ send_out rev st S
           (MsgPairDeviceJoined (roomSecret entry) (Peer.id (deref st (creator entry))))
      ++ send_out rev st (creator entry)
           (MsgPairDeviceJoined (roomSecret entry) (Peer.id (deref st S)))
      ++ join_out rev st S RoomSecret (roomSecret entry)
  ∧ (∃ room, _rooms st' !! roomSecret entry = Some room
             ∧ alookup (Peer.id (deref st S)) room = Some S)
  ∧ roomSecret entry ∈ Peer.roomSecrets (deref st' S).
Proof.
  intros HS HK Hne st'. subst st'. unfold _onPairDeviceJoin.
  rewrite HK. rewrite decide_False by done.
  set (st1 := _removePairKey (Some K) st).
  assert (Hv1 : same_view st1 st) by apply _removePairKey_same_view.
  pose proof Hv1 as (_ & Hrooms1 & Hid1).
  assert (HidS : Peer.id (deref st1 S) = Peer.id (deref st S)) by apply Hid1.
  assert (HidC : Peer.id (deref st1 (creator entry)) = Peer.id (deref st (creator entry)))
    by apply Hid1.
  rewrite !_send_Some, !emits_emits.
  change (deref (emits ?es ?s) ?r) with (deref s r).
  rewrite send_out_emits, HidS, HidC.
  rewrite _joinSecretRoom_spec.
  change (deref (emits ?es ?s) ?r) with (deref s r).
  rewrite HidS.
  rewrite (same_view_join_out rev (emits _ st1) st).
  2: { eapply same_view_trans; [apply same_view_emits|done]. }
  rewrite !(same_view_send_out rev st1 st) by done.
  set (st2 := emits _ (update_peer S _ _)).
  split; [|split; [|split]].
  - apply _removePairKey_lookup_None. subst st2. proj. subst st1.
    rewrite (_removePairKey_Some K entry) by done. proj. apply lookup_delete_eq.
  - rewrite _removePairKey_wire. subst st2. proj.
    subst st1. rewrite _removePairKey_wire. by rewrite <- !app_assoc.
  - rewrite _removePairKey_rooms. subst st2. proj. unfold join_rooms.
    rewrite lookup_insert_eq. eexists; split; [done|]. apply alookup_ainsert_eq.
  - rewrite _removePairKey_roomSecrets. subst st2.
    change (deref (emits ?es ?s) ?r) with (deref s r).
    rewrite deref_update_peer_eq.
    + apply elem_of_addRoomSecret.
    + proj. subst st1. by rewrite _removePairKey_length_heap.
Qed.


(** With the rate limit reached the reply is [join-key-rate-limit],
    whatever the key. *)
Lemma pair_device_join_rate_limited rev S K st :
  _onPairDeviceJoin rev S true K st = emits (send_out rev st S MsgJoinKeyRateLimit) st.
Proof. unfold _onPairDeviceJoin. apply _send_Some. Qed.

(** ** Relay *)






Section RelayText.
Variable utf8_decode : list byte → string.


End RelayText.

(** What a handler writes when run in [st]. *)
Definition output (f : Server → Server) (st : Server) : list Effect :=
  drop (length (wire st)) (wire (f st)).


Lemma output_id f st : f st = st → output f st = [].
Proof. intros H. unfold output. rewrite H. by rewrite drop_all. Qed.



Section RelayBinary.
Variable utf8_decode : list byte → string.

Lemma _relayBinaryMessage_deliver rev S B st members recipient :
  wsFallback (_conf st) = true →
  Peer.isValidUuid (toString_utf8 utf8_decode (slice 0 36 B)) = true →
  _rooms st !! binary_room utf8_decode st S B = Some members →
  alookup (toString_utf8 utf8_decode (slice 0 36 B)) members = Some recipient →
  Peer.readyState (deref st recipient) = 1 →
  _relayBinaryMessage utf8_decode rev S B st
  = emit (SocketSendBinary recipient (drop 101 B)) st.
Proof.
  intros Hfb Hvalid Hroom Hrec Hopen. unfold _relayBinaryMessage.
  rewrite Hfb, Hvalid, Hroom, Hrec. simpl. by rewrite bool_decide_true.
Qed.

(** C6.  An inbound binary frame [B] from the sender [S].  The recipient
    id is the text of bytes 0 to 35; the byte at offset 36 selects the
    room: the ip of [S] for 'i', the trimmed text of bytes 37 to 100 for
    's' (and for any other marker).  With [wsFallback] on, when the
    recipient id is UUID-shaped, the room exists, has a peer under that
    id and the socket of that peer is open, the only effect is one binary
    frame to that peer carrying the bytes of [B] from offset 101 on.  With
    [wsFallback] off, every binary frame leaves the state as it was. *)
Theorem binary_relay_routes rev o S B st :
  (slice 36 37 B = ["i"%byte] → binary_room utf8_decode st S B = Peer.ip (deref st S))
  ∧ (slice 36 37 B = ["s"%byte] →
     binary_room utf8_decode st S B = trim (toString_utf8 utf8_decode (slice 37 101 B)))
  ∧ (wsFallback (_conf st) = true →
     ∀ members recipient,
       Peer.isValidUuid (toString_utf8 utf8_decode (slice 0 36 B)) = true →
       _rooms st !! binary_room utf8_decode st S B = Some members →
       alookup (toString_utf8 utf8_decode (slice 0 36 B)) members = Some recipient →
       Peer.readyState (deref st recipient) = 1 →
       _onMessage utf8_decode rev o S (Binary B) st
       = Some (emits [SocketSendBinary recipient (drop 101 B)] st))
  ∧ (wsFallback (_conf st) = false →
     _onMessage utf8_decode rev o S (Binary B) st = Some st).
Proof.
  split; [|split; [|split]].
  - intros H. unfold binary_room. by rewrite H.
  - intros H. unfold binary_room. by rewrite H.
  - intros Hfb members recipient Hvalid Hroom Hrec Hopen. simpl.
    by rewrite (_relayBinaryMessage_deliver rev S B st members recipient).
  - intros Hfb. simpl. unfold _relayBinaryMessage. by rewrite Hfb.
Qed.

End RelayBinary.

(** ** Well-formed states

    Every handler is a sequence of a few elementary updates of the state.
    The structural invariants are proved once for those. *)

Inductive micro : Server → Server → Prop :=
| micro_emits es st : micro st (emits es st)
| micro_peer r f st : (∀ p, Peer.id (f p) = Peer.id p) → micro st (update_peer r f st)
| micro_directory f st : micro st (set_roomSecrets f st)
| micro_keepAlive f st : micro st (set_keepAliveTimers f st)
| micro_clear h st : micro st (clearTimeout h st)
| micro_schedule due peer st :
    (peer < length (heap st))%nat →
    micro st (set_timeouts (λ ts, ts ++ [Some (due, peer)]) st)
| micro_leave peerId roomId st : micro st (set_rooms (leave_rooms peerId roomId) st)
| micro_join peer roomId st :
    (peer < length (heap st))%nat →
    micro st (set_rooms (join_rooms (Peer.id (deref st peer)) peer roomId) st)
| micro_drop roomId st : micro st (set_rooms (delete roomId) st).

Definition steps : Server → Server → Prop := rtc micro.

Lemma steps_refl st : steps st st.
Proof. apply rtc_refl. Qed.

Lemma steps_trans st1 st2 st3 : steps st1 st2 → steps st2 st3 → steps st1 st3.
Proof. apply rtc_trans. Qed.

Lemma steps_once st st' : micro st st' → steps st st'.
Proof. apply rtc_once. Qed.

Lemma micro_length_heap st st' : micro st st' → length (heap st') = length (heap st).
Proof. destruct 1; proj; try done. by rewrite length_insert. Qed.

Lemma micro_id st st' r : micro st st' → Peer.id (deref st' r) = Peer.id (deref st r).
Proof.
  destruct 1; try done. rewrite deref_update_peer. case_decide as Hc; [|done].
  destruct Hc as [-> _]. auto.
Qed.

Lemma steps_length_heap st st' : steps st st' → length (heap st') = length (heap st).
Proof.
  induction 1 as [|st1 st2 st3 H _ IH]; [done|]. rewrite IH. by apply micro_length_heap.
Qed.

Lemma steps_id st st' r : steps st st' → Peer.id (deref st' r) = Peer.id (deref st r).
Proof.
  induction 1 as [|st1 st2 st3 H _ IH]; [done|]. rewrite IH. by apply micro_id.
Qed.

(** A room of the registry: not empty, one entry per id, and every entry
    is an existing peer filed under its own id. *)
Definition room_ok (st : Server) (room : list (string * ref)) : Prop :=
  room ≠ [] ∧ NoDup room.*1
  ∧ ∀ k r, (k, r) ∈ room → (r < length (heap st))%nat ∧ Peer.id (deref st r) = k.

Definition rooms_ok (st : Server) : Prop :=
  ∀ roomId room, _rooms st !! roomId = Some room → room_ok st room.

Definition timeouts_ok (st : Server) : Prop :=
  ∀ h due peer, timeouts st !! h = Some (Some (due, peer)) → (peer < length (heap st))%nat.

Definition wf (st : Server) : Prop := rooms_ok st ∧ timeouts_ok st.

Lemma adelete_keys {A} k (l : list (string * A)) :
  NoDup l.*1 → NoDup (adelete k l).*1 ∧ k ∉ (adelete k l).*1.
Proof.
  induction l as [|[k' v] t IH]; simpl.
  - intros _. split; [constructor|]. by intros ?%elem_of_nil.
  - intros [Hk' Ht]%NoDup_cons. destruct (IH Ht) as [IH1 IH2].
    destruct (decide (k = k')) as [->|Hne]; [done|]. simpl. split.
    + apply NoDup_cons. split; [|done]. intros Hin. apply Hk'.
      apply list_elem_of_fmap in Hin as ([k0 v0] & -> & Hin).
      apply elem_of_adelete in Hin as [_ Hin].
      apply list_elem_of_fmap. by exists (k0, v0).
    + intros [?|?]%elem_of_cons; [done|]. by apply IH2.
Qed.

Lemma ainsert_fresh {A} k (v : A) l : k ∉ l.*1 → ainsert k v l = l ++ [(k, v)].
Proof.
  induction l as [|[k' v'] t IH]; simpl; [done|].
  intros Hin. rewrite decide_False.
  - rewrite IH; [done|]. intros ?. apply Hin. by apply list_elem_of_further.
  - intros ->. apply Hin. apply list_elem_of_here.
Qed.

(** The room a join makes. *)
Lemma join_room_eq {A} k (v : A) l : NoDup l.*1 → ainsert k v (adelete k l) = adelete k l ++ [(k, v)].
Proof. intros H. apply ainsert_fresh. by apply adelete_keys. Qed.

Lemma room_ok_leave st peerId room :
  room_ok st room → adelete peerId room ≠ [] → room_ok st (adelete peerId room).
Proof.
  intros (_ & Hnd & Hm) Hne. split; [done|]. split.
  - by apply adelete_keys.
  - intros k r [_ Hin]%elem_of_adelete. by apply Hm.
Qed.

Lemma room_ok_join st peer room :
  (peer < length (heap st))%nat →
  (room = [] ∨ room_ok st room) →
  room_ok st (ainsert (Peer.id (deref st peer)) peer (adelete (Peer.id (deref st peer)) room)).
Proof.
  intros Hp Hroom. split; [apply ainsert_nonempty|].
  assert (Hnd : NoDup room.*1).
  { destruct Hroom as [->|(_ & H & _)]; [constructor|done]. }
  rewrite join_room_eq by done. split.
  - rewrite fmap_app. apply NoDup_app. split; [by apply adelete_keys|]. split.
    + intros x Hx [->|[]%elem_of_nil]%elem_of_cons.
      by apply (adelete_keys (Peer.id (deref st peer)) room Hnd).
    + simpl. apply NoDup_singleton.
  - intros k r [Hin|Hin]%elem_of_app.
    + apply elem_of_adelete in Hin as [_ Hin].
      destruct Hroom as [->|(_ & _ & Hm)]; [by apply elem_of_nil in Hin|]. by apply Hm.
    + apply list_elem_of_singleton in Hin as [= -> ->]. done.
Qed.

Lemma room_ok_micro st st' room : micro st st' → room_ok st room → room_ok st' room.
Proof.
  intros Hm (Hne & Hnd & Hk). split; [done|]. split; [done|].
  intros k r Hin. rewrite (micro_length_heap st st' Hm), (micro_id st st' r Hm). by apply Hk.
Qed.

Lemma rooms_ok_micro st st' : micro st st' → rooms_ok st → rooms_ok st'.
Proof.
  intros Hm Hok roomId room Hroom.
  apply (room_ok_micro st st' room Hm).
  assert (Hsame : _rooms st' = _rooms st → room_ok st room).
  { intros Heq. rewrite Heq in Hroom. by eapply Hok. }
  destruct Hm as [| | | | | |peerId R st|peer R st Hp|R st]; try (by apply Hsame).
  - (* leave *)
    proj. unfold leave_rooms in Hroom.
    destruct (_rooms st !! R) as [old|] eqn:Hold; [|by eapply Hok].
    destruct (alookup peerId old); [|by eapply Hok].
    destruct (adelete peerId old) as [|kv rest] eqn:Hdel.
    + apply lookup_delete_Some in Hroom as [_ Hroom]. by eapply Hok.
    + apply lookup_insert_Some in Hroom as [[_ <-]|[_ Hroom]]; [|by eapply Hok].
      rewrite <- Hdel. apply room_ok_leave; [by eapply Hok|]. by rewrite Hdel.
  - (* join *)
    proj. unfold join_rooms in Hroom.
    apply lookup_insert_Some in Hroom as [[_ <-]|[_ Hroom]]; [|by eapply Hok].
    apply room_ok_join; [done|].
    destruct (_rooms st !! R) as [old|] eqn:Hold; simpl; [right; by eapply Hok|by left].
  - (* drop *)
    proj. apply lookup_delete_Some in Hroom as [_ Hroom]. by eapply Hok.
Qed.

Lemma timeouts_ok_micro st st' : micro st st' → timeouts_ok st → timeouts_ok st'.
Proof.
  intros Hm Hok h due peer Hh. rewrite (micro_length_heap st st' Hm).
  destruct Hm as [| | | |h' st|due' peer' st Hp| | |]; try (by eapply Hok).
  - proj. destruct (decide (h = h')) as [->|Hne].
    + destruct (decide (h' < length (timeouts st))%nat).
      * by rewrite list_lookup_insert_eq in Hh.
      * rewrite list_insert_ge in Hh by lia. by eapply Hok.
    + rewrite list_lookup_insert_ne in Hh by done. by eapply Hok.
  - proj. apply lookup_app_Some in Hh as [Hh|[_ Hh]]; [by eapply Hok|].
    apply list_lookup_singleton_Some in Hh as [_ [= _ ->]]. done.
Qed.

Lemma wf_steps st st' : steps st st' → wf st → wf st'.
Proof.
  induction 1 as [|st1 st2 st3 H _ IH]; [done|]. intros [H1 H2]. apply IH.
  split; [by eapply rooms_ok_micro|by eapply timeouts_ok_micro].
Qed.

(** Every function of the class, but for the allocation of [_onConnection],
    is such a sequence.  The lemmas extend a sequence on the right, so that
    [eauto] composes them along the body of a handler; [st0] is where the
    peers were allocated. *)

Create HintDb steps.

Lemma ext_micro st0 st st' : micro st st' → steps st0 st → steps st0 st'.
Proof. intros H Hs. eapply rtc_r; done. Qed.

Lemma ext_emits es st0 st : steps st0 st → steps st0 (emits es st).
Proof. apply ext_micro. constructor. Qed.

Lemma ext_send rev p m st0 st : steps st0 st → steps st0 (_send rev p m st).
Proof.
  intros H. destruct p as [r|]; [|done]. rewrite _send_Some. by apply ext_emits.
Qed.

Lemma ext_update_peer r f st0 st :
  (∀ p, Peer.id (f p) = Peer.id p) → steps st0 st → steps st0 (update_peer r f st).
Proof. intros Hf. apply ext_micro. by constructor. Qed.

Lemma ext_set_roomSecrets f st0 st : steps st0 st → steps st0 (set_roomSecrets f st).
Proof. apply ext_micro. constructor. Qed.

Lemma ext_set_keepAliveTimers f st0 st : steps st0 st → steps st0 (set_keepAliveTimers f st).
Proof. apply ext_micro. constructor. Qed.

Lemma ext_clearTimeout h st0 st : steps st0 st → steps st0 (clearTimeout h st).
Proof. apply ext_micro. constructor. Qed.

Lemma ext_leaveRoom rev peer roomType roomId disconnect st0 st :
  steps st0 st → steps st0 (_leaveRoom rev peer roomType roomId disconnect st).
Proof.
  intros H. rewrite _leaveRoom_spec. apply ext_emits. eapply ext_micro; [|done]. constructor.
Qed.

Lemma ext_joinRoom rev peer roomType roomId st0 st :
  (peer < length (heap st0))%nat →
  steps st0 st → steps st0 (_joinRoom rev peer roomType roomId st).
Proof.
  intros Hp H. rewrite _joinRoom_spec. apply ext_emits. eapply ext_micro; [|done].
  constructor. by rewrite (steps_length_heap st0 st).
Qed.

#[export] Hint Resolve steps_refl ext_emits ext_send ext_set_roomSecrets
  ext_set_keepAliveTimers ext_clearTimeout ext_leaveRoom ext_joinRoom : steps.

Lemma id_set_pairKey k p : Peer.id (Peer.set_pairKey k p) = Peer.id p.
Proof. done. Qed.
Lemma id_set_publicRoomId k p : Peer.id (Peer.set_publicRoomId k p) = Peer.id p.
Proof. done. Qed.
Lemma id_set_readyState z p : Peer.id (Peer.set_readyState z p) = Peer.id p.
Proof. done. Qed.
Lemma id_addRoomSecret s p : Peer.id (Peer.addRoomSecret s p) = Peer.id p.
Proof. unfold Peer.addRoomSecret. by case_decide. Qed.
Lemma id_removeRoomSecret s p : Peer.id (Peer.removeRoomSecret s p) = Peer.id p.
Proof. done. Qed.

Lemma ext_set_pairKey r k st0 st :
  steps st0 st → steps st0 (update_peer r (Peer.set_pairKey k) st).
Proof. by apply ext_update_peer. Qed.
Lemma ext_set_publicRoomId r k st0 st :
  steps st0 st → steps st0 (update_peer r (Peer.set_publicRoomId k) st).
Proof. by apply ext_update_peer. Qed.
Lemma ext_addRoomSecret r s st0 st :
  steps st0 st → steps st0 (update_peer r (Peer.addRoomSecret s) st).
Proof. apply ext_update_peer. apply id_addRoomSecret. Qed.
Lemma ext_removeRoomSecret r s st0 st :
  steps st0 st → steps st0 (update_peer r (Peer.removeRoomSecret s) st).
Proof. by apply ext_update_peer. Qed.

#[export] Hint Resolve ext_set_pairKey ext_set_publicRoomId ext_addRoomSecret
  ext_removeRoomSecret : steps.

Ltac step_cases := repeat (case_match; try done); eauto 20 with steps.

Lemma ext_joinIpRoom rev peer st0 st :
  (peer < length (heap st0))%nat → steps st0 st → steps st0 (_joinIpRoom rev peer st).
Proof. unfold _joinIpRoom. step_cases. Qed.

Lemma ext_joinSecretRoom rev peer roomSecret st0 st :
  (peer < length (heap st0))%nat → steps st0 st → steps st0 (_joinSecretRoom rev peer roomSecret st).
Proof. unfold _joinSecretRoom. step_cases. Qed.

Lemma ext_leaveIpRoom rev peer disconnect st0 st :
  steps st0 st → steps st0 (_leaveIpRoom rev peer disconnect st).
Proof. unfold _leaveIpRoom. step_cases. Qed.

Lemma ext_leaveSecretRoom rev peer roomSecret disconnect st0 st :
  steps st0 st → steps st0 (_leaveSecretRoom rev peer roomSecret disconnect st).
Proof. unfold _leaveSecretRoom. step_cases. Qed.

Lemma ext_leavePublicRoom rev peer disconnect st0 st :
  steps st0 st → steps st0 (_leavePublicRoom rev peer disconnect st).
Proof. unfold _leavePublicRoom. intros. step_cases. Qed.

#[export] Hint Resolve ext_joinIpRoom ext_joinSecretRoom ext_leaveIpRoom ext_leaveSecretRoom
  ext_leavePublicRoom : steps.

Lemma ext_joinPublicRoom rev peer publicRoomId st0 st :
  (peer < length (heap st0))%nat →
  steps st0 st → steps st0 (_joinPublicRoom rev peer publicRoomId st).
Proof. unfold _joinPublicRoom. step_cases. Qed.

Lemma ext_foldl {A} (f : Server → A → Server) l st0 st :
  (∀ s x, x ∈ l → steps st0 s → steps st0 (f s x)) →
  steps st0 st → steps st0 (foldl f st l).
Proof.
  revert st. induction l as [|x l IH]; intros st Hf Hst; simpl; [done|].
  apply IH.
  - intros s y Hy. apply Hf. by apply list_elem_of_further.
  - apply Hf; [apply list_elem_of_here|done].
Qed.

Lemma ext_joinSecretRooms rev peer roomSecrets st0 st :
  (peer < length (heap st0))%nat →
  steps st0 st → steps st0 (_joinSecretRooms rev peer roomSecrets st).
Proof. intros Hp. unfold _joinSecretRooms. apply ext_foldl. intros. step_cases. Qed.

Lemma ext_leaveAllSecretRooms_loop rev peer disconnect fuel i st0 st :
  steps st0 st → steps st0 (_leaveAllSecretRooms_loop rev peer disconnect fuel i st).
Proof.
  revert i st. induction fuel as [|fuel IH]; intros i st H; simpl; [done|].
  case_match; [|done]. apply IH. step_cases.
Qed.

Lemma ext_leaveAllSecretRooms rev peer disconnect st0 st :
  steps st0 st → steps st0 (_leaveAllSecretRooms rev peer disconnect st).
Proof. apply ext_leaveAllSecretRooms_loop. Qed.

Lemma ext_removePairKey k st0 st : steps st0 st → steps st0 (_removePairKey k st).
Proof. unfold _removePairKey. intros. step_cases. Qed.

Lemma ext_cancelKeepAlive peer st0 st : steps st0 st → steps st0 (_cancelKeepAlive peer st).
Proof. unfold _cancelKeepAlive. intros. step_cases. Qed.

Lemma ext_terminate peer st0 st : steps st0 st → steps st0 (terminate peer st).
Proof.
  intros H. unfold terminate, emit. apply ext_emits. apply ext_update_peer; [|done].
  intros p. by case_bool_decide.
Qed.

#[export] Hint Resolve ext_joinPublicRoom ext_joinSecretRooms ext_leaveAllSecretRooms
  ext_removePairKey ext_cancelKeepAlive ext_terminate : steps.

Lemma ext_disconnect rev sender st0 st : steps st0 st → steps st0 (_disconnect rev sender st).
Proof. unfold _disconnect. intros. step_cases. Qed.

#[export] Hint Resolve ext_disconnect : steps.

Lemma ext_keepAlive rev now peer st0 st :
  (peer < length (heap st0))%nat → steps st0 st → steps st0 (_keepAlive rev now peer st).
Proof.
  intros Hp H. unfold _keepAlive.
  set (st1 := _cancelKeepAlive peer st).
  assert (H1 : steps st0 st1) by (subst st1; eauto with steps).
  set (st2 := match _keepAliveTimers st1 !! _ with None => _ | Some _ => st1 end).
  assert (H2 : steps st0 st2) by (subst st2; step_cases).
  case_bool_decide; [eauto with steps|].
  apply ext_set_keepAliveTimers.
  apply (ext_micro _ (_send rev (Some peer) MsgPing st2)); [|eauto with steps].
  constructor. rewrite (steps_length_heap st0); [done|]. eauto with steps.
Qed.

Lemma ext_setKeepAliveTimerToNow now peer st0 st :
  steps st0 st → steps st0 (_setKeepAliveTimerToNow now peer st).
Proof. unfold _setKeepAliveTimerToNow. intros. step_cases. Qed.

Lemma ext_onRoomSecrets rev sender l st0 st :
  (sender < length (heap st0))%nat → steps st0 st → steps st0 (_onRoomSecrets rev sender l st).
Proof. unfold _onRoomSecrets. intros. step_cases. Qed.

Lemma ext_deleteSecretRoom rev roomSecret st0 st :
  steps st0 st → steps st0 (_deleteSecretRoom rev roomSecret st).
Proof.
  unfold _deleteSecretRoom. intros H. case_match; [|done].
  apply ext_foldl; [|done]. intros s [k o] _ Hs. step_cases.
Qed.

#[export] Hint Resolve ext_keepAlive ext_setKeepAliveTimerToNow ext_onRoomSecrets
  ext_deleteSecretRoom : steps.

Lemma ext_onRoomSecretsDeleted rev sender l st0 st :
  steps st0 st → steps st0 (_onRoomSecretsDeleted rev sender l st).
Proof. unfold _onRoomSecretsDeleted. apply ext_foldl. intros. step_cases. Qed.

Lemma _createPairKey_steps creator roomSecret draws st pairKey st' :
  _createPairKey creator roomSecret draws st = Some (pairKey, st') →
  ∃ f, st' = set_roomSecrets f st.
Proof.
  induction draws as [|n draws IH]; simpl; [done|].
  case_match; [done|]. intros [= <- <-]. eauto.
Qed.

Lemma ext_onPairDeviceInitiate rev sender roomSecret draws st0 st st' :
  (sender < length (heap st0))%nat →
  _onPairDeviceInitiate rev sender roomSecret draws st = Some st' →
  steps st0 st → steps st0 st'.
Proof.
  unfold _onPairDeviceInitiate. intros Hp Hi H.
  destruct (_createPairKey sender roomSecret draws st) as [[pairKey st1]|] eqn:Hc; [|done].
  apply _createPairKey_steps in Hc as [f ->]. injection Hi as <-. step_cases.
Qed.

Lemma ext_onPairDeviceJoin rev sender limited pairKey st0 st :
  (sender < length (heap st0))%nat →
  steps st0 st → steps st0 (_onPairDeviceJoin rev sender limited pairKey st).
Proof. unfold _onPairDeviceJoin. intros. step_cases. Qed.

Lemma ext_onPairDeviceCancel rev sender st0 st :
  steps st0 st → steps st0 (_onPairDeviceCancel rev sender st).
Proof. unfold _onPairDeviceCancel. intros. step_cases. Qed.

Lemma ext_onCreatePublicRoom rev sender publicRoomId st0 st :
  (sender < length (heap st0))%nat →
  steps st0 st → steps st0 (_onCreatePublicRoom rev sender publicRoomId st).
Proof. unfold _onCreatePublicRoom. intros. step_cases. Qed.

Lemma ext_onJoinPublicRoom rev sender limited publicRoomId createIfInvalid st0 st :
  (sender < length (heap st0))%nat →
  steps st0 st →
  steps st0 (_onJoinPublicRoom rev sender limited publicRoomId createIfInvalid st).
Proof. unfold _onJoinPublicRoom. intros. step_cases. Qed.

Lemma ext_onLeavePublicRoom rev sender st0 st :
  steps st0 st → steps st0 (_onLeavePublicRoom rev sender st).
Proof. unfold _onLeavePublicRoom. intros. step_cases. Qed.

Lemma ext_onRegenerateRoomSecret rev sender old new st0 st :
  steps st0 st → steps st0 (_onRegenerateRoomSecret rev sender old new st).
Proof.
  unfold _onRegenerateRoomSecret. intros H. eapply ext_micro; [constructor|].
  apply ext_foldl; [|done]. intros s [k o] _ Hs. step_cases.
Qed.

Lemma ext_signalAndRelay rev sender message st0 st :
  steps st0 st → steps st0 (_signalAndRelay rev sender message st).
Proof. unfold _signalAndRelay. intros. step_cases. Qed.

#[export] Hint Resolve ext_onRoomSecretsDeleted ext_onPairDeviceJoin ext_onPairDeviceCancel
  ext_onCreatePublicRoom ext_onJoinPublicRoom ext_onLeavePublicRoom
  ext_onRegenerateRoomSecret ext_signalAndRelay : steps.

Lemma deref_alloc p st r :
  (r < length (heap st))%nat → deref (set_heap (λ h, h ++ [p]) st) r = deref st r.
Proof. intros H. unfold deref. proj. by rewrite lookup_total_app_l. Qed.

Lemma wf_alloc p st : wf st → wf (set_heap (λ h, h ++ [p]) st).
Proof.
  intros [Hr Ht]. split.
  - intros roomId room Hroom. destruct (Hr roomId room Hroom) as (Hne & Hnd & Hk).
    split; [done|]. split; [done|]. intros k r Hin. destruct (Hk k r Hin) as [Hlt Hid].
    proj. rewrite length_app. split; [lia|]. by rewrite deref_alloc.
  - intros h due peer Hh. proj. rewrite length_app. specialize (Ht h due peer Hh). lia.
Qed.

Lemma wf_init conf wss : wf (init conf wss).
Proof. split; [intros roomId room H|intros h due peer H]; by simpl in H. Qed.

Section Reachable.
Variable utf8_decode : list byte → string.

Lemma ext_relayBinaryMessage rev sender data st0 st :
  steps st0 st → steps st0 (_relayBinaryMessage utf8_decode rev sender data st).
Proof. unfold _relayBinaryMessage, emit. intros. step_cases. Qed.

Lemma _onMessage_steps rev o sender frame st st' :
  (sender < length (heap st))%nat →
  _onMessage utf8_decode rev o sender frame st = Some st' →
  steps st st'.
Proof.
  intros Hp. destruct frame as [data| |[]]; simpl;
    try (intros [= <-]; eauto using ext_relayBinaryMessage with steps).
  - intros H. eapply ext_onPairDeviceInitiate; eauto with steps.
  - repeat case_match; intros [= <-]; eauto with steps.
Qed.

Lemma _onConnection_wf rev now id ip name rtc hash st :
  wf st → wf (_onConnection rev now id ip name rtc hash st).
Proof.
  intros H. unfold _onConnection.
  eapply wf_steps; [|apply (wf_alloc (Peer.new id ip name rtc)), H].
  do 2 apply ext_send. apply ext_keepAlive; [|apply steps_refl].
  proj. rewrite length_app. simpl. lia.
Qed.

Lemma step_wf rev o i st st' : step utf8_decode rev o i st = Some st' → wf st → wf st'.
Proof.
  destruct i as [id ip name rtc hash|sender frame|h|peer|peer]; unfold step; cbv beta iota.
  - intros [= <-]. apply _onConnection_wf.
  - case_bool_decide; [|done]. intros Hm. apply wf_steps. by eapply _onMessage_steps.
  - destruct (timeouts st !! h) as [[[due peer]|]|] eqn:Hh; try done.
    case_bool_decide; [|done]. intros [= <-] Hwf. eapply wf_steps; [|done].
    apply ext_keepAlive; [by eapply (proj2 Hwf)|]. eauto with steps.
  - case_bool_decide; [|done]. intros [= <-]. apply wf_steps.
    apply ext_update_peer; [|apply steps_refl]. intros p. by case_bool_decide.
  - case_bool_decide; [|done].
    assert (Hs : steps st (update_peer peer (Peer.set_readyState 3) st)).
    { apply ext_update_peer; [done|apply steps_refl]. }
    destruct rev; intros Heq%(inj Some); subst st'; apply wf_steps; [done|].
    unfold _onDisconnect. by apply ext_disconnect.
Qed.

(** Every state the server can reach is well formed. *)
Lemma reachable_wf rev conf wss st : reachable utf8_decode rev conf wss st → wf st.
Proof.
  induction 1 as [|st o i st' _ IH Hstep]; [apply wf_init|]. by eapply step_wf.
Qed.
End Reachable.

(** ** Join and leave events *)













Section NoEmptyRoom.
Variable utf8_decode : list byte → string.

(** C9.  In every state the server reaches, no room id of the registry
    maps to an empty mapping; and when the only member of a room leaves,
    [_leaveRoom] deletes the entry of the room and does nothing else: the
    room is gone and nothing is written, no [peer-left] in particular. *)
Theorem no_empty_room rev conf wss st :
  reachable utf8_decode rev conf wss st →
  (∀ roomId room, _rooms st !! roomId = Some room → room ≠ [])
  ∧ (∀ P roomType roomId disconnect room,
       _rooms st !! roomId = Some room →
       is_Some (alookup (Peer.id (deref st P)) room) →
       adelete (Peer.id (deref st P)) room = [] →
       let st' := _leaveRoom rev P roomType roomId disconnect st in
       st' = set_rooms (delete roomId) st
       ∧ _rooms st' !! roomId = None
       ∧ wire st' = wire st).
Proof.
  intros Hreach. split.
  - intros roomId room Hroom. apply reachable_wf in Hreach as [Hok _].
    by destruct (Hok roomId room Hroom).
  - intros P roomType roomId disconnect room Hroom [x Hx] Hdel st'.
    assert (Hst' : st' = set_rooms (delete roomId) st).
    { subst st'. unfold _leaveRoom. by rewrite Hroom, Hx, Hdel. }
    rewrite Hst'. proj. by rewrite lookup_delete_eq.
Qed.
End NoEmptyRoom.

(** ** Keep-alive *)

(** The room functions and [terminate] leave the keep-alive table alone. *)
Lemma ka_leaveRoom rev peer roomType roomId disconnect st :
  _keepAliveTimers (_leaveRoom rev peer roomType roomId disconnect st) = _keepAliveTimers st.
Proof. by rewrite _leaveRoom_spec. Qed.

Lemma ka_leaveSecretRoom rev peer roomSecret disconnect st :
  _keepAliveTimers (_leaveSecretRoom rev peer roomSecret disconnect st) = _keepAliveTimers st.
Proof. unfold _leaveSecretRoom. proj. apply ka_leaveRoom. Qed.

Lemma ka_leaveAllSecretRooms rev peer disconnect st :
  _keepAliveTimers (_leaveAllSecretRooms rev peer disconnect st) = _keepAliveTimers st.
Proof.
  unfold _leaveAllSecretRooms. generalize (length (Peer.roomSecrets (deref st peer))) 0%nat.
  intros fuel. revert st. induction fuel as [|fuel IH]; intros st i; simpl; [done|].
  case_match; [|done]. by rewrite IH, ka_leaveSecretRoom.
Qed.

Lemma ka_leavePublicRoom rev peer disconnect st :
  _keepAliveTimers (_leavePublicRoom rev peer disconnect st) = _keepAliveTimers st.
Proof. unfold _leavePublicRoom. repeat case_match; try done. proj. apply ka_leaveRoom. Qed.

Lemma ka_removePairKey k st : _keepAliveTimers (_removePairKey k st) = _keepAliveTimers st.
Proof. unfold _removePairKey. by case_match. Qed.

Lemma id_removePairKey k st r : Peer.id (deref (_removePairKey k st) r) = Peer.id (deref st r).
Proof. apply _removePairKey_same_view. Qed.

Lemma id_cancelKeepAlive peer st r : deref (_cancelKeepAlive peer st) r = deref st r.
Proof. unfold _cancelKeepAlive. by repeat case_match. Qed.

(** [_disconnect] drops the keep-alive record of the peer. *)
Lemma _disconnect_drops_record rev peer st :
  _keepAliveTimers (_disconnect rev peer st) !! Peer.id (deref st peer) = None.
Proof.
  unfold _disconnect.
  set (st1 := update_peer peer _ (_removePairKey _ st)).
  assert (Hid : Peer.id (deref (_cancelKeepAlive peer st1) peer) = Peer.id (deref st peer)).
  { rewrite id_cancelKeepAlive. subst st1. rewrite deref_update_peer.
    case_decide; simpl; apply id_removePairKey. }
  rewrite Hid.
  set (st2 := set_keepAliveTimers _ _).
  assert (H2 : _keepAliveTimers st2 !! Peer.id (deref st peer) = None).
  { subst st2. proj. apply lookup_delete_eq. }
  assert (H3 : _keepAliveTimers
                 (_leavePublicRoom rev peer true
                    (_leaveAllSecretRooms rev peer true (_leaveIpRoom rev peer true st2)))
               = _keepAliveTimers st2).
  { rewrite ka_leavePublicRoom, ka_leaveAllSecretRooms. apply ka_leaveRoom. }
  destruct rev; [|case_bool_decide]; unfold terminate; proj; by rewrite H3.
Qed.

(** The test of [_keepAlive]: the last beat is older than the factor of
    the revision times the period. *)
Definition beat_expired (rev : revision) (now lastBeat : Z) : bool :=
  bool_decide (now - lastBeat > beat_factor rev * timeout).

Lemma _keepAlive_tick rev now P r st :
  _keepAliveTimers st !! Peer.id (deref st P) = Some r →
  _keepAlive rev now P st
  = if beat_expired rev now (lastBeat r) then _disconnect rev P (_cancelKeepAlive P st)
    else
      set_keepAliveTimers
        (alter (λ r, {| timer := Some (length (timeouts (_cancelKeepAlive P st)));
                        lastBeat := lastBeat r |}) (Peer.id (deref st P)))
        (set_timeouts (λ ts, ts ++ [Some (now + timeout, P)])
           (_send rev (Some P) MsgPing (_cancelKeepAlive P st))).
Proof.
  intros Hr. unfold _keepAlive, beat_expired.
  assert (Hka : _keepAliveTimers (_cancelKeepAlive P st) = _keepAliveTimers st).
  { unfold _cancelKeepAlive. by repeat case_match. }
  rewrite id_cancelKeepAlive, Hka, Hr. cbv zeta. rewrite Hka, Hr.
  change (default now (lastBeat <$> Some r)) with (lastBeat r).
  case_bool_decide; [done|]. by rewrite _send_Some.
Qed.

(** The ticks of the keep-alive of [peerId], each run at the time its timer
    is due, up to the tick that drops the record: the time of that tick. *)
Fixpoint keepAlive_chain (rev : revision) (fuel : nat) (peerId : string) (st : Server)
    : option Z :=
  match fuel with
  | O => None
  | S fuel' =>
    match _keepAliveTimers st !! peerId with
    | Some {| timer := Some h |} =>
      match timeouts st !! h with
      | Some (Some (due, peer)) =>
        let st' := _keepAlive rev due peer (clearTimeout h st) in
        match _keepAliveTimers st' !! peerId with
        | None => Some due
        | Some _ => keepAlive_chain rev fuel' peerId st'
        end
      | _ => None
      end
    | _ => None
    end
  end.

(** A pending tick of the peer [P], due at [T], with the last beat at [t0]. *)
Definition ticking (P : ref) (t0 T : Z) (st : Server) : Prop :=
  ∃ h, _keepAliveTimers st !! Peer.id (deref st P) = Some {| timer := Some h; lastBeat := t0 |}
       ∧ timeouts st !! h = Some (Some (T, P)).

Lemma ticking_tick rev P t0 T h st :
  _keepAliveTimers st !! Peer.id (deref st P) = Some {| timer := Some h; lastBeat := t0 |} →
  timeouts st !! h = Some (Some (T, P)) →
  let st' := _keepAlive rev T P (clearTimeout h st) in
  Peer.id (deref st' P) = Peer.id (deref st P)
  ∧ if beat_expired rev T t0 then _keepAliveTimers st' !! Peer.id (deref st P) = None
    else ticking P t0 (T + timeout) st'.
Proof.
  intros Hr Hh st'. subst st'.
  rewrite (_keepAlive_tick rev T P {| timer := Some h; lastBeat := t0 |}) by done.
  change (lastBeat {| timer := Some h; lastBeat := t0 |}) with t0.
  destruct (beat_expired rev T t0).
  - split; [apply steps_id; eauto with steps|].
    pose proof (_disconnect_drops_record rev P (_cancelKeepAlive P (clearTimeout h st))) as Hd.
    by rewrite id_cancelKeepAlive in Hd.
  - set (st1 := _cancelKeepAlive P (clearTimeout h st)).
    rewrite _send_Some.
    assert (Hd : ∀ f g es, deref (set_keepAliveTimers f (set_timeouts g (emits es st1))) P
                           = deref st P).
    { intros f g es. subst st1.
      change (deref (set_keepAliveTimers f (set_timeouts g (emits es ?s))) P) with (deref s P).
      by rewrite id_cancelKeepAlive. }
    rewrite Hd. split; [done|].
    unfold ticking. exists (length (timeouts st1)). rewrite Hd. split.
    + proj. rewrite lookup_alter_eq.
      assert (Hka : _keepAliveTimers st1 = _keepAliveTimers st).
      { subst st1. unfold _cancelKeepAlive. by repeat case_match. }
      change (deref (clearTimeout h st) P) with (deref st P).
      by rewrite Hka, Hr.
    + proj. rewrite lookup_app_r by done. by rewrite Nat.sub_diag.
Qed.

Lemma keepAlive_chain_ends rev P t0 n :
  ∀ T st,
    ticking P t0 T st →
    beat_factor rev * timeout < T + Z.of_nat n * timeout - t0 →
    ∃ t, keepAlive_chain rev (S n) (Peer.id (deref st P)) st = Some t
         ∧ beat_factor rev * timeout < t - t0
         ∧ (t = T ∨ t - timeout - t0 ≤ beat_factor rev * timeout).
Proof.
  induction n as [|n IH]; intros T st (h & Hr & Hh) Hn.
  - destruct (ticking_tick rev P t0 T h st Hr Hh) as [Hid Hx].
    assert (He : beat_expired rev T t0 = true) by (apply bool_decide_eq_true; lia).
    rewrite He in Hx. exists T. simpl. rewrite Hr, Hh, Hx. split; [done|]. split; [lia|by left].
  - destruct (ticking_tick rev P t0 T h st Hr Hh) as [Hid Hx].
    destruct (beat_expired rev T t0) eqn:He.
    + exists T. simpl. rewrite Hr, Hh, Hx. apply bool_decide_eq_true in He.
      split; [done|]. split; [lia|by left].
    + apply bool_decide_eq_false in He.
      destruct (IH (T + timeout) _ Hx) as (t & Ht & Hlow & Hup); [lia|].
      exists t. rewrite Hid in Ht.
      change (keepAlive_chain rev (S (S n)) (Peer.id (deref st P)) st)
        with (match _keepAliveTimers st !! Peer.id (deref st P) with
              | Some {| timer := Some h |} =>
                match timeouts st !! h with
                | Some (Some (due, peer)) =>
                  let st' := _keepAlive rev due peer (clearTimeout h st) in
                  match _keepAliveTimers st' !! Peer.id (deref st P) with
                  | None => Some due
                  | Some _ => keepAlive_chain rev (S n) (Peer.id (deref st P)) st'
                  end
                | _ => None
                end
              | _ => None
              end).
      rewrite Hr, Hh. cbv zeta. destruct Hx as (h' & Hr' & _).
      rewrite Hid in Hr'. rewrite Hr'. split; [done|]. split; [done|]. right. lia.
Qed.

Lemma length_timeouts_cancelKeepAlive P st :
  length (timeouts (_cancelKeepAlive P st)) = length (timeouts st).
Proof.
  unfold _cancelKeepAlive. repeat case_match; try done. proj. by rewrite length_insert.
Qed.

(** C4, as the code has it.  The period is 2000 ms and the factor is 2 in
    the first revision of [_keepAlive], 3 in the second.  A tick at time
    [now] of a peer with a keep-alive record: when [now - lastBeat] exceeds
    the factor times the period it is the disconnect of the peer and
    nothing is scheduled; otherwise it hands a [ping] for the peer to
    [_send], schedules the next tick one period later and keeps the last
    beat.  A [pong] sets the last beat (one that is not 0) to the time of
    its arrival.  And for a peer that never pongs again, whose last beat is
    [t0] and whose pending tick is due within a period of it, the ticks,
    each run when due, end in the disconnect at a time [t] with
    [factor * period < t - t0 <= (factor + 1) * period]: within three
    periods in the first revision, four in the second. *)
Theorem keep_alive_supervision rev :
  timeout = 2000 ∧ beat_factor Rev1 = 2 ∧ beat_factor Rev2 = 3
  ∧ (∀ now P r st,
       _keepAliveTimers st !! Peer.id (deref st P) = Some r →
       let st' := _keepAlive rev now P st in
       (now - lastBeat r > beat_factor rev * timeout →
        st' = _disconnect rev P (_cancelKeepAlive P st)
        ∧ _keepAliveTimers st' !! Peer.id (deref st P) = None)
       ∧ (now - lastBeat r ≤ beat_factor rev * timeout →
          wire st' = wire st ++ send_out rev st P MsgPing
          ∧ timeouts st' = timeouts (_cancelKeepAlive P st) ++ [Some (now + timeout, P)]
          ∧ _keepAliveTimers st' !! Peer.id (deref st P)
            = Some {| timer := Some (length (timeouts st)); lastBeat := lastBeat r |}))
  ∧ (∀ now P r st,
       _keepAliveTimers st !! Peer.id (deref st P) = Some r →
       lastBeat r ≠ 0 →
       _keepAliveTimers (_setKeepAliveTimerToNow now P st) !! Peer.id (deref st P)
       = Some {| timer := timer r; lastBeat := now |})
  ∧ (∀ P t0 T st,
       ticking P t0 T st →
       t0 ≤ T ≤ t0 + timeout →
       ∃ t, keepAlive_chain rev (S (Z.to_nat (beat_factor rev + 1))) (Peer.id (deref st P)) st
            = Some t
            ∧ beat_factor rev * timeout < t - t0 ≤ (beat_factor rev + 1) * timeout).
Proof.
  split; [done|]. split; [done|]. split; [done|]. split; [|split].
  - intros now P r st Hr st'. subst st'.
    rewrite (_keepAlive_tick rev now P r st Hr). unfold beat_expired. split.
    + intros Hgt. rewrite bool_decide_true by done. split; [done|].
      pose proof (_disconnect_drops_record rev P (_cancelKeepAlive P st)) as Hd.
      by rewrite id_cancelKeepAlive in Hd.
    + intros Hle. rewrite bool_decide_false by lia.
      rewrite _send_Some. proj. rewrite lookup_alter_eq.
      assert (Hc : ∃ f, _cancelKeepAlive P st = set_timeouts f st).
      { unfold _cancelKeepAlive.
        destruct (_keepAliveTimers st !! Peer.id (deref st P)) as [[[h|] b]|];
          [by exists (λ ts, <[h:=None]> ts)|exists (λ ts, ts); by destruct st..]. }
      rewrite length_timeouts_cancelKeepAlive. destruct Hc as [f ->]. proj.
      by rewrite Hr.
  - intros now P r st Hr Hbeat. unfold _setKeepAliveTimerToNow. cbv zeta.
    rewrite Hr. rewrite bool_decide_true by done. proj. apply lookup_insert_eq.
  - intros P t0 T st Htick [HT1 HT2].
    destruct (keepAlive_chain_ends rev P t0 (Z.to_nat (beat_factor rev + 1)) T st Htick)
      as (t & Ht & Hlow & Hup).
    + rewrite Z2Nat.id by (destruct rev; simpl; lia). unfold timeout.
      destruct rev; simpl; lia.
    + exists t. split; [done|]. unfold timeout in *. destruct rev; simpl in *; lia.
Qed.

(** * Scenarios

    Two peers, alice (the first [Peer] object) and bob (the second), connect
    from the same address to a server with [wsFallback] on. *)

Definition ex_conf : Conf := {| wsFallback := true; rtcConfig := "{}" |}.
Definition ex_wss : Wss := {| wss_readyState := None; wss_OPEN := None |}.
Definition ex_decode (data : list byte) : string := String.string_of_list_byte data.
Definition alice : string := "aaaaaaaa-aaaa-aaaa-aaaa-aaaaaaaaaaa1".
Definition bob : string := "bbbbbbbb-bbbb-bbbb-bbbb-bbbbbbbbbbb1".
Definition ex_ip : string := "10.0.0.1".
Definition ex_name (n : string) : Name := {| displayName := n; deviceName := "Firefox" |}.

Definition ex_oracle (t : Z) : Oracle :=
  {| now := t; rateLimitReached := false;
     randomString256 := "secret"; randomString5 := "abcde"; randomInts := [1000042%N] |}.

(** alice has connected at time 1000. *)
Definition ex_alone (rev : revision) : Server :=
  _onConnection rev 1000 alice ex_ip (ex_name "alice") true "hash-a" (init ex_conf ex_wss).

(** bob has connected too. *)
Definition ex_connected (rev : revision) : Server :=
  _onConnection rev 1000 bob ex_ip (ex_name "bob") true "hash-b" (ex_alone rev).

(** alice has joined the room of the address, alone. *)
Definition ex_alice_in_room (rev : revision) : Server := _joinIpRoom rev 0%nat (ex_alone rev).

(** bob is in the room of the address, alice is not. *)
Definition ex_bob_in_room (rev : revision) : Server :=
  _joinIpRoom rev 1%nat (ex_connected rev).

(** alice has started a pairing and holds the key "000042". *)
Definition ex_pairing (rev : revision) : option Server :=
  _onPairDeviceInitiate rev 0%nat "secret" [1000042%N] (ex_connected rev).

Lemma reachable_connection utf8 rev conf wss st t id ip name rtc hash :
  reachable utf8 rev conf wss st →
  reachable utf8 rev conf wss (_onConnection rev t id ip name rtc hash st).
Proof. intros H. by apply (reachable_step utf8 rev conf wss st (ex_oracle t) (Connection id ip name rtc hash)). Qed.

Lemma reachable_received utf8 rev conf wss st o sender frame st' :
  reachable utf8 rev conf wss st →
  (sender < length (heap st))%nat →
  _onMessage utf8 rev o sender frame st = Some st' →
  reachable utf8 rev conf wss st'.
Proof.
  intros H Hs Hm. apply (reachable_step utf8 rev conf wss st o (Received sender frame)); [done|].
  unfold step. by rewrite bool_decide_true.
Qed.

Lemma ex_alone_reachable rev : reachable ex_decode rev ex_conf ex_wss (ex_alone rev).
Proof. apply reachable_connection, reachable_init. Qed.

Lemma ex_connected_reachable rev : reachable ex_decode rev ex_conf ex_wss (ex_connected rev).
Proof. apply reachable_connection, ex_alone_reachable. Qed.

Lemma ex_alice_in_room_reachable rev :
  reachable ex_decode rev ex_conf ex_wss (ex_alice_in_room rev).
Proof.
  apply (reachable_received ex_decode rev ex_conf ex_wss (ex_alone rev) (ex_oracle 1001) 0%nat
           (Text JoinIpRoom)); [apply ex_alone_reachable| |done].
  destruct rev; vm_compute; lia.
Qed.

Lemma ex_bob_in_room_reachable rev :
  reachable ex_decode rev ex_conf ex_wss (ex_bob_in_room rev).
Proof.
  apply (reachable_received ex_decode rev ex_conf ex_wss (ex_connected rev) (ex_oracle 1001)
           1%nat (Text JoinIpRoom)); [apply ex_connected_reachable| |done].
  destruct rev; vm_compute; lia.
Qed.

Definition ex_pairing_state (rev : revision) : Server :=
  default (ex_connected rev) (ex_pairing rev).

Definition ex_entry : PairEntry := {| roomSecret := "secret"; creator := 0%nat |}.

Lemma pair_device_join_pairs_witness :
  ((1 < length (heap (ex_pairing_state Rev2)))%nat
   ∧ _roomSecrets (ex_pairing_state Rev2) !! "000042" = Some ex_entry
   ∧ Peer.id (deref (ex_pairing_state Rev2) 1%nat)
     ≠ Peer.id (deref (ex_pairing_state Rev2) (creator ex_entry)))
  ∧ _roomSecrets (_onPairDeviceJoin Rev2 1%nat false "000042" (ex_pairing_state Rev2))
      !! "000042" = None
  ∧ "secret" ∈ Peer.roomSecrets
      (deref (_onPairDeviceJoin Rev2 1%nat false "000042" (ex_pairing_state Rev2)) 1%nat).
Proof.
  assert (H1 : (1 < length (heap (ex_pairing_state Rev2)))%nat) by (vm_compute; lia).
  assert (H2 : _roomSecrets (ex_pairing_state Rev2) !! "000042" = Some ex_entry)
    by (vm_compute; reflexivity).
  assert (H3 : Peer.id (deref (ex_pairing_state Rev2) 1%nat)
               ≠ Peer.id (deref (ex_pairing_state Rev2) (creator ex_entry)))
    by (vm_compute; discriminate).
  split; [exact (conj H1 (conj H2 H3))|].
  destruct (pair_device_join_pairs Rev2 1%nat "000042" ex_entry (ex_pairing_state Rev2)
              H1 H2 H3) as (Ha & _ & _ & Hd).
  split; [exact Ha|exact Hd].
Defined.





(** C4 as stated fails on the second revision: alice connects at time 1000
    and never pongs.  The tick that finds the last beat 6000 ms old, more
    than twice the period, sends a ping and leaves the record in place; run
    when due, the ticks disconnect her at 9000, four periods after the last
    beat. *)
Lemma keep_alive_counterexample :
  _keepAliveTimers (ex_alone Rev2) !! alice = Some {| timer := Some 0%nat; lastBeat := 1000 |}
  ∧ 7000 - 1000 > 2 * timeout
  ∧ output (_keepAlive Rev2 7000 0%nat) (ex_alone Rev2) = [SocketSend 0%nat MsgPing]
  ∧ (lastBeat <$> _keepAliveTimers (_keepAlive Rev2 7000 0%nat (ex_alone Rev2)) !! alice)
    = Some 1000
  ∧ keepAlive_chain Rev2 5 alice (ex_alone Rev2) = Some 9000
  ∧ 9000 - 1000 > 3 * timeout.
Proof.
  split; [vm_compute; reflexivity|]. split; [vm_compute; reflexivity|].
  split; [vm_compute; reflexivity|]. split; [vm_compute; reflexivity|].
  split; [vm_compute; reflexivity|]. vm_compute; reflexivity.
Defined.

Lemma keep_alive_supervision_witness :
  (ticking 0%nat 1000 3000 (ex_alone Rev1) ∧ 1000 ≤ 3000 ≤ 1000 + timeout)
  ∧ ∃ t, keepAlive_chain Rev1 (S (Z.to_nat (beat_factor Rev1 + 1)))
           (Peer.id (deref (ex_alone Rev1) 0%nat)) (ex_alone Rev1) = Some t
         ∧ beat_factor Rev1 * timeout < t - 1000 ≤ (beat_factor Rev1 + 1) * timeout.
Proof.
  assert (H1 : ticking 0%nat 1000 3000 (ex_alone Rev1)).
  { exists 0%nat. split; vm_compute; reflexivity. }
  assert (H2 : 1000 ≤ 3000 ≤ 1000 + timeout) by (unfold timeout; lia).
  split; [exact (conj H1 H2)|].
  destruct (keep_alive_supervision Rev1) as (_ & _ & _ & _ & _ & Hlive).
  exact (Hlive 0%nat 1000 3000 (ex_alone Rev1) H1 H2).
Defined.



(** The frame of the spec: the id of bob, 'i', 64 zero bytes, "HELLO". *)
Definition ex_frame : list byte :=
  String.list_byte_of_string bob ++ ["i"%byte] ++ replicate 64 x00
  ++ String.list_byte_of_string "HELLO".

Lemma binary_relay_routes_witness :
  wsFallback (_conf (ex_bob_in_room Rev2)) = true
  ∧ _onMessage ex_decode Rev2 (ex_oracle 1002) 0%nat (Binary ex_frame) (ex_bob_in_room Rev2)
    = Some (emits [SocketSendBinary 1%nat (String.list_byte_of_string "HELLO")]
              (ex_bob_in_room Rev2)).
Proof.
  assert (H : wsFallback (_conf (ex_bob_in_room Rev2)) = true) by (vm_compute; reflexivity).
  split; [exact H|].
  destruct (binary_relay_routes ex_decode Rev2 (ex_oracle 1002) 0%nat ex_frame
              (ex_bob_in_room Rev2)) as (_ & _ & Hd & _).
  refine (Hd H [(bob, 1%nat)] 1%nat _ _ _ _); vm_compute; reflexivity.
Defined.

Lemma no_empty_room_witness :
  reachable ex_decode Rev2 ex_conf ex_wss (ex_alice_in_room Rev2)
  ∧ _rooms (ex_alice_in_room Rev2) !! ex_ip = Some [(alice, 0%nat)]
  ∧ _rooms (_leaveRoom Rev2 0%nat RoomIp ex_ip true (ex_alice_in_room Rev2)) !! ex_ip = None
  ∧ wire (_leaveRoom Rev2 0%nat RoomIp ex_ip true (ex_alice_in_room Rev2))
    = wire (ex_alice_in_room Rev2).
Proof.
  assert (Hr : reachable ex_decode Rev2 ex_conf ex_wss (ex_alice_in_room Rev2))
    by exact (ex_alice_in_room_reachable Rev2).
  assert (H1 : _rooms (ex_alice_in_room Rev2) !! ex_ip = Some [(alice, 0%nat)])
    by (vm_compute; reflexivity).
  split; [exact Hr|]. split; [exact H1|].
  destruct (no_empty_room ex_decode Rev2 ex_conf ex_wss (ex_alice_in_room Rev2) Hr) as [_ Hl].
  refine (proj2 (Hl 0%nat RoomIp ex_ip true [(alice, 0%nat)] H1 _ _)).
  - exists 0%nat. vm_compute. reflexivity.
  - vm_compute. reflexivity.
Defined.





(** ** Disconnect of a peer in two secret rooms *)

Definition ex_secret_a : string :=
  "aaaaaaaaaaaaaaaaaaaaaaaaaaaaaaaaaaaaaaaaaaaaaaaaaaaaaaaaaaaaaaaa".
Definition ex_secret_b : string :=
  "bbbbbbbbbbbbbbbbbbbbbbbbbbbbbbbbbbbbbbbbbbbbbbbbbbbbbbbbbbbbbbbb".

(** alice and bob are in the room of their address and have both sent
    [room-secrets] with the two secrets. *)
Definition ex_two_secrets (rev : revision) : Server :=
  _onRoomSecrets rev 1%nat (Some [ex_secret_a; ex_secret_b])
    (_onRoomSecrets rev 0%nat (Some [ex_secret_a; ex_secret_b])
       (_joinIpRoom rev 1%nat (_joinIpRoom rev 0%nat (ex_connected rev)))).

(** C3 fails on the code.  alice occupies the two secret rooms, with bob.
    [_disconnect] leaves the room of the address and the first secret
    room; the loop of [_leaveAllSecretRooms] then reads index 1 of a list
    that has shrunk to one secret and stops: alice is still a member of the
    second room and still holds its secret, and bob gets no [peer-left]
    for it.  The socket is terminated last. *)
Theorem disconnect_skips_secret_room rev :
  let st := ex_two_secrets rev in
  let st' := _disconnect rev 0%nat st in
  Peer.roomSecrets (deref st 0%nat) = [ex_secret_a; ex_secret_b]
  ∧ (_rooms st !! ex_secret_a ≫= alookup alice) = Some 0%nat
  ∧ (_rooms st !! ex_secret_b ≫= alookup alice) = Some 0%nat
  ∧ Peer.roomSecrets (deref st' 0%nat) = [ex_secret_b]
  ∧ (_rooms st' !! ex_secret_a ≫= alookup alice) = None
  ∧ (_rooms st' !! ex_secret_b ≫= alookup alice) = Some 0%nat
  ∧ output (_disconnect rev 0%nat) st
    = [SocketSend 1%nat (MsgPeerLeft alice RoomIp ex_ip true);
       SocketSend 1%nat (MsgPeerLeft alice RoomSecret ex_secret_a true);
       SocketTerminate 0%nat].
Proof.
  destruct rev; repeat split; vm_compute; reflexivity.
Qed.

(** ** Symmetry of room membership *)

(** The shape of a public-room id: five lowercase letters or digits. *)
Definition is_lower_alnum (a : Ascii.ascii) : bool :=
  let n := Ascii.N_of_ascii a in
  ((48 <=? n) && (n <=? 57) || (97 <=? n) && (n <=? 122))%N.

Definition isPublicRoomId (s : string) : bool :=
  bool_decide (String.length s = 5%nat)
  && forallb is_lower_alnum (String.list_ascii_of_string s).

Lemma isRoomSecret_not_public s : isRoomSecret s = true → isPublicRoomId s = false.
Proof.
  unfold isRoomSecret, isPublicRoomId. intros [_ H]%andb_true_iff.
  apply bool_decide_eq_true in H. rewrite bool_decide_false; [done|lia].
Qed.

Lemma isPublicRoomId_not_secret s : isPublicRoomId s = true → isRoomSecret s = false.
Proof.
  intros H. destruct (isRoomSecret s) eqn:Hs; [|done].
  apply isRoomSecret_not_public in Hs. congruence.
Qed.

Lemma isPublicRoomId_truthy s : isPublicRoomId s = true → truthy (Some s) = true.
Proof.
  unfold isPublicRoomId. intros [H _]%andb_true_iff. apply bool_decide_eq_true in H.
  simpl. apply bool_decide_eq_true. by intros ->.
Qed.

(** The peer filed under [peerId] in the room [roomId], if any. *)
Definition member_ref (st : Server) (roomId peerId : string) : option ref :=
  _rooms st !! roomId ≫= alookup peerId.

Lemma member_leave_rooms peerId roomId rooms r k :
  (leave_rooms peerId roomId rooms !! r ≫= alookup k)
  = if decide (r = roomId ∧ k = peerId) then None else rooms !! r ≫= alookup k.
Proof.
  unfold leave_rooms.
  destruct (rooms !! roomId) as [room|] eqn:Hroom.
  2: { case_decide as H; [|done]. destruct H as [-> ->]. by rewrite Hroom. }
  destruct (alookup peerId room) as [x|] eqn:Hmem.
  2: { case_decide as H; [|done]. destruct H as [-> ->]. by rewrite Hroom. }
  destruct (decide (r = roomId)) as [->|Hr].
  - assert (Hk : alookup k (adelete peerId room)
                 = if decide (roomId = roomId ∧ k = peerId) then None
                   else rooms !! roomId ≫= alookup k).
    { rewrite Hroom. case_decide as H.
      - destruct H as [_ ->]. apply alookup_adelete_eq.
      - apply alookup_adelete_ne. intros ->. by apply H. }
    rewrite <- Hk. destruct (adelete peerId room) as [|kv rest].
    + by rewrite lookup_delete_eq.
    + by rewrite lookup_insert_eq.
  - rewrite decide_False by (by intros [? _]).
    destruct (adelete peerId room); [by rewrite lookup_delete_ne|by rewrite lookup_insert_ne].
Qed.

Lemma member_join_rooms peerId peer roomId rooms r k :
  (join_rooms peerId peer roomId rooms !! r ≫= alookup k)
  = if decide (r = roomId ∧ k = peerId) then Some peer else rooms !! r ≫= alookup k.
Proof.
  unfold join_rooms. destruct (decide (r = roomId)) as [->|Hr].
  - rewrite lookup_insert_eq. simpl. case_decide as H.
    + destruct H as [_ ->]. apply alookup_ainsert_eq.
    + assert (peerId ≠ k) by (intros ->; by apply H).
      rewrite alookup_ainsert_ne, alookup_adelete_ne by done.
      by destruct (rooms !! roomId).
  - rewrite decide_False by (by intros [? _]). by rewrite lookup_insert_ne.
Qed.

Lemma member_delete_room roomId (rooms : gmap string (list (string * ref))) r k :
  (delete roomId rooms !! r ≫= alookup k)
  = if decide (r = roomId) then None else rooms !! r ≫= alookup k.
Proof.
  case_decide as H; [subst; by rewrite lookup_delete_eq|by rewrite lookup_delete_ne].
Qed.

(** The invariant: the rooms are well formed, the peers have pairwise
    distinct ids, a peer holds a secret exactly when the room of that
    secret has a member under its id, its [publicRoomId] is [r] exactly
    when the public room [r] has one, and the three kinds of room ids stay
    apart. *)
Record Sym (st : Server) : Prop := {
  sym_wf : wf st;
  sym_ids : ∀ r1 r2, (r1 < length (heap st))%nat → (r2 < length (heap st))%nat →
            Peer.id (deref st r1) = Peer.id (deref st r2) → r1 = r2;
  sym_secret : ∀ P s, (P < length (heap st))%nat → isRoomSecret s = true →
               (s ∈ Peer.roomSecrets (deref st P)
                ↔ is_Some (member_ref st s (Peer.id (deref st P))));
  sym_public : ∀ P r, (P < length (heap st))%nat → isPublicRoomId r = true →
               (Peer.publicRoomId (deref st P) = Some r
                ↔ is_Some (member_ref st r (Peer.id (deref st P))));
  sym_public_shape : ∀ P r, (P < length (heap st))%nat →
                     Peer.publicRoomId (deref st P) = Some r → isPublicRoomId r = true;
  sym_secrets_shape : ∀ P s, (P < length (heap st))%nat →
                      s ∈ Peer.roomSecrets (deref st P) → isPublicRoomId s = false;
  sym_directory : ∀ k e, _roomSecrets st !! k = Some e → isPublicRoomId (roomSecret e) = false;
  sym_ip : ∀ P, (P < length (heap st))%nat →
           isRoomSecret (Peer.ip (deref st P)) = false
           ∧ isPublicRoomId (Peer.ip (deref st P)) = false
}.

(** A member of a room is the peer of that id. *)
Lemma Sym_member st roomId P x :
  Sym st → (P < length (heap st))%nat →
  member_ref st roomId (Peer.id (deref st P)) = Some x → x = P.
Proof.
  intros HS HP Hm. unfold member_ref in Hm.
  destruct (_rooms st !! roomId) as [room|] eqn:Hroom; [|done]. simpl in Hm.
  destruct (proj1 (sym_wf st HS) roomId room Hroom) as (_ & _ & Hk).
  destruct (Hk _ _ (alookup_Some_elem _ _ _ Hm)) as [Hx Hid].
  by apply (sym_ids st HS).
Qed.

Lemma Sym_update st st' :
  Sym st → wf st' →
  length (heap st') = length (heap st) →
  (∀ Q, Peer.id (deref st' Q) = Peer.id (deref st Q)
        ∧ Peer.ip (deref st' Q) = Peer.ip (deref st Q)) →
  (∀ k e, _roomSecrets st' !! k = Some e → isPublicRoomId (roomSecret e) = false) →
  (∀ Q s, (Q < length (heap st))%nat → isRoomSecret s = true →
          (s ∈ Peer.roomSecrets (deref st' Q)
           ↔ is_Some (member_ref st' s (Peer.id (deref st Q))))) →
  (∀ Q r, (Q < length (heap st))%nat → isPublicRoomId r = true →
          (Peer.publicRoomId (deref st' Q) = Some r
           ↔ is_Some (member_ref st' r (Peer.id (deref st Q))))) →
  (∀ Q r, (Q < length (heap st))%nat →
          Peer.publicRoomId (deref st' Q) = Some r → isPublicRoomId r = true) →
  (∀ Q s, (Q < length (heap st))%nat →
          s ∈ Peer.roomSecrets (deref st' Q) → isPublicRoomId s = false) →
  Sym st'.
Proof.
  intros HS Hwf Hlen Hid Hdir Hsec Hpub Hps Hss. split; try done.
  - intros r1 r2. rewrite Hlen. destruct (Hid r1) as [-> _], (Hid r2) as [-> _].
    apply (sym_ids st HS).
  - intros P s. rewrite Hlen. destruct (Hid P) as [-> _]. apply Hsec.
  - intros P r. rewrite Hlen. destruct (Hid P) as [-> _]. apply Hpub.
  - intros P r. rewrite Hlen. apply Hps.
  - intros P s. rewrite Hlen. apply Hss.
  - intros P. rewrite Hlen. destruct (Hid P) as [_ ->]. apply (sym_ip st HS).
Qed.

(** A step that changes neither the rooms nor the rooms a peer holds. *)
Lemma Sym_neutral st st' :
  Sym st → steps st st' →
  _rooms st' = _rooms st →
  (∀ Q, Peer.ip (deref st' Q) = Peer.ip (deref st Q)
        ∧ Peer.roomSecrets (deref st' Q) = Peer.roomSecrets (deref st Q)
        ∧ Peer.publicRoomId (deref st' Q) = Peer.publicRoomId (deref st Q)) →
  (∀ k e, _roomSecrets st' !! k = Some e → isPublicRoomId (roomSecret e) = false) →
  Sym st'.
Proof.
  intros HS Hsteps Hrooms Hq Hdir.
  apply (Sym_update st st' HS); try done.
  - by apply (wf_steps st st' Hsteps), HS.
  - by apply steps_length_heap.
  - intros Q. split; [by apply steps_id|apply Hq].
  - intros Q s HQ Hs. destruct (Hq Q) as (_ & -> & _). unfold member_ref. rewrite Hrooms.
    by apply (sym_secret st HS).
  - intros Q r HQ Hr. destruct (Hq Q) as (_ & _ & ->). unfold member_ref. rewrite Hrooms.
    by apply (sym_public st HS).
  - intros Q r HQ. destruct (Hq Q) as (_ & _ & ->). by apply (sym_public_shape st HS).
  - intros Q s HQ. destruct (Hq Q) as (_ & -> & _). by apply (sym_secrets_shape st HS).
Qed.

Lemma Sym_emits es st : Sym st → Sym (emits es st).
Proof.
  intros HS. apply (Sym_neutral st); eauto with steps. apply (sym_directory st HS).
Qed.

Lemma Sym_send rev p m st : Sym st → Sym (_send rev p m st).
Proof. intros HS. destruct p as [r|]; [|done]. rewrite _send_Some. by apply Sym_emits. Qed.

Lemma Sym_set_pairKey r k st : Sym st → Sym (update_peer r (Peer.set_pairKey k) st).
Proof.
  intros HS. apply (Sym_neutral st); eauto with steps.
  - intros Q. rewrite deref_update_peer. by case_decide.
  - apply (sym_directory st HS).
Qed.

Lemma Sym_set_readyState r (f : Peer.t → Peer.t) st :
  (∀ p, f p = p ∨ ∃ z, f p = Peer.set_readyState z p) →
  Sym st → Sym (update_peer r f st).
Proof.
  intros Hf HS. apply (Sym_neutral st); try done.
  - apply ext_update_peer; [|apply steps_refl]. intros p. by destruct (Hf p) as [->|[z ->]].
  - intros Q. rewrite deref_update_peer. case_decide; [|done].
    by destruct (Hf (deref st Q)) as [->|[z ->]].
  - apply (sym_directory st HS).
Qed.

Lemma Sym_set_keepAliveTimers f st : Sym st → Sym (set_keepAliveTimers f st).
Proof.
  intros HS. apply (Sym_neutral st); eauto with steps. apply (sym_directory st HS).
Qed.

Lemma Sym_directory_delete k st : Sym st → Sym (set_roomSecrets (delete k) st).
Proof.
  intros HS. apply (Sym_neutral st); eauto with steps.
  intros k' e H. change (delete k (_roomSecrets st) !! k' = Some e) in H.
  apply lookup_delete_Some in H as [_ H]. by apply (sym_directory st HS k').
Qed.

Lemma Sym_directory_insert k e st :
  isPublicRoomId (roomSecret e) = false → Sym st → Sym (set_roomSecrets (<[k := e]>) st).
Proof.
  intros He HS. apply (Sym_neutral st); eauto with steps.
  intros k' e' H. change (<[k := e]> (_roomSecrets st) !! k' = Some e') in H.
  apply lookup_insert_Some in H as [[_ <-]|[_ H]]; [done|]. by apply (sym_directory st HS k').
Qed.

Lemma Sym_clearTimeout h st : Sym st → Sym (clearTimeout h st).
Proof.
  intros HS. apply (Sym_neutral st); eauto with steps. apply (sym_directory st HS).
Qed.

Lemma Sym_schedule due peer st :
  (peer < length (heap st))%nat →
  Sym st → Sym (set_timeouts (λ ts, ts ++ [Some (due, peer)]) st).
Proof.
  intros Hp HS. apply (Sym_neutral st); try done.
  - apply steps_once. by constructor.
  - apply (sym_directory st HS).
Qed.

Lemma Sym_removePairKey k st : Sym st → Sym (_removePairKey k st).
Proof.
  intros HS. unfold _removePairKey. case_match; [|done].
  by apply Sym_directory_delete, Sym_set_pairKey.
Qed.

Lemma Sym_cancelKeepAlive peer st : Sym st → Sym (_cancelKeepAlive peer st).
Proof.
  intros HS. unfold _cancelKeepAlive. repeat case_match; try done. by apply Sym_clearTimeout.
Qed.

Lemma Sym_terminate peer st : Sym st → Sym (terminate peer st).
Proof.
  intros HS. unfold terminate, emit. apply Sym_emits, Sym_set_readyState; [|done].
  intros p. case_bool_decide; [by left|right; by eexists].
Qed.

(** [Sym] together with the number of peers, which no handler but
    [_onConnection] changes. *)
Definition SymN (n : nat) (st : Server) : Prop := Sym st ∧ length (heap st) = n.

Lemma SymN_neutral n st st' :
  (Sym st → Sym st') → length (heap st') = length (heap st) → SymN n st → SymN n st'.
Proof. intros H Hl [HS Hn]. split; [by apply H|by rewrite Hl]. Qed.

Lemma SymN_emits n es st : SymN n st → SymN n (emits es st).
Proof. apply SymN_neutral; [apply Sym_emits|done]. Qed.

Lemma SymN_send n rev p m st : SymN n st → SymN n (_send rev p m st).
Proof.
  intros H. destruct p as [r|]; [|done]. rewrite _send_Some. by apply SymN_emits.
Qed.

Lemma SymN_set_pairKey n r k st : SymN n st → SymN n (update_peer r (Peer.set_pairKey k) st).
Proof. apply SymN_neutral; [apply Sym_set_pairKey|apply length_heap_update_peer]. Qed.

Lemma SymN_set_keepAliveTimers n f st : SymN n st → SymN n (set_keepAliveTimers f st).
Proof. apply SymN_neutral; [apply Sym_set_keepAliveTimers|done]. Qed.

Lemma SymN_directory_insert n k e st :
  isPublicRoomId (roomSecret e) = false → SymN n st → SymN n (set_roomSecrets (<[k := e]>) st).
Proof. intros He. apply SymN_neutral; [by apply Sym_directory_insert|done]. Qed.

Lemma SymN_schedule n due peer st :
  (peer < n)%nat →
  SymN n st → SymN n (set_timeouts (λ ts, ts ++ [Some (due, peer)]) st).
Proof.
  intros Hp [HS Hn]. split; [|done]. apply Sym_schedule; [|done]. by rewrite Hn.
Qed.

Lemma SymN_removePairKey n k st : SymN n st → SymN n (_removePairKey k st).
Proof. apply SymN_neutral; [apply Sym_removePairKey|apply _removePairKey_length_heap]. Qed.

Lemma SymN_cancelKeepAlive n peer st : SymN n st → SymN n (_cancelKeepAlive peer st).
Proof.
  apply SymN_neutral; [apply Sym_cancelKeepAlive|].
  unfold _cancelKeepAlive. by repeat case_match.
Qed.

Lemma SymN_terminate n peer st : SymN n st → SymN n (terminate peer st).
Proof.
  apply SymN_neutral; [apply Sym_terminate|]. unfold terminate, emit.
  change (heap (emits ?es ?s)) with (heap s). apply length_heap_update_peer.
Qed.

(** A change of the rooms together with a change of one peer. *)
Lemma SymN_room_update n P f g st :
  SymN n st →
  steps st (set_rooms g st) →
  (∀ p, Peer.id (f p) = Peer.id p ∧ Peer.ip (f p) = Peer.ip p) →
  (∀ Q s, (Q < n)%nat → isRoomSecret s = true →
     (s ∈ Peer.roomSecrets (if decide (P = Q) then f (deref st Q) else deref st Q)
      ↔ is_Some (g (_rooms st) !! s ≫= alookup (Peer.id (deref st Q))))) →
  (∀ Q r, (Q < n)%nat → isPublicRoomId r = true →
     (Peer.publicRoomId (if decide (P = Q) then f (deref st Q) else deref st Q) = Some r
      ↔ is_Some (g (_rooms st) !! r ≫= alookup (Peer.id (deref st Q))))) →
  (∀ Q r, (Q < n)%nat →
     Peer.publicRoomId (if decide (P = Q) then f (deref st Q) else deref st Q) = Some r →
     isPublicRoomId r = true) →
  (∀ Q s, (Q < n)%nat →
     s ∈ Peer.roomSecrets (if decide (P = Q) then f (deref st Q) else deref st Q) →
     isPublicRoomId s = false) →
  SymN n (update_peer P f (set_rooms g st)).
Proof.
  intros [HS Hn] Hsteps Hf Hsec Hpub Hps Hss.
  assert (Hd : ∀ Q, (Q < n)%nat →
            deref (update_peer P f (set_rooms g st)) Q
            = if decide (P = Q) then f (deref st Q) else deref st Q).
  { intros Q HQ. rewrite deref_update_peer.
    change (deref (set_rooms g st) Q) with (deref st Q).
    change (heap (set_rooms g st)) with (heap st). rewrite Hn.
    destruct (decide (P = Q)) as [->|Hne].
    - by rewrite decide_True.
    - rewrite decide_False; [done|]. by intros [? _]. }
  split; [|by rewrite length_heap_update_peer].
  apply (Sym_update st); try done.
  - eapply wf_steps; [|apply HS]. apply ext_update_peer; [|done]. intros p. apply Hf.
  - by rewrite length_heap_update_peer.
  - intros Q. rewrite deref_update_peer. change (deref (set_rooms g st) Q) with (deref st Q).
    case_decide; [apply Hf|done].
  - apply (sym_directory st HS).
  - rewrite Hn. intros Q s HQ Hs. rewrite Hd by done. by apply Hsec.
  - rewrite Hn. intros Q r HQ Hr. rewrite Hd by done. by apply Hpub.
  - rewrite Hn. intros Q r HQ. rewrite Hd by done. by apply Hps.
  - rewrite Hn. intros Q s HQ. rewrite Hd by done. by apply Hss.
Qed.

(** A change of rooms whose id has neither shape. *)
Lemma SymN_rooms_other n g st :
  SymN n st →
  steps st (set_rooms g st) →
  (∀ r k, isRoomSecret r = true ∨ isPublicRoomId r = true →
          g (_rooms st) !! r ≫= alookup k = _rooms st !! r ≫= alookup k) →
  SymN n (set_rooms g st).
Proof.
  intros [HS Hn] Hsteps Hg. split; [|done].
  apply (Sym_update st); try done.
  - eapply wf_steps; [done|apply HS].
  - apply (sym_directory st HS).
  - intros Q s HQ Hs. unfold member_ref. change (_rooms (set_rooms g st)) with (g (_rooms st)).
    rewrite Hg by (by left). by apply (sym_secret st HS).
  - intros Q r HQ Hr. unfold member_ref. change (_rooms (set_rooms g st)) with (g (_rooms st)).
    rewrite Hg by (by right). by apply (sym_public st HS).
  - apply (sym_public_shape st HS).
  - apply (sym_secrets_shape st HS).
Qed.

Lemma elem_of_addRoomSecret_iff s' s p :
  s' ∈ Peer.roomSecrets (Peer.addRoomSecret s p) ↔ s' = s ∨ s' ∈ Peer.roomSecrets p.
Proof.
  unfold Peer.addRoomSecret. case_decide as H; simpl.
  - split; [by right|]. by intros [->|?].
  - rewrite elem_of_app, list_elem_of_singleton. tauto.
Qed.

Lemma elem_of_removeRoomSecret_iff s' s p :
  s' ∈ Peer.roomSecrets (Peer.removeRoomSecret s p) ↔ s' ≠ s ∧ s' ∈ Peer.roomSecrets p.
Proof. unfold Peer.removeRoomSecret. simpl. by rewrite list_elem_of_filter. Qed.

Lemma ip_addRoomSecret s p : Peer.ip (Peer.addRoomSecret s p) = Peer.ip p.
Proof. unfold Peer.addRoomSecret. by case_decide. Qed.

Lemma publicRoomId_addRoomSecret s p :
  Peer.publicRoomId (Peer.addRoomSecret s p) = Peer.publicRoomId p.
Proof. unfold Peer.addRoomSecret. by case_decide. Qed.

(** Two peers of a symmetric state have different ids. *)
Lemma Sym_ids_ne st P Q :
  Sym st → (P < length (heap st))%nat → (Q < length (heap st))%nat →
  P ≠ Q → Peer.id (deref st Q) ≠ Peer.id (deref st P).
Proof. intros HS HP HQ Hne Heq. apply Hne. symmetry. by apply (sym_ids st HS). Qed.

Lemma SymN_joinSecretRoom n rev P s st :
  (P < n)%nat → isPublicRoomId s = false →
  SymN n st → SymN n (_joinSecretRoom rev P s st).
Proof.
  intros HP Hs HSN. rewrite _joinSecretRoom_spec. apply SymN_emits.
  pose proof HSN as [HS Hn].
  apply SymN_room_update; try done.
  - apply steps_once. constructor. by rewrite Hn.
  - intros p. by rewrite id_addRoomSecret, ip_addRoomSecret.
  - intros Q s' HQ Hs'. rewrite member_join_rooms.
    destruct (decide (P = Q)) as [<-|Hne].
    + rewrite elem_of_addRoomSecret_iff. case_decide as Hc.
      * destruct Hc as [-> _]. split; [by eexists|by left].
      * rewrite (sym_secret st HS) by (by rewrite ?Hn). unfold member_ref.
        split; [|by right]. intros [->|?]; [|done]. by destruct Hc.
    + rewrite decide_False.
      * apply (sym_secret st HS); by rewrite ?Hn.
      * intros [_ Heq]. by apply (Sym_ids_ne st P Q HS); rewrite ?Hn.
  - intros Q r HQ Hr. rewrite member_join_rooms.
    rewrite (decide_False (P := r = s ∧ _)) by (intros [-> _]; congruence).
    assert (Peer.publicRoomId (if decide (P = Q) then Peer.addRoomSecret s (deref st Q)
                               else deref st Q) = Peer.publicRoomId (deref st Q)) as ->.
    { case_decide; [apply publicRoomId_addRoomSecret|done]. }
    apply (sym_public st HS); by rewrite ?Hn.
  - intros Q r HQ.
    assert (Peer.publicRoomId (if decide (P = Q) then Peer.addRoomSecret s (deref st Q)
                               else deref st Q) = Peer.publicRoomId (deref st Q)) as ->.
    { case_decide; [apply publicRoomId_addRoomSecret|done]. }
    apply (sym_public_shape st HS). by rewrite Hn.
  - intros Q s' HQ. case_decide.
    + rewrite elem_of_addRoomSecret_iff. intros [->|H']; [done|].
      apply (sym_secrets_shape st HS Q); by rewrite ?Hn.
    + apply (sym_secrets_shape st HS Q); by rewrite ?Hn.
Qed.

Lemma _leaveSecretRoom_spec rev peer roomSecret disconnect st :
  _leaveSecretRoom rev peer roomSecret disconnect st
  = emits (leave_out rev st peer RoomSecret roomSecret disconnect)
      (update_peer peer (Peer.removeRoomSecret roomSecret)
         (set_rooms (leave_rooms (Peer.id (deref st peer)) roomSecret) st)).
Proof. unfold _leaveSecretRoom. by rewrite _leaveRoom_spec. Qed.

(** The fuel [_leaveAllSecretRooms] gives its loop is enough: the index
    grows and the array does not, so more fuel changes nothing. *)
Lemma length_roomSecrets_leaveSecretRoom rev peer roomSecret disconnect st :
  (length (Peer.roomSecrets (deref (_leaveSecretRoom rev peer roomSecret disconnect st) peer))
   ≤ length (Peer.roomSecrets (deref st peer)))%nat.
Proof.
  rewrite _leaveSecretRoom_spec. change (deref (emits ?es ?s) peer) with (deref s peer).
  rewrite deref_update_peer. change (deref (set_rooms ?f ?s) peer) with (deref s peer).
  case_decide; [|done]. unfold Peer.removeRoomSecret. simpl. apply length_filter.
Qed.

Lemma leaveAll_fuel_enough rev peer disconnect fuel fuel' i st :
  (length (Peer.roomSecrets (deref st peer)) ≤ i + fuel)%nat → (fuel ≤ fuel')%nat →
  _leaveAllSecretRooms_loop rev peer disconnect fuel' i st
  = _leaveAllSecretRooms_loop rev peer disconnect fuel i st.
Proof.
  revert fuel' i st. induction fuel as [|fuel IH]; intros fuel' i st Hlen Hle.
  - assert (Hnone : Peer.roomSecrets (deref st peer) !! i = None)
      by (apply lookup_ge_None_2; lia).
    destruct fuel'; simpl; [done|]. by rewrite Hnone.
  - destruct fuel' as [|fuel']; [lia|]. simpl.
    destruct (Peer.roomSecrets (deref st peer) !! i) as [s|]; [|done].
    apply IH; [|lia].
    pose proof (length_roomSecrets_leaveSecretRoom rev peer s disconnect st). lia.
Qed.

Lemma SymN_leaveSecretRoom n rev P s d st :
  (P < n)%nat → isPublicRoomId s = false →
  SymN n st → SymN n (_leaveSecretRoom rev P s d st).
Proof.
  intros HP Hs HSN. rewrite _leaveSecretRoom_spec. apply SymN_emits.
  pose proof HSN as [HS Hn].
  apply SymN_room_update; try done.
  - apply steps_once. constructor.
  - intros Q s' HQ Hs'. rewrite member_leave_rooms.
    destruct (decide (P = Q)) as [<-|Hne].
    + rewrite elem_of_removeRoomSecret_iff. case_decide as Hc.
      * destruct Hc as [-> _]. split; [by intros [? _]|by intros [? ?]].
      * rewrite (sym_secret st HS) by (by rewrite ?Hn). unfold member_ref.
        split; [by intros [_ ?]|]. intros H. split; [|done]. intros ->. by apply Hc.
    + rewrite decide_False.
      * apply (sym_secret st HS); by rewrite ?Hn.
      * intros [_ Heq]. by apply (Sym_ids_ne st P Q HS); rewrite ?Hn.
  - intros Q r HQ Hr. rewrite member_leave_rooms.
    rewrite (decide_False (P := r = s ∧ _)) by (intros [-> _]; congruence).
    assert (Peer.publicRoomId (if decide (P = Q) then Peer.removeRoomSecret s (deref st Q)
                               else deref st Q) = Peer.publicRoomId (deref st Q)) as ->.
    { by case_decide. }
    apply (sym_public st HS); by rewrite ?Hn.
  - intros Q r HQ.
    assert (Peer.publicRoomId (if decide (P = Q) then Peer.removeRoomSecret s (deref st Q)
                               else deref st Q) = Peer.publicRoomId (deref st Q)) as ->.
    { by case_decide. }
    apply (sym_public_shape st HS). by rewrite Hn.
  - intros Q s' HQ. case_decide.
    + rewrite elem_of_removeRoomSecret_iff. intros [_ H'].
      apply (sym_secrets_shape st HS Q); by rewrite ?Hn.
    + apply (sym_secrets_shape st HS Q); by rewrite ?Hn.
Qed.

Lemma SymN_leavePublicRoom n rev P d st :
  (P < n)%nat → SymN n st → SymN n (_leavePublicRoom rev P d st).
Proof.
  intros HP HSN. unfold _leavePublicRoom.
  destruct (Peer.publicRoomId (deref st P)) as [r|] eqn:Hr; [|done].
  destruct (truthy (Some r)); [|done].
  rewrite _leaveRoom_spec, update_peer_emits. apply SymN_emits.
  pose proof HSN as [HS Hn].
  assert (Hshape : isPublicRoomId r = true).
  { apply (sym_public_shape st HS P); by rewrite ?Hn. }
  apply SymN_room_update; try done.
  - apply steps_once. constructor.
  - intros Q s HQ Hs. rewrite member_leave_rooms.
    rewrite (decide_False (P := s = r ∧ _)).
    2: { intros [-> _]. apply isRoomSecret_not_public in Hs. congruence. }
    assert (Peer.roomSecrets (if decide (P = Q) then Peer.set_publicRoomId None (deref st Q)
                              else deref st Q) = Peer.roomSecrets (deref st Q)) as ->.
    { by case_decide. }
    apply (sym_secret st HS); by rewrite ?Hn.
  - intros Q r' HQ Hr'. rewrite member_leave_rooms.
    destruct (decide (P = Q)) as [<-|Hne].
    + simpl. case_decide as Hc.
      * split; [done|by intros [? ?]].
      * rewrite <- (sym_public st HS P r') by (by rewrite ?Hn). rewrite Hr.
        split; [done|]. intros [= ->]. by destruct Hc.
    + rewrite decide_False.
      * apply (sym_public st HS); by rewrite ?Hn.
      * intros [_ Heq]. by apply (Sym_ids_ne st P Q HS); rewrite ?Hn.
  - intros Q r' HQ. case_decide; [done|]. apply (sym_public_shape st HS). by rewrite Hn.
  - intros Q s HQ.
    assert (Peer.roomSecrets (if decide (P = Q) then Peer.set_publicRoomId None (deref st Q)
                              else deref st Q) = Peer.roomSecrets (deref st Q)) as ->.
    { by case_decide. }
    apply (sym_secrets_shape st HS Q). by rewrite Hn.
Qed.

(** After [_leavePublicRoom] a peer of a symmetric state is in no public
    room. *)
Lemma _leavePublicRoom_None n rev P d st :
  (P < n)%nat → SymN n st →
  Peer.publicRoomId (deref (_leavePublicRoom rev P d st) P) = None.
Proof.
  intros HP [HS Hn]. unfold _leavePublicRoom.
  destruct (Peer.publicRoomId (deref st P)) as [r|] eqn:Hr; [|done].
  rewrite (isPublicRoomId_truthy r).
  - rewrite deref_update_peer_eq; [done|].
    rewrite (steps_length_heap st), Hn; [done|]. eauto with steps.
  - apply (sym_public_shape st HS P); by rewrite ?Hn.
Qed.

Lemma SymN_join_public n P r st :
  (P < n)%nat → isPublicRoomId r = true → Peer.publicRoomId (deref st P) = None →
  SymN n st →
  SymN n (update_peer P (Peer.set_publicRoomId (Some r))
            (set_rooms (join_rooms (Peer.id (deref st P)) P r) st)).
Proof.
  intros HP Hr Hnone HSN. pose proof HSN as [HS Hn].
  apply SymN_room_update; try done.
  - apply steps_once. constructor. by rewrite Hn.
  - intros Q s HQ Hs. rewrite member_join_rooms.
    rewrite (decide_False (P := s = r ∧ _)).
    2: { intros [-> _]. apply isRoomSecret_not_public in Hs. congruence. }
    assert (Peer.roomSecrets (if decide (P = Q)
                              then Peer.set_publicRoomId (Some r) (deref st Q)
                              else deref st Q) = Peer.roomSecrets (deref st Q)) as ->.
    { by case_decide. }
    apply (sym_secret st HS); by rewrite ?Hn.
  - intros Q r' HQ Hr'. rewrite member_join_rooms.
    destruct (decide (P = Q)) as [<-|Hne].
    + simpl. case_decide as Hc.
      * destruct Hc as [-> _]. split; [by eexists|done].
      * rewrite <- (sym_public st HS P r') by (by rewrite ?Hn). rewrite Hnone.
        split; [|done]. intros [= ->]. by destruct Hc.
    + rewrite decide_False.
      * apply (sym_public st HS); by rewrite ?Hn.
      * intros [_ Heq]. by apply (Sym_ids_ne st P Q HS); rewrite ?Hn.
  - intros Q r' HQ. case_decide.
    + simpl. by intros [= <-].
    + apply (sym_public_shape st HS). by rewrite Hn.
  - intros Q s HQ.
    assert (Peer.roomSecrets (if decide (P = Q)
                              then Peer.set_publicRoomId (Some r) (deref st Q)
                              else deref st Q) = Peer.roomSecrets (deref st Q)) as ->.
    { by case_decide. }
    apply (sym_secrets_shape st HS Q). by rewrite Hn.
Qed.

Lemma SymN_joinPublicRoom n rev P r st :
  (P < n)%nat → isPublicRoomId r = true →
  SymN n st → SymN n (_joinPublicRoom rev P r st).
Proof.
  intros HP Hr HSN. unfold _joinPublicRoom.
  rewrite _joinRoom_spec, update_peer_emits. apply SymN_emits.
  apply SymN_join_public; try done.
  - by apply (_leavePublicRoom_None n).
  - by apply SymN_leavePublicRoom.
Qed.

(** The room of an address has neither shape. *)
Lemma SymN_leaveIpRoom n rev P d st :
  (P < n)%nat → SymN n st → SymN n (_leaveIpRoom rev P d st).
Proof.
  intros HP HSN. unfold _leaveIpRoom. rewrite _leaveRoom_spec. apply SymN_emits.
  pose proof HSN as [HS Hn].
  destruct (sym_ip st HS P) as [Hi1 Hi2]; [by rewrite Hn|].
  apply SymN_rooms_other; [done|apply steps_once; constructor|].
  intros r k Hr. rewrite member_leave_rooms. rewrite decide_False; [done|].
  intros [-> _]. destruct Hr; congruence.
Qed.

Lemma SymN_joinIpRoom n rev P st :
  (P < n)%nat → SymN n st → SymN n (_joinIpRoom rev P st).
Proof.
  intros HP HSN. unfold _joinIpRoom. rewrite _joinRoom_spec. apply SymN_emits.
  pose proof HSN as [HS Hn].
  destruct (sym_ip st HS P) as [Hi1 Hi2]; [by rewrite Hn|].
  apply SymN_rooms_other; [done|apply steps_once; constructor; by rewrite Hn|].
  intros r k Hr. rewrite member_join_rooms. rewrite decide_False; [done|].
  intros [-> _]. destruct Hr; congruence.
Qed.

Lemma SymN_foldl {A} n (f : Server → A → Server) l st :
  (∀ s x, x ∈ l → SymN n s → SymN n (f s x)) →
  SymN n st → SymN n (foldl f st l).
Proof.
  revert st. induction l as [|x l IH]; intros st Hf Hst; simpl; [done|].
  apply IH.
  - intros s y Hy. apply Hf. by apply list_elem_of_further.
  - apply Hf; [apply list_elem_of_here|done].
Qed.

Lemma SymN_joinSecretRooms n rev P l st :
  (P < n)%nat → (∀ s, s ∈ l → isPublicRoomId s = false) →
  SymN n st → SymN n (_joinSecretRooms rev P l st).
Proof.
  intros HP Hl. unfold _joinSecretRooms. apply SymN_foldl.
  intros s x Hx. apply SymN_joinSecretRoom; [done|by apply Hl].
Qed.

Lemma SymN_leaveAllSecretRooms_loop n rev P d fuel i st :
  (P < n)%nat → SymN n st → SymN n (_leaveAllSecretRooms_loop rev P d fuel i st).
Proof.
  intros HP. revert i st. induction fuel as [|fuel IH]; intros i st HSN; simpl; [done|].
  destruct (Peer.roomSecrets (deref st P) !! i) as [s|] eqn:Hs; [|done].
  apply IH. apply SymN_leaveSecretRoom; [done| |done].
  destruct HSN as [HS Hn]. apply (sym_secrets_shape st HS P); [by rewrite Hn|].
  by eapply list_elem_of_lookup_2.
Qed.

Lemma SymN_leaveAllSecretRooms n rev P d st :
  (P < n)%nat → SymN n st → SymN n (_leaveAllSecretRooms rev P d st).
Proof. apply SymN_leaveAllSecretRooms_loop. Qed.

Lemma SymN_disconnect n rev P st : (P < n)%nat → SymN n st → SymN n (_disconnect rev P st).
Proof.
  intros HP HSN. unfold _disconnect. cbv zeta.
  match goal with
  | |- SymN n (match rev with Rev1 => terminate P ?s | Rev2 => _ end) =>
    assert (H : SymN n s)
  end.
  { apply SymN_leavePublicRoom, SymN_leaveAllSecretRooms, SymN_leaveIpRoom; try done.
    by apply SymN_set_keepAliveTimers, SymN_cancelKeepAlive, SymN_set_pairKey,
      SymN_removePairKey. }
  destruct rev; [by apply SymN_terminate|].
  case_bool_decide; [by apply SymN_terminate|done].
Qed.

Lemma SymN_keepAlive n rev now P st : (P < n)%nat → SymN n st → SymN n (_keepAlive rev now P st).
Proof.
  intros HP HSN. unfold _keepAlive.
  set (st1 := _cancelKeepAlive P st).
  assert (H1 : SymN n st1) by (by apply SymN_cancelKeepAlive).
  set (st2 := match _keepAliveTimers st1 !! _ with None => _ | Some _ => st1 end).
  assert (H2 : SymN n st2).
  { subst st2. case_match; [done|]. by apply SymN_set_keepAliveTimers. }
  case_bool_decide; [by apply SymN_disconnect|].
  by apply SymN_set_keepAliveTimers, SymN_schedule, SymN_send.
Qed.

Lemma SymN_setKeepAliveTimerToNow n now P st :
  SymN n st → SymN n (_setKeepAliveTimerToNow now P st).
Proof.
  intros H. unfold _setKeepAliveTimerToNow. repeat case_match; try done.
  by apply SymN_set_keepAliveTimers.
Qed.

Lemma SymN_onRoomSecrets n rev P l st :
  (P < n)%nat → SymN n st → SymN n (_onRoomSecrets rev P l st).
Proof.
  intros HP HSN. unfold _onRoomSecrets. destruct l as [l|]; [|done].
  assert (H : SymN n (_joinSecretRooms rev P (List.filter isRoomSecret l) st)).
  { apply SymN_joinSecretRooms; [done| |done].
    intros s [_ Hs]%list_elem_of_In%filter_In. by apply isRoomSecret_not_public. }
  destruct rev; [done|]. by destruct (List.filter isRoomSecret l).
Qed.

Lemma SymN_deleteSecretRoom n rev s st :
  isPublicRoomId s = false → SymN n st → SymN n (_deleteSecretRoom rev s st).
Proof.
  intros Hs HSN. unfold _deleteSecretRoom.
  destruct (_rooms st !! s) as [room|] eqn:Hroom; [|done].
  apply SymN_foldl; [|done]. intros st' [k P] Hin HSN'.
  destruct (alookup k _); [|done].
  apply SymN_send, SymN_leaveSecretRoom; [|done|done].
  destruct HSN as [HS Hn].
  destruct (proj1 (sym_wf st HS) s room Hroom) as (_ & _ & Hk).
  rewrite <- Hn. by apply (Hk k P).
Qed.

Lemma SymN_onRoomSecretsDeleted n rev P l st :
  (∀ s, s ∈ l → isPublicRoomId s = false) →
  SymN n st → SymN n (_onRoomSecretsDeleted rev P l st).
Proof.
  intros Hl. unfold _onRoomSecretsDeleted. apply SymN_foldl.
  intros s x Hx. apply SymN_deleteSecretRoom. by apply Hl.
Qed.

Lemma SymN_createPairKey n P s draws st k st' :
  isPublicRoomId s = false →
  _createPairKey P s draws st = Some (k, st') → SymN n st → SymN n st'.
Proof.
  intros Hs. induction draws as [|d draws IH]; simpl; [done|].
  case_match; [done|]. intros [= <- <-]. by apply SymN_directory_insert.
Qed.

Lemma SymN_onPairDeviceInitiate n rev P s draws st st' :
  (P < n)%nat → isPublicRoomId s = false →
  _onPairDeviceInitiate rev P s draws st = Some st' → SymN n st → SymN n st'.
Proof.
  unfold _onPairDeviceInitiate. intros HP Hs Hi HSN.
  destruct (_createPairKey P s draws st) as [[k st1]|] eqn:Hc; [|done].
  apply (SymN_createPairKey n) in Hc; [|done..].
  apply (inj Some) in Hi. subst st'.
  apply SymN_joinSecretRoom, SymN_send, SymN_set_pairKey; try done.
  case_match; [by apply SymN_removePairKey|done].
Qed.

Lemma SymN_onPairDeviceJoin n rev P limited k st :
  (P < n)%nat → SymN n st → SymN n (_onPairDeviceJoin rev P limited k st).
Proof.
  intros HP HSN. unfold _onPairDeviceJoin.
  destruct limited; [by apply SymN_send|].
  destruct (_roomSecrets st !! k) as [e|] eqn:He; [|by apply SymN_send].
  case_decide; [by apply SymN_send|].
  apply SymN_removePairKey, SymN_joinSecretRoom; [done| |].
  - destruct HSN as [HS _]. by apply (sym_directory st HS k).
  - by do 2 apply SymN_send; apply SymN_removePairKey.
Qed.

Lemma SymN_onPairDeviceCancel n rev P st : SymN n st → SymN n (_onPairDeviceCancel rev P st).
Proof.
  intros H. unfold _onPairDeviceCancel. repeat case_match; try done.
  by apply SymN_send, SymN_removePairKey.
Qed.

Lemma SymN_onCreatePublicRoom n rev P r st :
  (P < n)%nat → isPublicRoomId r = true →
  SymN n st → SymN n (_onCreatePublicRoom rev P r st).
Proof.
  intros HP Hr H. unfold _onCreatePublicRoom. apply SymN_joinPublicRoom; [done..|].
  by apply SymN_send.
Qed.

Lemma SymN_onJoinPublicRoom n rev P limited r c st :
  (P < n)%nat → isPublicRoomId r = true →
  SymN n st → SymN n (_onJoinPublicRoom rev P limited r c st).
Proof.
  intros HP Hr H. unfold _onJoinPublicRoom. destruct limited; [by apply SymN_send|].
  assert (SymN n (_joinPublicRoom rev P r (_leavePublicRoom rev P false st))).
  { apply SymN_joinPublicRoom; [done..|]. by apply SymN_leavePublicRoom. }
  destruct (_rooms st !! r), c; try done; by apply SymN_send.
Qed.

Lemma SymN_onLeavePublicRoom n rev P st :
  (P < n)%nat → SymN n st → SymN n (_onLeavePublicRoom rev P st).
Proof.
  intros HP H. unfold _onLeavePublicRoom. by apply SymN_send, SymN_leavePublicRoom.
Qed.

Lemma SymN_signalAndRelay n rev P m st : SymN n st → SymN n (_signalAndRelay rev P m st).
Proof.
  intros H. unfold _signalAndRelay. repeat case_match; try done; by apply SymN_send.
Qed.

(** The loop of [_onRegenerateRoomSecret]: the members lose the old
    secret, and nothing else changes. *)
Lemma regenerate_loop rev old new n (l : list (string * ref)) st :
  length (heap st) = n →
  (∀ k r, (k, r) ∈ l → (r < n)%nat) →
  let st' :=
    foldl (λ s '(peerId, peer),
             let s := _send rev (Some peer) (MsgRoomSecretRegenerated old new) s in
             update_peer peer (Peer.removeRoomSecret old) s) st l in
  _rooms st' = _rooms st ∧ _roomSecrets st' = _roomSecrets st
  ∧ ∀ Q, (Q < n)%nat →
      Peer.ip (deref st' Q) = Peer.ip (deref st Q)
      ∧ Peer.publicRoomId (deref st' Q) = Peer.publicRoomId (deref st Q)
      ∧ ∀ s, s ∈ Peer.roomSecrets (deref st' Q)
             ↔ s ∈ Peer.roomSecrets (deref st Q) ∧ ¬ (s = old ∧ Q ∈ l.*2).
Proof.
  revert st. induction l as [|[k r] l IH]; intros st Hn Hl st'; subst st'.
  - change (foldl ?f st []) with st.
    split; [done|]. split; [done|]. intros Q HQ. split; [done|]. split; [done|].
    intros s. simpl. split; [|by intros [? _]]. intros H. split; [done|].
    by intros [_ ?%elem_of_nil].
  - change (foldl ?f st ((k, r) :: l)) with (foldl f (f st (k, r)) l).
    match goal with |- context [foldl _ ?s0 l] => set (st1 := s0) end.
    assert (Hst1 : st1 = emits (send_out rev st r (MsgRoomSecretRegenerated old new))
                           (update_peer r (Peer.removeRoomSecret old) st)).
    { subst st1. cbv beta iota zeta. by rewrite _send_Some, update_peer_emits. }
    clearbody st1.
    assert (Hn1 : length (heap st1) = n).
    { subst st1. change (heap (emits ?es ?s)) with (heap s).
      by rewrite length_heap_update_peer. }
    destruct (IH st1 Hn1) as (Hr & Hd & Hq).
    { intros k' r' Hin. apply (Hl k'). by apply list_elem_of_further. }
    split; [by rewrite Hr, Hst1|]. split; [by rewrite Hd, Hst1|].
    intros Q HQ. destruct (Hq Q HQ) as (Hip & Hpub & Hsec).
    assert (H1 : deref st1 Q
                 = if decide (r = Q) then Peer.removeRoomSecret old (deref st Q)
                   else deref st Q).
    { rewrite Hst1. change (deref (emits ?es ?s) Q) with (deref s Q).
      rewrite deref_update_peer. destruct (decide (r = Q)) as [->|Hne].
      - rewrite decide_True; [done|]. split; [done|]. by rewrite Hn.
      - rewrite decide_False; [done|]. by intros [? _]. }
    rewrite Hip, Hpub, H1.
    split; [by case_decide|]. split; [by case_decide|].
    intros s. rewrite Hsec, H1. simpl. rewrite elem_of_cons.
    case_decide as Hc.
    + rewrite elem_of_removeRoomSecret_iff. subst r.
      split.
      * intros [[Hne Hin] Hnot]. split; [done|]. by intros [? _].
      * intros [Hin Hnot]. split.
        -- split; [|done]. intros ->. apply Hnot. split; [done|by left].
        -- intros [-> _]. apply Hnot. split; [done|by left].
    + split.
      * intros [Hin Hnot]. split; [done|]. intros [-> [?|?]]; [done|]. by apply Hnot.
      * intros [Hin Hnot]. split; [done|]. intros [-> ?]. apply Hnot. split; [done|by right].
Qed.

Lemma SymN_onRegenerateRoomSecret n rev P old new st :
  isPublicRoomId old = false →
  SymN n st → SymN n (_onRegenerateRoomSecret rev P old new st).
Proof.
  intros Hold [HS Hn].
  assert (Hsteps : steps st (_onRegenerateRoomSecret rev P old new st))
    by (apply ext_onRegenerateRoomSecret, steps_refl).
  assert (Hlen := steps_length_heap _ _ Hsteps).
  split; [|by rewrite Hlen].
  assert (Hmem : ∀ k r, (k, r) ∈ default [] (_rooms st !! old) →
                        (r < n)%nat ∧ Peer.id (deref st r) = k).
  { intros k r Hin. destruct (_rooms st !! old) as [room|] eqn:Hroom.
    - destruct (proj1 (sym_wf st HS) old room Hroom) as (_ & _ & Hk).
      rewrite <- Hn. by apply Hk.
    - by apply elem_of_nil in Hin. }
  destruct (regenerate_loop rev old new n (default [] (_rooms st !! old)) st Hn)
    as (Hr & Hd & Hq).
  { intros k r Hin. by apply (Hmem k r). }
  unfold _onRegenerateRoomSecret in *.
  set (st1 := foldl _ st _) in *.
  assert (Hm : ∀ r k, member_ref (set_rooms (delete old) st1) r k
                      = if decide (r = old) then None else member_ref st r k).
  { intros r k. unfold member_ref. change (_rooms (set_rooms ?f ?s)) with (f (_rooms s)).
    by rewrite member_delete_room, Hr. }
  apply (Sym_update st); try done.
  - eapply wf_steps; [done|apply HS].
  - intros Q. split; [by apply steps_id|].
    change (deref (set_rooms ?f ?s) Q) with (deref s Q).
    destruct (decide (Q < n)%nat) as [HQ|HQ]; [by apply Hq|].
    unfold deref. rewrite !list_lookup_total_alt.
    rewrite (lookup_ge_None_2 (heap st1)), (lookup_ge_None_2 (heap st)); [done|lia|].
    change (heap st1) with (heap (set_rooms (delete old) st1)). lia.
  - change (_roomSecrets (set_rooms ?f ?s)) with (_roomSecrets s). rewrite Hd.
    apply (sym_directory st HS).
  - rewrite Hn. intros Q s HQ Hs. rewrite Hm.
    change (deref (set_rooms ?f ?s) Q) with (deref s Q).
    destruct (Hq Q HQ) as (_ & _ & ->). case_decide as Hc.
    + subst s. split; [|by intros [? ?]]. intros [Hin Hnot]. exfalso. apply Hnot.
      split; [done|].
      apply (sym_secret st HS) in Hin as [x Hx]; [|by rewrite Hn|done].
      assert (x = Q) as -> by (apply (Sym_member st old Q x HS); by rewrite ?Hn).
      unfold member_ref in Hx. destruct (_rooms st !! old) as [room|]; [|done].
      simpl in *. apply alookup_Some_elem in Hx.
      apply list_elem_of_fmap. by exists (Peer.id (deref st Q), Q).
    + rewrite <- (sym_secret st HS) by (by rewrite ?Hn).
      split; [by intros [? _]|]. intros H. split; [done|]. by intros [? _].
  - rewrite Hn. intros Q r HQ Hr'. rewrite Hm.
    change (deref (set_rooms ?f ?s) Q) with (deref s Q).
    destruct (Hq Q HQ) as (_ & -> & _).
    rewrite decide_False by (intros ->; congruence).
    apply (sym_public st HS); by rewrite ?Hn.
  - rewrite Hn. intros Q r HQ. change (deref (set_rooms ?f ?s) Q) with (deref s Q).
    destruct (Hq Q HQ) as (_ & -> & _). apply (sym_public_shape st HS). by rewrite Hn.
  - rewrite Hn. intros Q s HQ. change (deref (set_rooms ?f ?s) Q) with (deref s Q).
    destruct (Hq Q HQ) as (_ & _ & ->). intros [Hin _].
    apply (sym_secrets_shape st HS Q); by rewrite ?Hn.
Qed.

Lemma deref_alloc_new p st : deref (set_heap (λ h, h ++ [p]) st) (length (heap st)) = p.
Proof.
  unfold deref. proj. rewrite lookup_total_app_r by lia.
  by rewrite Nat.sub_diag.
Qed.

(** A connection under a fresh id, from an address that has neither
    shape. *)
Lemma SymN_alloc id ip name rtc st :
  (∀ r, (r < length (heap st))%nat → Peer.id (deref st r) ≠ id) →
  isRoomSecret ip = false → isPublicRoomId ip = false →
  Sym st →
  SymN (S (length (heap st))) (set_heap (λ h, h ++ [Peer.new id ip name rtc]) st).
Proof.
  intros Hfresh Hip1 Hip2 HS.
  set (p := Peer.new id ip name rtc). set (st' := set_heap _ st).
  assert (Hlen : length (heap st') = S (length (heap st))).
  { subst st'. proj. rewrite length_app. simpl. lia. }
  assert (Hd : ∀ Q, (Q < length (heap st'))%nat →
            (Q < length (heap st))%nat ∧ deref st' Q = deref st Q
            ∨ Q = length (heap st) ∧ deref st' Q = p).
  { intros Q HQ. destruct (decide (Q = length (heap st))) as [->|Hne].
    - right. split; [done|apply deref_alloc_new].
    - left. assert (Q < length (heap st))%nat by lia. split; [done|by apply deref_alloc]. }
  assert (Hnew : ∀ r, member_ref st r id = None).
  { intros r. unfold member_ref. destruct (_rooms st !! r) as [room|] eqn:Hroom; [|done].
    simpl. destruct (alookup id room) as [x|] eqn:Hx; [|done]. exfalso.
    destruct (proj1 (sym_wf st HS) r room Hroom) as (_ & _ & Hk).
    destruct (Hk _ _ (alookup_Some_elem _ _ _ Hx)) as [Hlt Hid]. by apply (Hfresh x). }
  split; [|done]. split.
  - apply wf_alloc, HS.
  - intros r1 r2 H1 H2.
    destruct (Hd r1 H1) as [[H1' ->]|[-> ->]], (Hd r2 H2) as [[H2' ->]|[-> ->]];
      try done.
    + by apply (sym_ids st HS).
    + intros Heq. by destruct (Hfresh r1 H1').
    + intros Heq. by destruct (Hfresh r2 H2').
  - intros Q s HQ Hs. destruct (Hd Q HQ) as [[HQ' ->]|[-> ->]].
    + by apply (sym_secret st HS).
    + change (member_ref st' s (Peer.id p)) with (member_ref st s id). rewrite Hnew.
      simpl. split; [by intros ?%elem_of_nil|by intros [? ?]].
  - intros Q r HQ Hr. destruct (Hd Q HQ) as [[HQ' ->]|[-> ->]].
    + by apply (sym_public st HS).
    + change (member_ref st' r (Peer.id p)) with (member_ref st r id). rewrite Hnew.
      simpl. split; [done|by intros [? ?]].
  - intros Q r HQ. destruct (Hd Q HQ) as [[HQ' ->]|[-> ->]]; [|done].
    by apply (sym_public_shape st HS).
  - intros Q s HQ. destruct (Hd Q HQ) as [[HQ' ->]|[-> ->]].
    + by apply (sym_secrets_shape st HS).
    + simpl. by intros ?%elem_of_nil.
  - apply (sym_directory st HS).
  - intros Q HQ. destruct (Hd Q HQ) as [[HQ' ->]|[-> ->]]; [|done].
    by apply (sym_ip st HS).
Qed.

Lemma SymN_onConnection rev now id ip name rtc hash st :
  (∀ r, (r < length (heap st))%nat → Peer.id (deref st r) ≠ id) →
  isRoomSecret ip = false → isPublicRoomId ip = false →
  Sym st → Sym (_onConnection rev now id ip name rtc hash st).
Proof.
  intros Hfresh Hip1 Hip2 HS. unfold _onConnection.
  apply (SymN_send (S (length (heap st)))), SymN_send, SymN_keepAlive.
  - apply Nat.lt_succ_diag_r.
  - by apply SymN_alloc.
Qed.

Lemma Sym_init conf wss : Sym (init conf wss).
Proof.
  assert (Hnone : ∀ P, ¬ (P < length (heap (init conf wss)))%nat).
  { intros P. apply Nat.nlt_0_r. }
  split.
  - apply wf_init.
  - intros r1 r2 H1. by destruct (Hnone r1).
  - intros P s HP. by destruct (Hnone P).
  - intros P r HP. by destruct (Hnone P).
  - intros P r HP. by destruct (Hnone P).
  - intros P s HP. by destruct (Hnone P).
  - intros k e H. by simpl in H.
  - intros P HP. by destruct (Hnone P).
Qed.

(** ** Disciplined runs *)

(** What the clients and the environment have to respect for the
    membership to stay symmetric: a connection comes under an id no peer
    has, from an address that looks neither like a room secret nor like a
    public room id; the public rooms asked for or created have a public
    room id; the secrets named in [room-secrets-deleted] and
    [regenerate-room-secret] do not look like one; and the secret drawn
    for a pairing is a room secret. *)
Definition disciplined (st : Server) (o : Oracle) (i : Input) : bool :=
  match i with
  | Connection id ip _ _ _ =>
    bool_decide (id ∉ Peer.id <$> heap st)
    && negb (isRoomSecret ip) && negb (isPublicRoomId ip)
  | Received _ (Text (RoomSecretsDeleted l)) => forallb (λ s, negb (isPublicRoomId s)) l
  | Received _ (Text PairDeviceInitiate) => isRoomSecret (randomString256 o)
  | Received _ (Text (RegenerateRoomSecret s)) => negb (isPublicRoomId s)
  | Received _ (Text CreatePublicRoom) => isPublicRoomId (randomString5 o)
  | Received _ (Text (JoinPublicRoom r _)) => isPublicRoomId r
  | _ => true
  end.

Section Symmetry.
Variable utf8_decode : list byte → string.

(** The states of the runs all of whose inputs are disciplined. *)
Inductive disciplined_run (rev : revision) (conf : Conf) (wss : Wss) : Server → Prop :=
| disciplined_init : disciplined_run rev conf wss (init conf wss)
| disciplined_step st o i st' :
    disciplined_run rev conf wss st →
    disciplined st o i = true →
    step utf8_decode rev o i st = Some st' →
    disciplined_run rev conf wss st'.

Lemma disciplined_run_reachable rev conf wss st :
  disciplined_run rev conf wss st → reachable utf8_decode rev conf wss st.
Proof. induction 1; [constructor|by econstructor]. Qed.

Lemma SymN_relayBinaryMessage n rev P data st :
  SymN n st → SymN n (_relayBinaryMessage utf8_decode rev P data st).
Proof.
  intros H. unfold _relayBinaryMessage, emit. repeat case_match; try done;
    by apply SymN_emits.
Qed.

Lemma SymN_onMessage n rev o P frame st st' :
  (P < n)%nat → disciplined st o (Received P frame) = true →
  _onMessage utf8_decode rev o P frame st = Some st' →
  SymN n st → SymN n st'.
Proof.
  intros HP Hd Hm HSN.
  destruct frame as [data| |[]]; cbn [_onMessage] in Hm; cbn [disciplined] in Hd;
    try (apply (inj Some) in Hm; subst st').
  - by apply SymN_relayBinaryMessage.
  - done.
  - by apply SymN_disconnect.
  - by apply SymN_setKeepAliveTimerToNow.
  - by apply SymN_joinIpRoom.
  - by apply SymN_onRoomSecrets.
  - apply SymN_onRoomSecretsDeleted; [|done]. intros s Hs.
    rewrite forallb_forall in Hd. apply negb_true_iff, Hd. by apply list_elem_of_In.
  - eapply SymN_onPairDeviceInitiate; [done| |done|done]. by apply isRoomSecret_not_public.
  - by apply SymN_onPairDeviceJoin.
  - by apply SymN_onPairDeviceCancel.
  - apply SymN_onRegenerateRoomSecret; [|done]. by apply negb_true_iff.
  - by apply SymN_onCreatePublicRoom.
  - by apply SymN_onJoinPublicRoom.
  - by apply SymN_onLeavePublicRoom.
  - repeat case_match; apply (inj Some) in Hm; subst st'; try done;
      by apply SymN_signalAndRelay.
Qed.

Lemma Sym_step rev o i st st' :
  disciplined st o i = true → step utf8_decode rev o i st = Some st' → Sym st → Sym st'.
Proof.
  intros Hd Hstep HS.
  destruct i as [id ip name rtc hash|sender frame|h|peer|peer]; unfold step in Hstep;
    cbv beta iota in Hstep.
  - apply (inj Some) in Hstep. subst st'. cbn [disciplined] in Hd.
    apply andb_true_iff in Hd as [[Hid Hip1]%andb_true_iff Hip2].
    apply bool_decide_eq_true in Hid. apply negb_true_iff in Hip1, Hip2.
    apply SymN_onConnection; try done.
    intros r Hr Heq. apply Hid. apply list_elem_of_fmap. exists (deref st r).
    split; [done|]. unfold deref. apply list_elem_of_lookup_total_2. done.
  - case_bool_decide; [|done].
    by apply (SymN_onMessage (length (heap st)) rev o sender frame st st').
  - destruct (timeouts st !! h) as [[[due peer]|]|] eqn:Hh; try done.
    case_bool_decide; [|done]. apply (inj Some) in Hstep. subst st'.
    apply (SymN_keepAlive (length (heap st))).
    + by apply (proj2 (sym_wf st HS) h due).
    + split; [by apply Sym_clearTimeout|done].
  - case_bool_decide; [|done]. apply (inj Some) in Hstep. subst st'.
    apply Sym_set_readyState; [|done].
    intros p. case_bool_decide; [by left|right; by eexists].
  - case_bool_decide; [|done].
    assert (H3 : SymN (length (heap st)) (update_peer peer (Peer.set_readyState 3) st)).
    { split; [|apply length_heap_update_peer].
      apply Sym_set_readyState; [|done]. intros p. right. by eexists. }
    destruct rev; apply (inj Some) in Hstep; subst st'; [apply H3|].
    unfold _onDisconnect. by apply (SymN_disconnect (length (heap st))).
Qed.

Lemma disciplined_run_Sym rev conf wss st : disciplined_run rev conf wss st → Sym st.
Proof.
  induction 1 as [|st o i st' _ IH Hd Hstep]; [apply Sym_init|]. by eapply Sym_step.
Qed.

End Symmetry.

(** ** A secret used as a public room id *)

Lemma disciplined_received utf8 rev conf wss st o sender frame st' :
  disciplined_run utf8 rev conf wss st →
  (sender < length (heap st))%nat →
  disciplined st o (Received sender frame) = true →
  _onMessage utf8 rev o sender frame st = Some st' →
  disciplined_run utf8 rev conf wss st'.
Proof.
  intros H Hs Hd Hm.
  apply (disciplined_step utf8 rev conf wss st o (Received sender frame)); [done..|].
  unfold step. by rewrite bool_decide_true.
Qed.

(** alice, connected, sends [room-secrets] with one secret. *)
Definition ex_one_secret (rev : revision) : Server :=
  _onRoomSecrets rev 0%nat (Some [ex_secret_a]) (ex_alone rev).



Lemma ex_one_secret_reachable rev :
  reachable ex_decode rev ex_conf ex_wss (ex_one_secret rev).
Proof.
  apply (reachable_received ex_decode rev ex_conf ex_wss (ex_alone rev) (ex_oracle 1001) 0%nat
           (Text (RoomSecrets (Some [ex_secret_a])))); [apply ex_alone_reachable| |done].
  destruct rev; vm_compute; lia.
Qed.




(** alice, connected, holds one secret and has created the public room
    "abcde". *)
Definition ex_symmetric (rev : revision) : Server :=
  _onCreatePublicRoom rev 0%nat "abcde" (ex_one_secret rev).

Lemma ex_symmetric_run rev : disciplined_run ex_decode rev ex_conf ex_wss (ex_symmetric rev).
Proof.
  assert (H0 : disciplined_run ex_decode rev ex_conf ex_wss (ex_alone rev)).
  { apply (disciplined_step ex_decode rev ex_conf ex_wss (init ex_conf ex_wss) (ex_oracle 1000)
             (Connection alice ex_ip (ex_name "alice") true "hash-a"));
      [apply disciplined_init|vm_compute; reflexivity|reflexivity]. }
  assert (H1 : disciplined_run ex_decode rev ex_conf ex_wss (ex_one_secret rev)).
  { apply (disciplined_received ex_decode rev ex_conf ex_wss (ex_alone rev) (ex_oracle 1001)
             0%nat (Text (RoomSecrets (Some [ex_secret_a]))));
      [exact H0|destruct rev; vm_compute; lia|reflexivity|reflexivity]. }
  apply (disciplined_received ex_decode rev ex_conf ex_wss (ex_one_secret rev) (ex_oracle 1002)
           0%nat (Text CreatePublicRoom));
    [exact H1|destruct rev; vm_compute; lia|vm_compute; reflexivity|reflexivity].
Qed.


(** ** A second connection under the same id *)

(** alice holds one secret; a second connection comes under her id, sends
    the same secret, and the first connection then says [disconnect]. *)
Definition ex_reconnected (rev : revision) : Server :=
  _onDisconnect rev 0%nat
    (_onRoomSecrets rev 1%nat (Some [ex_secret_a])
       (_onConnection rev 1001 alice ex_ip (ex_name "alice") true "hash-a"
          (ex_one_secret rev))).

(** The ids of the connections have to be fresh: the disconnect of the
    first object removes the entry the second one is filed under, and the
    second still holds the secret. *)
Lemma reconnect_breaks_symmetry rev :
  Peer.id (deref (ex_reconnected rev) 1%nat) = alice
  ∧ Peer.roomSecrets (deref (ex_reconnected rev) 1%nat) = [ex_secret_a]
  ∧ _rooms (ex_reconnected rev) !! ex_secret_a = None.
Proof. destruct rev; repeat split; vm_compute; reflexivity. Qed.

(** * Further properties of the server *)

(** ** The pair key *)

(** The draws [crypto.randomInt(1000000, 1999999)] can give: the upper
    bound is exclusive. *)
Definition in_draw_range (n : N) : bool := ((1000000 <=? n) && (n <? 1999999))%N.

Definition is_digit (a : Ascii.ascii) : bool :=
  let n := Ascii.N_of_ascii a in ((48 <=? n) && (n <=? 57))%N.

Lemma is_digit_pretty_N_char x : is_digit (pretty_N_char x) = true.
Proof.
  destruct x as [|p]; [done|].
  do 4 (destruct p as [p|p|]; try done).
Qed.

Lemma div10_bounds (n a b : N) : (10 * a ≤ n < 10 * b)%N → (a ≤ N.div n 10 < b)%N.
Proof.
  intros [H1 H2]. split.
  - apply N.div_le_lower_bound; [done|lia].
  - apply N.Div0.div_lt_upper_bound. lia.
Qed.

(** The decimal numeral of a draw is a 1 followed by six digits. *)
Lemma pretty_draw n :
  in_draw_range n = true →
  ∃ d1 d2 d3 d4 d5 d6 : N,
    pretty n
    = String "1" (String (pretty_N_char d1) (String (pretty_N_char d2)
        (String (pretty_N_char d3) (String (pretty_N_char d4)
          (String (pretty_N_char d5) (String (pretty_N_char d6) "")))))).
Proof.
  unfold in_draw_range. intros [H1 H2]%andb_true_iff.
  apply N.leb_le in H1. apply N.ltb_lt in H2.
  unfold pretty, pretty_N. rewrite decide_False by lia.
  set (n1 := N.div n 10). set (n2 := N.div n1 10). set (n3 := N.div n2 10).
  set (n4 := N.div n3 10). set (n5 := N.div n4 10). set (n6 := N.div n5 10).
  assert (100000 ≤ n1 < 200000)%N by (apply div10_bounds; lia).
  assert (10000 ≤ n2 < 20000)%N by (apply div10_bounds; lia).
  assert (1000 ≤ n3 < 2000)%N by (apply div10_bounds; lia).
  assert (100 ≤ n4 < 200)%N by (apply div10_bounds; lia).
  assert (10 ≤ n5 < 20)%N by (apply div10_bounds; lia).
  assert (n6 = 1)%N as H6.
  { assert (1 ≤ n6 < 2)%N by (apply div10_bounds; lia). lia. }
  exists (N.modulo n5 10), (N.modulo n4 10), (N.modulo n3 10), (N.modulo n2 10),
    (N.modulo n1 10), (N.modulo n 10).
  rewrite (pretty_N_go_step n) by lia. fold n1.
  rewrite (pretty_N_go_step n1) by lia. fold n2.
  rewrite (pretty_N_go_step n2) by lia. fold n3.
  rewrite (pretty_N_go_step n3) by lia. fold n4.
  rewrite (pretty_N_go_step n4) by lia. fold n5.
  rewrite (pretty_N_go_step n5) by lia. fold n6.
  rewrite (pretty_N_go_step n6) by lia. rewrite H6.
  change (N.div 1 10) with 0%N. by rewrite pretty_N_go_0.
Qed.

(** The key of a draw in the range. *)
Lemma pairKeyOf_shape k :
  in_draw_range k = true →
  pretty k = String "1" (pairKeyOf k)
  ∧ String.length (pairKeyOf k) = 6%nat
  ∧ forallb is_digit (String.list_ascii_of_string (pairKeyOf k)) = true.
Proof.
  intros Hk. destruct (pretty_draw k Hk) as (d1 & d2 & d3 & d4 & d5 & d6 & Hp).
  unfold pairKeyOf, substring_from. rewrite Hp. cbn [String.length Nat.sub String.substring].
  split; [done|]. split; [done|].
  cbn [String.list_ascii_of_string forallb]. by rewrite !is_digit_pretty_N_char.
Qed.

(** X1.  A draw in the range of [crypto.randomInt(1000000, 1999999)] gives
    a pair key of exactly six decimal digits, the numeral of the draw
    without its leading 1; different draws give different keys; and, the
    upper bound being exclusive, the key is never "999999". *)
Theorem pair_key_six_digits n m :
  in_draw_range n = true → in_draw_range m = true →
  pretty n = String "1" (pairKeyOf n)
  ∧ String.length (pairKeyOf n) = 6%nat
  ∧ forallb is_digit (String.list_ascii_of_string (pairKeyOf n)) = true
  ∧ pairKeyOf n ≠ "999999"
  ∧ (pairKeyOf n = pairKeyOf m → n = m).
Proof.
  intros Hn Hm.
  destruct (pairKeyOf_shape n Hn) as (Hp & Hl & Hd). split; [done|]. split; [done|]. split; [done|].
  split.
  - intros Hk. rewrite Hk in Hp.
    change (String "1" "999999") with (pretty 1999999%N) in Hp.
    apply (inj pretty) in Hp. subst n. discriminate Hn.
  - intros Hk. destruct (pairKeyOf_shape m Hm) as (Hpm & _). rewrite <- Hk, <- Hp in Hpm.
    by apply (inj pretty) in Hpm.
Qed.

Lemma pair_key_six_digits_witness :
  (in_draw_range 1000042 = true ∧ in_draw_range 1999998 = true)
  ∧ pairKeyOf 1000042 = "000042"
  ∧ pretty 1000042%N = String "1" (pairKeyOf 1000042)
  ∧ pairKeyOf 1000042 ≠ "999999"
  ∧ (pairKeyOf 1000042 = pairKeyOf 1999998 → 1000042%N = 1999998%N).
Proof.
  assert (H1 : in_draw_range 1000042 = true) by (vm_compute; reflexivity).
  assert (H2 : in_draw_range 1999998 = true) by (vm_compute; reflexivity).
  destruct (pair_key_six_digits 1000042 1999998 H1 H2) as (Hp & _ & _ & Hne & Hinj).
  split; [exact (conj H1 H2)|]. split; [vm_compute; reflexivity|].
  exact (conj Hp (conj Hne Hinj)).
Defined.

(** ** The pair-key directory *)

Lemma _createPairKey_spec creator roomSecret draws st :
  match _createPairKey creator roomSecret draws st with
  | Some (k, st') =>
    ∃ taken n rest,
      draws = taken ++ n :: rest
      ∧ (∀ m, m ∈ taken → is_Some (_roomSecrets st !! pairKeyOf m))
      ∧ k = pairKeyOf n
      ∧ _roomSecrets st !! k = None
      ∧ st' = set_roomSecrets
                (<[k := {| roomSecret := roomSecret; creator := creator |}]>) st
  | None => ∀ m, m ∈ draws → is_Some (_roomSecrets st !! pairKeyOf m)
  end.
Proof.
  induction draws as [|n draws IH]; simpl.
  - by intros m ?%elem_of_nil.
  - destruct (_roomSecrets st !! pairKeyOf n) as [e|] eqn:Hn.
    + destruct (_createPairKey creator roomSecret draws st) as [[k st']|].
      * destruct IH as (taken & n' & rest & -> & Ht & -> & Hfree & ->).
        exists (n :: taken), n', rest. split; [done|]. split; [|done].
        intros m [->|Hm]%elem_of_cons; [by rewrite Hn|by apply Ht].
      * intros m [->|Hm]%elem_of_cons; [by rewrite Hn|by apply IH].
    + exists [], n, draws. split; [done|]. split; [|done]. by intros m ?%elem_of_nil.
Qed.

(** X2.  [_createPairKey] takes the first draw whose key is free: the
    draws before it are all taken, the key was not in the directory and
    now maps to the secret and the creator, and every other entry, every
    peer, the rooms and the wire are as before.  With no free key among
    the draws the loop has not ended. *)
Theorem createPairKey_first_free creator roomSecret draws st :
  match _createPairKey creator roomSecret draws st with
  | Some (k, st') =>
    ∃ taken n rest,
      draws = taken ++ n :: rest
      ∧ (∀ m, m ∈ taken → is_Some (_roomSecrets st !! pairKeyOf m))
      ∧ k = pairKeyOf n
      ∧ _roomSecrets st !! k = None
      ∧ st' = set_roomSecrets
                (<[k := {| roomSecret := roomSecret; creator := creator |}]>) st
  | None => ∀ m, m ∈ draws → is_Some (_roomSecrets st !! pairKeyOf m)
  end.
Proof. apply _createPairKey_spec. Qed.

(** X3.  [_removePairKey] looks the key up as a property name, [null]
    being the name "null".  A key that is not in the directory changes
    nothing.  Otherwise the entry is gone, the [pairKey] of its creator
    is [null], and every other entry, every other peer, the rooms and the
    wire are as before.  Removing twice is removing once, and removing a
    key that [_createPairKey] has just filed gives the directory back. *)
Theorem removePairKey_entry k st :
  (_roomSecrets st !! property_key k = None → _removePairKey k st = st)
  ∧ (∀ e, _roomSecrets st !! property_key k = Some e →
       _roomSecrets (_removePairKey k st) = delete (property_key k) (_roomSecrets st)
       ∧ ((creator e < length (heap st))%nat →
          Peer.pairKey (deref (_removePairKey k st) (creator e)) = None)
       ∧ (∀ r, r ≠ creator e → deref (_removePairKey k st) r = deref st r)
       ∧ _rooms (_removePairKey k st) = _rooms st
       ∧ wire (_removePairKey k st) = wire st)
  ∧ _removePairKey k (_removePairKey k st) = _removePairKey k st
  ∧ (∀ creator roomSecret draws key st',
       _createPairKey creator roomSecret draws st = Some (key, st') →
       _roomSecrets (_removePairKey (Some key) st') = _roomSecrets st).
Proof.
  split; [|split; [|split]].
  - intros H. unfold _removePairKey. by rewrite H.
  - intros e He. unfold _removePairKey. rewrite He.
    split; [done|]. split; [|split; [|done]].
    + intros Hc. change (deref (set_roomSecrets ?f ?s) ?r) with (deref s r).
      by rewrite deref_update_peer_eq.
    + intros r Hr. change (deref (set_roomSecrets ?f ?s) ?r) with (deref s r).
      by rewrite deref_update_peer_ne.
  - assert (Hgone : _roomSecrets (_removePairKey k st) !! property_key k = None).
    { unfold _removePairKey.
      destruct (_roomSecrets st !! property_key k) as [e|] eqn:He; [|done].
      change (_roomSecrets (set_roomSecrets ?f ?s)) with (f (_roomSecrets s)).
      apply lookup_delete_eq. }
    generalize dependent (_removePairKey k st). intros st1 Hgone.
    unfold _removePairKey. by rewrite Hgone.
  - intros creator roomSecret draws key st' Hc.
    pose proof (_createPairKey_spec creator roomSecret draws st) as H.
    rewrite Hc in H. destruct H as (taken & n & rest & _ & _ & _ & Hfree & ->).
    unfold _removePairKey. simpl property_key.
    change (_roomSecrets (set_roomSecrets ?f ?s)) with (f (_roomSecrets s)).
    rewrite lookup_insert_eq.
    change (_roomSecrets (set_roomSecrets ?f ?s)) with (f (_roomSecrets s)).
    change (_roomSecrets (update_peer ?r ?f ?s)) with (_roomSecrets s).
    change (_roomSecrets (set_roomSecrets ?f ?s)) with (f (_roomSecrets s)).
    by rewrite delete_insert_eq, delete_id.
Qed.

(** ** What the room handlers leave alone *)

(** Two states with the same pair-key directory, keep-alive records and
    timers, and the same peers as to their ids and pair keys. *)
Definition same_core (st st' : Server) : Prop :=
  _roomSecrets st' = _roomSecrets st
  ∧ _keepAliveTimers st' = _keepAliveTimers st
  ∧ timeouts st' = timeouts st
  ∧ length (heap st') = length (heap st)
  ∧ ∀ r, Peer.id (deref st' r) = Peer.id (deref st r)
         ∧ Peer.pairKey (deref st' r) = Peer.pairKey (deref st r).

Lemma core_refl st : same_core st st.
Proof. by repeat split. Qed.

Lemma core_emits es st0 st : same_core st0 st → same_core st0 (emits es st).
Proof. done. Qed.

Lemma core_set_rooms f st0 st : same_core st0 st → same_core st0 (set_rooms f st).
Proof. done. Qed.

Lemma core_update_peer r f st0 st :
  (∀ p, Peer.id (f p) = Peer.id p ∧ Peer.pairKey (f p) = Peer.pairKey p) →
  same_core st0 st → same_core st0 (update_peer r f st).
Proof.
  intros Hf (H1 & H2 & H3 & H4 & H5). split; [done|]. split; [done|]. split; [done|].
  split; [by rewrite length_heap_update_peer|].
  intros q. rewrite deref_update_peer. case_decide; [|done].
  destruct (Hf (deref st q)) as [-> ->]. apply H5.
Qed.

Lemma core_send rev p m st0 st : same_core st0 st → same_core st0 (_send rev p m st).
Proof. intros H. destruct p as [r|]; [|done]. rewrite _send_Some. by apply core_emits. Qed.

Lemma core_addRoomSecret r s st0 st :
  same_core st0 st → same_core st0 (update_peer r (Peer.addRoomSecret s) st).
Proof. apply core_update_peer. intros p. unfold Peer.addRoomSecret. by case_decide. Qed.

Lemma core_removeRoomSecret r s st0 st :
  same_core st0 st → same_core st0 (update_peer r (Peer.removeRoomSecret s) st).
Proof. by apply core_update_peer. Qed.

Lemma core_set_publicRoomId r k st0 st :
  same_core st0 st → same_core st0 (update_peer r (Peer.set_publicRoomId k) st).
Proof. by apply core_update_peer. Qed.

Lemma core_leaveRoom rev peer roomType roomId disconnect st0 st :
  same_core st0 st → same_core st0 (_leaveRoom rev peer roomType roomId disconnect st).
Proof. intros H. by rewrite _leaveRoom_spec. Qed.

Lemma core_joinRoom rev peer roomType roomId st0 st :
  same_core st0 st → same_core st0 (_joinRoom rev peer roomType roomId st).
Proof. intros H. by rewrite _joinRoom_spec. Qed.

Create HintDb frame.
#[export] Hint Resolve core_refl core_emits core_set_rooms core_send core_addRoomSecret
  core_removeRoomSecret core_set_publicRoomId core_leaveRoom core_joinRoom : frame.

Ltac core_cases := repeat (case_match; try done); eauto 20 with frame.

Lemma core_joinIpRoom rev peer st0 st : same_core st0 st → same_core st0 (_joinIpRoom rev peer st).
Proof. unfold _joinIpRoom. core_cases. Qed.

Lemma core_joinSecretRoom rev peer roomSecret st0 st :
  same_core st0 st → same_core st0 (_joinSecretRoom rev peer roomSecret st).
Proof. unfold _joinSecretRoom. core_cases. Qed.

Lemma core_leaveIpRoom rev peer disconnect st0 st :
  same_core st0 st → same_core st0 (_leaveIpRoom rev peer disconnect st).
Proof. unfold _leaveIpRoom. core_cases. Qed.

Lemma core_leaveSecretRoom rev peer roomSecret disconnect st0 st :
  same_core st0 st → same_core st0 (_leaveSecretRoom rev peer roomSecret disconnect st).
Proof. unfold _leaveSecretRoom. core_cases. Qed.

Lemma core_leavePublicRoom rev peer disconnect st0 st :
  same_core st0 st → same_core st0 (_leavePublicRoom rev peer disconnect st).
Proof. unfold _leavePublicRoom. intros. core_cases. Qed.

#[export] Hint Resolve core_joinIpRoom core_joinSecretRoom core_leaveIpRoom
  core_leaveSecretRoom core_leavePublicRoom : frame.

Lemma core_joinPublicRoom rev peer publicRoomId st0 st :
  same_core st0 st → same_core st0 (_joinPublicRoom rev peer publicRoomId st).
Proof. unfold _joinPublicRoom. core_cases. Qed.

Lemma core_foldl {A} (f : Server → A → Server) l st0 st :
  (∀ s x, same_core st0 s → same_core st0 (f s x)) →
  same_core st0 st → same_core st0 (foldl f st l).
Proof.
  revert st. induction l as [|x l IH]; intros st Hf Hst; simpl; [done|].
  apply IH; [done|]. by apply Hf.
Qed.

Lemma core_joinSecretRooms rev peer roomSecrets st0 st :
  same_core st0 st → same_core st0 (_joinSecretRooms rev peer roomSecrets st).
Proof. unfold _joinSecretRooms. apply core_foldl. intros. core_cases. Qed.

Lemma core_leaveAllSecretRooms rev peer disconnect st0 st :
  same_core st0 st → same_core st0 (_leaveAllSecretRooms rev peer disconnect st).
Proof.
  unfold _leaveAllSecretRooms. generalize (length (Peer.roomSecrets (deref st peer))) 0%nat.
  intros fuel. revert st. induction fuel as [|fuel IH]; intros st i H; simpl; [done|].
  case_match; [|done]. apply IH. core_cases.
Qed.

Lemma core_terminate peer st0 st : same_core st0 st → same_core st0 (terminate peer st).
Proof.
  intros H. unfold terminate, emit. apply core_emits, core_update_peer; [|done].
  intros p. by case_bool_decide.
Qed.

#[export] Hint Resolve core_joinPublicRoom core_joinSecretRooms core_leaveAllSecretRooms
  core_terminate : frame.

Lemma core_onRoomSecrets rev sender l st0 st :
  same_core st0 st → same_core st0 (_onRoomSecrets rev sender l st).
Proof. unfold _onRoomSecrets. intros. core_cases. Qed.

Lemma core_deleteSecretRoom rev roomSecret st0 st :
  same_core st0 st → same_core st0 (_deleteSecretRoom rev roomSecret st).
Proof.
  unfold _deleteSecretRoom. intros H. case_match; [|done].
  apply core_foldl; [|done]. intros s [k o] Hs. core_cases.
Qed.

#[export] Hint Resolve core_onRoomSecrets core_deleteSecretRoom : frame.

Lemma core_onRoomSecretsDeleted rev sender l st0 st :
  same_core st0 st → same_core st0 (_onRoomSecretsDeleted rev sender l st).
Proof. unfold _onRoomSecretsDeleted. apply core_foldl. intros. core_cases. Qed.

Lemma core_onCreatePublicRoom rev sender publicRoomId st0 st :
  same_core st0 st → same_core st0 (_onCreatePublicRoom rev sender publicRoomId st).
Proof. unfold _onCreatePublicRoom. intros. core_cases. Qed.

Lemma core_onJoinPublicRoom rev sender limited publicRoomId createIfInvalid st0 st :
  same_core st0 st →
  same_core st0 (_onJoinPublicRoom rev sender limited publicRoomId createIfInvalid st).
Proof. unfold _onJoinPublicRoom. intros. core_cases. Qed.

Lemma core_onLeavePublicRoom rev sender st0 st :
  same_core st0 st → same_core st0 (_onLeavePublicRoom rev sender st).
Proof. unfold _onLeavePublicRoom. intros. core_cases. Qed.

Lemma core_onRegenerateRoomSecret rev sender old new st0 st :
  same_core st0 st → same_core st0 (_onRegenerateRoomSecret rev sender old new st).
Proof.
  unfold _onRegenerateRoomSecret. intros H. apply core_set_rooms.
  apply core_foldl; [|done]. intros s [k o] Hs. core_cases.
Qed.

Lemma core_signalAndRelay rev sender message st0 st :
  same_core st0 st → same_core st0 (_signalAndRelay rev sender message st).
Proof. unfold _signalAndRelay. intros. core_cases. Qed.

#[export] Hint Resolve core_onRoomSecretsDeleted core_onCreatePublicRoom
  core_onJoinPublicRoom core_onLeavePublicRoom core_onRegenerateRoomSecret
  core_signalAndRelay : frame.

(** The first four statements of [_disconnect]: the pair key, then the
    keep-alive record. *)
Definition unlink (sender : ref) (st : Server) : Server :=
  let st := _removePairKey (Peer.pairKey (deref st sender)) st in
  let st := update_peer sender (Peer.set_pairKey None) st in
  let st := _cancelKeepAlive sender st in
  set_keepAliveTimers (delete (Peer.id (deref st sender))) st.

(** The rest of [_disconnect] is room leaves and [terminate]. *)
Lemma _disconnect_unlink rev sender st : same_core (unlink sender st) (_disconnect rev sender st).
Proof.
  unfold _disconnect. cbv zeta. fold (unlink sender st).
  destruct rev; [|case_bool_decide]; eauto 20 with frame.
Qed.

(** ** One keep-alive timer per peer id *)

(** Every pending timer is the one recorded for the id of its peer. *)
Definition TimerInv (st : Server) : Prop :=
  ∀ h due p, timeouts st !! h = Some (Some (due, p)) →
    (p < length (heap st))%nat
    ∧ ∃ ka, _keepAliveTimers st !! Peer.id (deref st p) = Some ka ∧ timer ka = Some h.

Lemma TimerInv_ext st st' :
  _keepAliveTimers st' = _keepAliveTimers st → timeouts st' = timeouts st →
  length (heap st') = length (heap st) →
  (∀ r, Peer.id (deref st' r) = Peer.id (deref st r)) →
  TimerInv st → TimerInv st'.
Proof.
  intros Hk Ht Hl Hid H h due p. rewrite Ht, Hk, Hl, Hid. apply H.
Qed.

Lemma TimerInv_core st st' : same_core st st' → TimerInv st → TimerInv st'.
Proof. intros (_ & ? & ? & ? & Hr). apply TimerInv_ext; try done. intros r. apply Hr. Qed.

Lemma TimerInv_update_peer r f st :
  (∀ p, Peer.id (f p) = Peer.id p) → TimerInv st → TimerInv (update_peer r f st).
Proof.
  intros Hf. apply TimerInv_ext; try done.
  - apply length_heap_update_peer.
  - intros q. rewrite deref_update_peer. by case_decide.
Qed.

Lemma TimerInv_removePairKey k st : TimerInv st → TimerInv (_removePairKey k st).
Proof.
  apply TimerInv_ext.
  - apply ka_removePairKey.
  - unfold _removePairKey. by case_match.
  - apply _removePairKey_length_heap.
  - intros r. apply id_removePairKey.
Qed.

Lemma TimerInv_set_roomSecrets f st : TimerInv st → TimerInv (set_roomSecrets f st).
Proof. by apply TimerInv_ext. Qed.

Lemma TimerInv_send rev p m st : TimerInv st → TimerInv (_send rev p m st).
Proof. apply TimerInv_core. eauto with frame. Qed.

(** After [_cancelKeepAlive] no timer is pending for the id of the peer. *)
Lemma _cancelKeepAlive_pending P st h due p :
  TimerInv st →
  timeouts (_cancelKeepAlive P st) !! h = Some (Some (due, p)) →
  timeouts st !! h = Some (Some (due, p)) ∧ Peer.id (deref st p) ≠ Peer.id (deref st P).
Proof.
  intros HT. unfold _cancelKeepAlive.
  destruct (_keepAliveTimers st !! Peer.id (deref st P)) as [[[h0|] beat]|] eqn:Hrec.
  - change (timeouts (clearTimeout h0 st)) with (<[h0 := None]> (timeouts st)).
    intros Hh. destruct (decide (h = h0)) as [->|Hne].
    + apply list_lookup_insert_Some in Hh as [[_ [? _]]|[? _]]; done.
    + rewrite list_lookup_insert_ne in Hh by done. split; [done|].
      intros Heq. destruct (HT h due p Hh) as (_ & ka & Hka & Ht).
      rewrite Heq, Hrec in Hka. injection Hka as <-. simpl in Ht. congruence.
  - intros Hh. split; [done|]. intros Heq.
    destruct (HT h due p Hh) as (_ & ka & Hka & Ht).
    rewrite Heq, Hrec in Hka. by injection Hka as <-.
  - intros Hh. split; [done|]. intros Heq.
    destruct (HT h due p Hh) as (_ & ka & Hka & Ht).
    by rewrite Heq, Hrec in Hka.
Qed.

Lemma TimerInv_cancelKeepAlive P st : TimerInv st → TimerInv (_cancelKeepAlive P st).
Proof.
  intros HT h due p Hh.
  destruct (_cancelKeepAlive_pending P st h due p HT Hh) as [Hh' _].
  destruct (HT h due p Hh') as (Hp & ka & Hka & Ht).
  assert (Hsame : _keepAliveTimers (_cancelKeepAlive P st) = _keepAliveTimers st
                  ∧ heap (_cancelKeepAlive P st) = heap st).
  { unfold _cancelKeepAlive. by repeat case_match. }
  destruct Hsame as [Hk Hheap]. unfold deref. rewrite Hk, Hheap. split; [done|]. by exists ka.
Qed.

Lemma TimerInv_unlink P st :
  TimerInv st →
  TimerInv (unlink P st)
  ∧ _keepAliveTimers (unlink P st) !! Peer.id (deref st P) = None
  ∧ ∀ h due p, timeouts (unlink P st) !! h = Some (Some (due, p)) →
               Peer.id (deref st p) ≠ Peer.id (deref st P).
Proof.
  intros HT. unfold unlink. cbv zeta.
  set (st2 := update_peer P (Peer.set_pairKey None) (_removePairKey _ st)).
  assert (Hid : ∀ r, Peer.id (deref st2 r) = Peer.id (deref st r)).
  { intros r. subst st2. rewrite deref_update_peer.
    case_decide; simpl; apply id_removePairKey. }
  assert (H2 : TimerInv st2).
  { subst st2. by apply TimerInv_update_peer, TimerInv_removePairKey. }
  rewrite id_cancelKeepAlive, Hid.
  assert (Hpend : ∀ h due p,
            timeouts (_cancelKeepAlive P st2) !! h = Some (Some (due, p)) →
            Peer.id (deref st p) ≠ Peer.id (deref st P)).
  { intros h due p Hh. rewrite <- !Hid. by eapply _cancelKeepAlive_pending. }
  split; [|split].
  - intros h due p Hh.
    change (timeouts (set_keepAliveTimers ?f ?s)) with (timeouts s) in Hh.
    destruct (TimerInv_cancelKeepAlive P st2 H2 h due p Hh) as (Hp & ka & Hka & Ht).
    split; [done|]. exists ka. split; [|done].
    change (_keepAliveTimers (set_keepAliveTimers ?f ?s)) with (f (_keepAliveTimers s)).
    change (deref (set_keepAliveTimers ?f ?s) p) with (deref s p).
    rewrite lookup_delete_ne; [done|].
    rewrite id_cancelKeepAlive, Hid. intros Heq. by apply (Hpend h due p).
  - change (_keepAliveTimers (set_keepAliveTimers ?f ?s)) with (f (_keepAliveTimers s)).
    apply lookup_delete_eq.
  - intros h due p Hh. by apply (Hpend h due p).
Qed.

Lemma TimerInv_disconnect rev P st : TimerInv st → TimerInv (_disconnect rev P st).
Proof.
  intros HT. eapply TimerInv_core; [apply _disconnect_unlink|]. by apply TimerInv_unlink.
Qed.

Lemma TimerInv_keepAlive rev now P st :
  (P < length (heap st))%nat → TimerInv st → TimerInv (_keepAlive rev now P st).
Proof.
  intros HP HT. unfold _keepAlive.
  set (st1 := _cancelKeepAlive P st).
  assert (H1 : TimerInv st1) by (by apply TimerInv_cancelKeepAlive).
  assert (Hd1 : ∀ r, deref st1 r = deref st r) by (intros r; apply id_cancelKeepAlive).
  assert (Hpend : ∀ h due p, timeouts st1 !! h = Some (Some (due, p)) →
            Peer.id (deref st1 p) ≠ Peer.id (deref st1 P)).
  { intros h due p Hh. rewrite !Hd1. by eapply _cancelKeepAlive_pending. }
  set (st2 := match _keepAliveTimers st1 !! _ with None => _ | Some _ => st1 end).
  assert (H2 : TimerInv st2 ∧ timeouts st2 = timeouts st1 ∧ heap st2 = heap st1
               ∧ is_Some (_keepAliveTimers st2 !! Peer.id (deref st1 P))).
  { subst st2. destruct (_keepAliveTimers st1 !! Peer.id (deref st1 P)) as [ka|] eqn:Hka.
    - split; [done|]. split; [done|]. split; [done|]. by rewrite Hka.
    - split; [|split; [done|split; [done|]]].
      + intros h due p Hh. destruct (H1 h due p Hh) as (Hp & ka & Hk & Ht).
        split; [done|]. exists ka. split; [|done].
        change (_keepAliveTimers (set_keepAliveTimers ?f ?s)) with (f (_keepAliveTimers s)).
        change (deref (set_keepAliveTimers ?f ?s) p) with (deref s p).
        rewrite lookup_insert_ne; [done|]. intros Heq. by apply (Hpend h due p).
      + change (_keepAliveTimers (set_keepAliveTimers ?f ?s)) with (f (_keepAliveTimers s)).
        rewrite lookup_insert_eq. by eexists. }
  destruct H2 as (H2 & Ht2 & Hh2 & [ka2 Hka2]).
  assert (Hd2 : ∀ r, deref st2 r = deref st1 r) by (intros r; unfold deref; by rewrite Hh2).
  case_bool_decide; [by apply TimerInv_disconnect|].
  rewrite _send_Some.
  change (timeouts (emits ?es ?s)) with (timeouts s).
  intros h due p Hh.
  set (stF := set_keepAliveTimers (alter _ _) _) in *.
  assert (HtF : timeouts stF = timeouts st2 ++ [Some (now + timeout, P)]) by done.
  assert (HhF : heap stF = heap st1) by (by rewrite <- Hh2).
  assert (HkF : _keepAliveTimers stF
                = alter (λ r, {| timer := Some (length (timeouts st2));
                                 lastBeat := lastBeat r |})
                    (Peer.id (deref st1 P)) (_keepAliveTimers st2)) by done.
  assert (Hheap1 : heap st1 = heap st).
  { unfold st1, _cancelKeepAlive. by repeat case_match. }
  unfold deref at 1. rewrite HhF, HkF. fold (deref st1 p). rewrite HtF in Hh.
  apply lookup_app_Some in Hh as [Hh|[Hlen Hh]].
  - assert (Hne : Peer.id (deref st1 p) ≠ Peer.id (deref st1 P)).
    { apply (Hpend h due). by rewrite <- Ht2. }
    destruct (H2 h due p Hh) as (Hp & ka & Hk & Ht). rewrite Hd2 in Hk. rewrite Hh2 in Hp.
    split; [done|]. exists ka. split; [|done]. by rewrite lookup_alter_ne.
  - apply list_lookup_singleton_Some in Hh as [Hn Heq]. injection Heq as <- <-.
    split; [by rewrite Hheap1|].
    rewrite lookup_alter_eq, Hka2. simpl. eexists. split; [done|]. simpl. f_equal.
    apply Nat.le_antisymm; [done|]. by apply Nat.sub_0_le.
Qed.

Lemma TimerInv_setKeepAliveTimerToNow now P st :
  TimerInv st → TimerInv (_setKeepAliveTimerToNow now P st).
Proof.
  intros HT. unfold _setKeepAliveTimerToNow.
  destruct (_keepAliveTimers st !! Peer.id (deref st P)) as [r|] eqn:Hr; [|done].
  case_bool_decide; [|done].
  intros h due p Hh. destruct (HT h due p Hh) as (Hp & ka & Hk & Ht). split; [done|].
  change (_keepAliveTimers (set_keepAliveTimers ?f ?s)) with (f (_keepAliveTimers s)).
  change (deref (set_keepAliveTimers ?f ?s) p) with (deref s p).
  destruct (decide (Peer.id (deref st p) = Peer.id (deref st P))) as [Heq|Hne].
  - rewrite Heq, lookup_insert_eq. eexists. split; [done|]. simpl.
    rewrite Heq, Hr in Hk. by injection Hk as <-.
  - rewrite lookup_insert_ne by done. by exists ka.
Qed.

Lemma TimerInv_onPairDeviceInitiate rev P s draws st st' :
  _onPairDeviceInitiate rev P s draws st = Some st' → TimerInv st → TimerInv st'.
Proof.
  unfold _onPairDeviceInitiate. intros Hi HT.
  destruct (_createPairKey P s draws st) as [[k st1]|] eqn:Hc; [|done].
  apply _createPairKey_steps in Hc as [f ->]. apply (inj Some) in Hi. subst st'.
  eapply TimerInv_core; [apply core_joinSecretRoom, core_refl|].
  apply TimerInv_send, TimerInv_update_peer; [done|].
  case_match; [apply TimerInv_removePairKey|]; by apply TimerInv_set_roomSecrets.
Qed.

Lemma TimerInv_onPairDeviceJoin rev P limited k st :
  TimerInv st → TimerInv (_onPairDeviceJoin rev P limited k st).
Proof.
  intros HT. unfold _onPairDeviceJoin.
  destruct limited; [by apply TimerInv_send|].
  destruct (_roomSecrets st !! k) as [e|]; [|by apply TimerInv_send].
  case_decide; [by apply TimerInv_send|].
  apply TimerInv_removePairKey.
  eapply TimerInv_core; [apply core_joinSecretRoom, core_refl|].
  by do 2 apply TimerInv_send; apply TimerInv_removePairKey.
Qed.

Lemma TimerInv_onPairDeviceCancel rev P st :
  TimerInv st → TimerInv (_onPairDeviceCancel rev P st).
Proof.
  intros HT. unfold _onPairDeviceCancel. repeat case_match; try done.
  by apply TimerInv_send, TimerInv_removePairKey.
Qed.

Lemma TimerInv_alloc p st : TimerInv st → TimerInv (set_heap (λ h, h ++ [p]) st).
Proof.
  intros HT h due q Hh. destruct (HT h due q Hh) as (Hq & ka & Hk & Ht).
  proj. rewrite length_app. split; [lia|]. exists ka. split; [|done].
  by rewrite deref_alloc.
Qed.

Lemma TimerInv_onConnection rev now id ip name rtc hash st :
  TimerInv st → TimerInv (_onConnection rev now id ip name rtc hash st).
Proof.
  intros HT. unfold _onConnection. do 2 apply TimerInv_send.
  apply TimerInv_keepAlive; [|by apply TimerInv_alloc].
  proj. rewrite length_app. simpl. lia.
Qed.

Lemma TimerInv_clearTimeout h st : TimerInv st → TimerInv (clearTimeout h st).
Proof.
  intros HT h' due p Hh.
  change (timeouts (clearTimeout h st)) with (<[h := None]> (timeouts st)) in Hh.
  apply list_lookup_insert_Some in Hh as [[_ [? _]]|[_ Hh]]; [done|]. by apply (HT h' due p).
Qed.

Section Timers.
Variable utf8_decode : list byte → string.

Lemma core_relayBinaryMessage rev sender data st0 st :
  same_core st0 st → same_core st0 (_relayBinaryMessage utf8_decode rev sender data st).
Proof. unfold _relayBinaryMessage, emit. intros. core_cases. Qed.

Lemma TimerInv_onMessage rev o P frame st st' :
  (P < length (heap st))%nat →
  _onMessage utf8_decode rev o P frame st = Some st' → TimerInv st → TimerInv st'.
Proof.
  intros HP Hm HT.
  destruct frame as [data| |[]]; cbn [_onMessage] in Hm;
    try (apply (inj Some) in Hm; subst st');
    try (eapply TimerInv_core; [|exact HT]; eauto using core_relayBinaryMessage with frame; fail).
  - by apply TimerInv_disconnect.
  - by apply TimerInv_setKeepAliveTimerToNow.
  - by eapply TimerInv_onPairDeviceInitiate.
  - by apply TimerInv_onPairDeviceJoin.
  - by apply TimerInv_onPairDeviceCancel.
  - repeat case_match; apply (inj Some) in Hm; subst st'; try done;
      (eapply TimerInv_core; [|exact HT]; eauto with frame).
Qed.

Lemma TimerInv_step rev o i st st' :
  step utf8_decode rev o i st = Some st' → TimerInv st → TimerInv st'.
Proof.
  intros Hstep HT.
  destruct i as [id ip name rtc hash|sender frame|h|peer|peer]; unfold step in Hstep;
    cbv beta iota in Hstep.
  - apply (inj Some) in Hstep. subst st'. by apply TimerInv_onConnection.
  - case_bool_decide; [|done]. by eapply TimerInv_onMessage.
  - destruct (timeouts st !! h) as [[[due peer]|]|] eqn:Hh; try done.
    case_bool_decide; [|done]. apply (inj Some) in Hstep. subst st'.
    apply TimerInv_keepAlive; [|by apply TimerInv_clearTimeout].
    change (heap (clearTimeout h st)) with (heap st). by apply (HT h due peer).
  - case_bool_decide; [|done]. apply (inj Some) in Hstep. subst st'.
    apply TimerInv_update_peer; [|done]. intros p. by case_bool_decide.
  - case_bool_decide; [|done].
    assert (H3 : TimerInv (update_peer peer (Peer.set_readyState 3) st))
      by (by apply TimerInv_update_peer).
    destruct rev; apply (inj Some) in Hstep; subst st'; [done|].
    by apply TimerInv_disconnect.
Qed.

Lemma reachable_TimerInv rev conf wss st :
  reachable utf8_decode rev conf wss st → TimerInv st.
Proof.
  induction 1 as [|st o i st' _ IH Hstep]; [|by eapply TimerInv_step].
  intros h due p Hh. by simpl in Hh.
Qed.

(** X4.  In every state the server can reach, a pending keep-alive timer
    is the one the keep-alive record of its peer's id names: two pending
    timers of peers with the same id are one timer, so no peer is ticked
    twice in a period. *)
Theorem one_timer_per_peer rev conf wss st h1 h2 due1 due2 p1 p2 :
  reachable utf8_decode rev conf wss st →
  timeouts st !! h1 = Some (Some (due1, p1)) →
  timeouts st !! h2 = Some (Some (due2, p2)) →
  Peer.id (deref st p1) = Peer.id (deref st p2) →
  h1 = h2
  ∧ (timer <$> _keepAliveTimers st !! Peer.id (deref st p1)) = Some (Some h1).
Proof.
  intros Hr H1 H2 Hid. apply reachable_TimerInv in Hr.
  destruct (Hr h1 due1 p1 H1) as (_ & ka1 & Hk1 & Ht1).
  destruct (Hr h2 due2 p2 H2) as (_ & ka2 & Hk2 & Ht2).
  rewrite <- Hid, Hk1 in Hk2. injection Hk2 as <-.
  split; [congruence|]. rewrite Hk1. simpl. by rewrite Ht1.
Qed.

(** X5.  After [_disconnect] of a peer, in a state the server can reach:
    the peer has no pair key, its id has no keep-alive record and no timer
    is pending for a peer of that id, so no tick will ping it; and a
    [pong] that still comes from it changes nothing. *)
Theorem disconnect_stops_keep_alive rev conf wss st P now :
  reachable utf8_decode rev conf wss st →
  (P < length (heap st))%nat →
  Peer.pairKey (deref (_disconnect rev P st) P) = None
  ∧ _keepAliveTimers (_disconnect rev P st) !! Peer.id (deref st P) = None
  ∧ (∀ h due p, timeouts (_disconnect rev P st) !! h = Some (Some (due, p)) →
                Peer.id (deref st p) ≠ Peer.id (deref st P))
  ∧ _setKeepAliveTimerToNow now P (_disconnect rev P st) = _disconnect rev P st.
Proof.
  intros Hr HP. apply reachable_TimerInv in Hr.
  destruct (_disconnect_unlink rev P st) as (_ & Hk & Ht & _ & Hd).
  destruct (TimerInv_unlink P st Hr) as (_ & Hrec & Hpend).
  assert (Hid : Peer.id (deref (_disconnect rev P st) P) = Peer.id (deref st P)).
  { apply steps_id. apply ext_disconnect, steps_refl. }
  split; [|split; [|split]].
  - destruct (Hd P) as [_ ->]. unfold unlink. cbv zeta.
    change (deref (set_keepAliveTimers ?f ?s) P) with (deref s P).
    rewrite id_cancelKeepAlive, deref_update_peer_eq; [done|].
    by rewrite _removePairKey_length_heap.
  - by rewrite Hk.
  - intros h due p. rewrite Ht. apply Hpend.
  - unfold _setKeepAliveTimerToNow. by rewrite Hid, Hk, Hrec.
Qed.
End Timers.

(** ** The pair keys and their creators *)

(** A key of six decimal digits. *)
Definition isPairKey (k : string) : bool :=
  bool_decide (String.length k = 6%nat)
  && forallb is_digit (String.list_ascii_of_string k).

(** Every entry of the directory is filed under a six-digit key that is
    the [pairKey] of its creator, and the [pairKey] of a peer names an
    entry it has created. *)
Definition PairInv (st : Server) : Prop :=
  (∀ k e, _roomSecrets st !! k = Some e →
     isPairKey k = true ∧ (creator e < length (heap st))%nat
     ∧ Peer.pairKey (deref st (creator e)) = Some k)
  ∧ (∀ p k, (p < length (heap st))%nat → Peer.pairKey (deref st p) = Some k →
       ∃ e, _roomSecrets st !! k = Some e ∧ creator e = p).

Lemma isPairKey_pairKeyOf n : in_draw_range n = true → isPairKey (pairKeyOf n) = true.
Proof.
  intros Hn. destruct (pairKeyOf_shape n Hn) as (_ & Hl & Hd).
  unfold isPairKey. by rewrite Hl, Hd.
Qed.

Lemma isPairKey_truthy k : isPairKey k = true → truthy (Some k) = true.
Proof.
  unfold isPairKey. intros [H _]%andb_true_iff. apply bool_decide_eq_true in H.
  simpl. apply bool_decide_eq_true. by intros ->.
Qed.

Lemma isPairKey_not_null : isPairKey "null" = false.
Proof. done. Qed.

Lemma PairInv_ext st st' :
  _roomSecrets st' = _roomSecrets st → length (heap st') = length (heap st) →
  (∀ r, Peer.pairKey (deref st' r) = Peer.pairKey (deref st r)) →
  PairInv st → PairInv st'.
Proof.
  intros Hd Hl Hp [H1 H2]. split.
  - intros k e. rewrite Hd, Hl, Hp. apply H1.
  - intros p k. rewrite Hd, Hl, Hp. apply H2.
Qed.

Lemma PairInv_core st st' : same_core st st' → PairInv st → PairInv st'.
Proof. intros (? & _ & _ & ? & Hr). apply PairInv_ext; try done. intros r. apply Hr. Qed.

Lemma PairInv_removePairKey k st : PairInv st → PairInv (_removePairKey k st).
Proof.
  intros [H1 H2]. unfold _removePairKey.
  destruct (_roomSecrets st !! property_key k) as [e|] eqn:He; [|done].
  destruct (H1 _ _ He) as (_ & Hc & Hpk).
  set (key := property_key k) in *. set (c := creator e) in *.
  assert (Hd : ∀ r, deref (set_roomSecrets (delete key)
                             (update_peer c (Peer.set_pairKey None) st)) r
                    = if decide (c = r) then Peer.set_pairKey None (deref st r)
                      else deref st r).
  { intros r. change (deref (set_roomSecrets ?f ?s) r) with (deref s r).
    rewrite deref_update_peer. destruct (decide (c = r)) as [<-|Hne].
    - by rewrite decide_True.
    - rewrite decide_False; [done|]. by intros [? _]. }
  split.
  - intros k' e' Hk'.
    change (_roomSecrets (set_roomSecrets ?f ?s)) with (f (_roomSecrets s)) in Hk'.
    change (_roomSecrets (update_peer ?r ?f ?s)) with (_roomSecrets s) in Hk'.
    apply lookup_delete_Some in Hk' as [Hne Hk'].
    destruct (H1 _ _ Hk') as (Hshape & Hc' & Hpk').
    split; [done|]. split.
    { change (heap (set_roomSecrets ?f ?s)) with (heap s).
      by rewrite length_heap_update_peer. }
    rewrite Hd. rewrite decide_False; [done|].
    intros Heq. rewrite <- Heq, Hpk in Hpk'. by injection Hpk'.
  - intros p k'. change (heap (set_roomSecrets ?f ?s)) with (heap s).
    rewrite length_heap_update_peer, Hd. intros Hp.
    case_decide as Hcp; [done|]. intros Hpk'.
    destruct (H2 p k' Hp Hpk') as (e' & He' & Hce'). exists e'. split; [|done].
    change (_roomSecrets (set_roomSecrets ?f ?s)) with (f (_roomSecrets s)).
    change (_roomSecrets (update_peer ?r ?f ?s)) with (_roomSecrets s).
    rewrite lookup_delete_ne; [done|].
    intros Heq. rewrite <- Heq, He in He'. injection He' as <-. by apply Hcp.
Qed.

(** After the removal of the key a peer holds, it holds none. *)
Lemma _removePairKey_own P st :
  PairInv st → (P < length (heap st))%nat →
  Peer.pairKey (deref (_removePairKey (Peer.pairKey (deref st P)) st) P) = None.
Proof.
  intros [H1 H2] HP. unfold _removePairKey.
  destruct (Peer.pairKey (deref st P)) as [k|] eqn:Hk.
  - destruct (H2 P k HP Hk) as (e & He & Hc). simpl property_key. rewrite He.
    change (deref (set_roomSecrets ?f ?s) ?r) with (deref s r).
    rewrite Hc. by rewrite deref_update_peer_eq.
  - simpl property_key. destruct (_roomSecrets st !! "null") as [e|] eqn:He; [|done].
    destruct (H1 _ _ He) as (Hshape & _). by rewrite isPairKey_not_null in Hshape.
Qed.

Lemma PairInv_unlink P st : (P < length (heap st))%nat → PairInv st → PairInv (unlink P st).
Proof.
  intros HP HI. unfold unlink. cbv zeta.
  apply (PairInv_ext (_removePairKey (Peer.pairKey (deref st P)) st)).
  - change (_roomSecrets (set_keepAliveTimers ?f ?s)) with (_roomSecrets s).
    unfold _cancelKeepAlive. by repeat case_match.
  - change (heap (set_keepAliveTimers ?f ?s)) with (heap s).
    assert (∀ s, heap (_cancelKeepAlive P s) = heap s) as ->.
    { intros s. unfold _cancelKeepAlive. by repeat case_match. }
    apply length_heap_update_peer.
  - intros r. change (deref (set_keepAliveTimers ?f ?s) r) with (deref s r).
    rewrite id_cancelKeepAlive, deref_update_peer. case_decide as Hc; [|done].
    destruct Hc as [<- _]. simpl. symmetry. by apply _removePairKey_own.
  - by apply PairInv_removePairKey.
Qed.

Lemma PairInv_disconnect rev P st :
  (P < length (heap st))%nat → PairInv st → PairInv (_disconnect rev P st).
Proof.
  intros HP HI. eapply PairInv_core; [apply _disconnect_unlink|]. by apply PairInv_unlink.
Qed.

Lemma PairInv_send rev p m st : PairInv st → PairInv (_send rev p m st).
Proof. apply PairInv_core. eauto with frame. Qed.

Lemma PairInv_keepAlive rev now P st :
  (P < length (heap st))%nat → PairInv st → PairInv (_keepAlive rev now P st).
Proof.
  intros HP HI. unfold _keepAlive.
  set (st1 := _cancelKeepAlive P st).
  set (st2 := match _keepAliveTimers st1 !! _ with None => _ | Some _ => st1 end).
  assert (H2 : _roomSecrets st2 = _roomSecrets st ∧ heap st2 = heap st).
  { subst st2 st1. unfold _cancelKeepAlive. by repeat case_match. }
  destruct H2 as [Hd Hh].
  assert (HI2 : PairInv st2).
  { apply (PairInv_ext st); try done; [by rewrite Hh|]. intros r. unfold deref. by rewrite Hh. }
  case_bool_decide; [apply PairInv_disconnect; [by rewrite Hh|done]|].
  apply (PairInv_ext (_send rev (Some P) MsgPing st2)); try done.
  by apply PairInv_send.
Qed.

Lemma PairInv_setKeepAliveTimerToNow now P st :
  PairInv st → PairInv (_setKeepAliveTimerToNow now P st).
Proof. unfold _setKeepAliveTimerToNow. intros HI. by repeat case_match. Qed.

(** A free key filed for a peer that holds none. *)
Lemma PairInv_file P k s st :
  PairInv st → _roomSecrets st !! k = None → isPairKey k = true →
  (P < length (heap st))%nat → Peer.pairKey (deref st P) = None →
  PairInv (update_peer P (Peer.set_pairKey (Some k))
             (set_roomSecrets (<[k := {| roomSecret := s; creator := P |}]>) st)).
Proof.
  intros [H1 H2] Hfree Hk HP Hnone.
  assert (Hd : ∀ r, (r < length (heap st))%nat →
            deref (update_peer P (Peer.set_pairKey (Some k))
                     (set_roomSecrets (<[k := {| roomSecret := s; creator := P |}]>) st)) r
            = if decide (P = r) then Peer.set_pairKey (Some k) (deref st r) else deref st r).
  { intros r Hr. rewrite deref_update_peer.
    change (deref (set_roomSecrets ?f ?s) r) with (deref s r).
    destruct (decide (P = r)) as [<-|Hne].
    - by rewrite decide_True.
    - rewrite decide_False; [done|]. by intros [? _]. }
  split.
  - intros k' e' Hk'. rewrite length_heap_update_peer.
    change (heap (set_roomSecrets ?f ?s)) with (heap s).
    change (_roomSecrets (update_peer ?r ?f ?s)) with (_roomSecrets s) in Hk'.
    change (_roomSecrets (set_roomSecrets ?f ?s)) with (f (_roomSecrets s)) in Hk'.
    apply lookup_insert_Some in Hk' as [[<- <-]|[Hne Hk']].
    + split; [done|]. split; [done|]. simpl. rewrite Hd by done. by rewrite decide_True.
    + destruct (H1 _ _ Hk') as (Hshape & Hc & Hpk). split; [done|]. split; [done|].
      rewrite Hd by done. rewrite decide_False; [done|]. intros Heq.
      rewrite <- Heq in Hpk. congruence.
  - intros p k'. rewrite length_heap_update_peer.
    change (heap (set_roomSecrets ?f ?s)) with (heap s). intros Hp. rewrite Hd by done.
    change (_roomSecrets (update_peer ?r ?f ?s)) with (_roomSecrets s).
    change (_roomSecrets (set_roomSecrets ?f ?s)) with (f (_roomSecrets s)).
    case_decide as Hc.
    + simpl. intros [= <-]. subst p. eexists. by rewrite lookup_insert_eq.
    + intros Hpk. destruct (H2 p k' Hp Hpk) as (e' & He' & Hce'). exists e'.
      split; [|done]. rewrite lookup_insert_ne; [done|]. intros <-. congruence.
Qed.

(** What [_onPairDeviceInitiate] makes of a state in which the keys and
    their creators are linked: the key the sender held is revoked, the
    first free draw is filed for it, and it is answered and joined. *)
Lemma _onPairDeviceInitiate_spec rev P s draws st st' :
  PairInv st → (P < length (heap st))%nat →
  Forall (λ n, in_draw_range n = true) draws →
  _onPairDeviceInitiate rev P s draws st = Some st' →
  ∃ k st3,
    isPairKey k = true
    ∧ _roomSecrets st !! k = None
    ∧ st' = _joinSecretRoom rev P s
              (_send rev (Some P) (MsgPairDeviceInitiated s k) st3)
    ∧ _roomSecrets st3
      = <[k := {| roomSecret := s; creator := P |}]>
          (match Peer.pairKey (deref st P) with
           | Some old => delete old (_roomSecrets st)
           | None => _roomSecrets st
           end)
    ∧ length (heap st3) = length (heap st)
    ∧ _rooms st3 = _rooms st ∧ wire st3 = wire st ∧ _wss st3 = _wss st
    ∧ (∀ r, deref st3 r = if decide (P = r) then Peer.set_pairKey (Some k) (deref st r)
                          else deref st r)
    ∧ PairInv st3.
Proof.
  intros HI HP Hdraws Hi. unfold _onPairDeviceInitiate in Hi.
  pose proof (_createPairKey_spec P s draws st) as Hc.
  destruct (_createPairKey P s draws st) as [[k st1]|]; [|done].
  destruct Hc as (taken & n & rest & -> & _ & -> & Hfree & ->).
  apply (inj Some) in Hi. subst st'.
  assert (Hk : isPairKey (pairKeyOf n) = true).
  { apply isPairKey_pairKeyOf. rewrite Forall_forall in Hdraws. apply Hdraws.
    apply elem_of_app. right. apply list_elem_of_here. }
  set (k := pairKeyOf n) in *.
  set (e := {| roomSecret := s; creator := P |}).
  change (deref (set_roomSecrets ?f ?s) P) with (deref s P).
  exists k. eexists. split; [done|]. split; [done|]. split; [reflexivity|].
  destruct HI as [H1 H2].
  destruct (Peer.pairKey (deref st P)) as [old|] eqn:Hold.
  - destruct (H2 P old HP Hold) as (eo & Heo & Hco).
    destruct (H1 _ _ Heo) as (Hso & _ & _).
    assert (Hne : k ≠ old) by (intros ->; congruence).
    rewrite (isPairKey_truthy old Hso). unfold _removePairKey. simpl property_key.
    change (_roomSecrets (set_roomSecrets ?f ?s)) with (f (_roomSecrets s)).
    rewrite lookup_insert_ne by done. rewrite Heo, Hco.
    set (st3 := update_peer P (Peer.set_pairKey (Some k)) _).
    assert (Hd3 : ∀ r, deref st3 r
                       = if decide (P = r) then Peer.set_pairKey (Some k) (deref st r)
                         else deref st r).
    { intros r. subst st3. rewrite deref_update_peer.
      change (deref (set_roomSecrets ?f ?s) r) with (deref s r).
      rewrite deref_update_peer.
      change (deref (set_roomSecrets ?f ?s) r) with (deref s r).
      change (heap (set_roomSecrets ?f ?s)) with (heap s).
      rewrite length_heap_update_peer.
      change (heap (set_roomSecrets ?f ?s)) with (heap s).
      destruct (decide (P = r)) as [<-|Hner].
      - by rewrite !decide_True.
      - rewrite !decide_False; [done|by intros [? _]|by intros [? _]]. }
    assert (Hdir3 : _roomSecrets st3 = <[k := e]> (delete old (_roomSecrets st))).
    { subst st3. change (_roomSecrets (update_peer ?r ?f ?s)) with (_roomSecrets s).
      change (_roomSecrets (set_roomSecrets ?f ?s)) with (f (_roomSecrets s)).
      change (_roomSecrets (update_peer ?r ?f ?s)) with (_roomSecrets s).
      change (_roomSecrets (set_roomSecrets ?f ?s)) with (f (_roomSecrets s)).
      by rewrite delete_insert_ne. }
    assert (Hlen3 : length (heap st3) = length (heap st)).
    { subst st3. rewrite length_heap_update_peer.
      change (heap (set_roomSecrets ?f ?s)) with (heap s).
      rewrite length_heap_update_peer. done. }
    split; [done|]. split; [done|]. split; [done|]. split; [done|]. split; [done|].
    split; [done|].
    set (sta := _removePairKey (Some old) st).
    assert (HIa : PairInv sta) by (by apply PairInv_removePairKey).
    assert (Hsta : sta = set_roomSecrets (delete old)
                           (update_peer P (Peer.set_pairKey None) st)).
    { subst sta. unfold _removePairKey. simpl property_key. by rewrite Heo, Hco. }
    assert (Hnone : Peer.pairKey (deref sta P) = None).
    { subst sta. rewrite <- Hold. by apply _removePairKey_own. }
    clearbody sta. subst sta.
    eapply (PairInv_ext
              (update_peer P (Peer.set_pairKey (Some k))
                 (set_roomSecrets (<[k := e]>)
                    (set_roomSecrets (delete old)
                       (update_peer P (Peer.set_pairKey None) st))))).
    + by rewrite Hdir3.
    + reflexivity.
    + reflexivity.
    + apply PairInv_file; try done.
      * change (_roomSecrets (set_roomSecrets ?f ?s)) with (f (_roomSecrets s)).
        change (_roomSecrets (update_peer ?r ?f ?s)) with (_roomSecrets s).
        by rewrite lookup_delete_ne.
      * change (heap (set_roomSecrets ?f ?s)) with (heap s).
        by rewrite length_heap_update_peer.
  - simpl truthy. cbv iota.
    set (st3 := update_peer P (Peer.set_pairKey (Some k)) _).
    split; [done|]. split; [by subst st3; rewrite length_heap_update_peer|].
    split; [done|]. split; [done|]. split; [done|].
    split.
    + intros r. subst st3. rewrite deref_update_peer.
      change (deref (set_roomSecrets ?f ?s) r) with (deref s r).
      change (heap (set_roomSecrets ?f ?s)) with (heap s).
      destruct (decide (P = r)) as [<-|Hner].
      * by rewrite decide_True.
      * rewrite decide_False; [done|by intros [? _]].
    + by apply PairInv_file.
Qed.

Lemma PairInv_onPairDeviceInitiate rev P s draws st st' :
  (P < length (heap st))%nat → Forall (λ n, in_draw_range n = true) draws →
  _onPairDeviceInitiate rev P s draws st = Some st' → PairInv st → PairInv st'.
Proof.
  intros HP Hd Hi HI.
  destruct (_onPairDeviceInitiate_spec rev P s draws st st' HI HP Hd Hi)
    as (k & st3 & _ & _ & -> & _ & _ & _ & _ & _ & _ & HI3).
  eapply PairInv_core; [apply core_joinSecretRoom, core_send, core_refl|done].
Qed.

Lemma PairInv_onPairDeviceJoin rev P limited k st :
  PairInv st → PairInv (_onPairDeviceJoin rev P limited k st).
Proof.
  intros HI. unfold _onPairDeviceJoin.
  destruct limited; [by apply PairInv_send|].
  destruct (_roomSecrets st !! k) as [e|]; [|by apply PairInv_send].
  case_decide; [by apply PairInv_send|].
  apply PairInv_removePairKey.
  eapply PairInv_core; [apply core_joinSecretRoom, core_refl|].
  by do 2 apply PairInv_send; apply PairInv_removePairKey.
Qed.

Lemma PairInv_onPairDeviceCancel rev P st :
  PairInv st → PairInv (_onPairDeviceCancel rev P st).
Proof.
  intros HI. unfold _onPairDeviceCancel. repeat case_match; try done.
  by apply PairInv_send, PairInv_removePairKey.
Qed.

Lemma PairInv_alloc id ip name rtc st :
  PairInv st → PairInv (set_heap (λ h, h ++ [Peer.new id ip name rtc]) st).
Proof.
  intros [H1 H2]. split.
  - intros k e Hk. destruct (H1 k e Hk) as (Hs & Hc & Hp). split; [done|].
    proj. rewrite length_app. split; [lia|]. by rewrite deref_alloc.
  - intros p k. proj. rewrite length_app. simpl. intros Hp.
    destruct (decide (p = length (heap st))) as [->|Hne].
    + by rewrite deref_alloc_new.
    + rewrite deref_alloc by lia. apply H2. lia.
Qed.

Lemma PairInv_onConnection rev now id ip name rtc hash st :
  PairInv st → PairInv (_onConnection rev now id ip name rtc hash st).
Proof.
  intros HI. unfold _onConnection. do 2 apply PairInv_send.
  apply PairInv_keepAlive; [|by apply PairInv_alloc].
  proj. rewrite length_app. simpl. lia.
Qed.

Lemma PairInv_init conf wss : PairInv (init conf wss).
Proof. split; [by intros k e H|]. intros p k Hp. simpl in Hp. by apply Nat.nlt_0_r in Hp. Qed.

(** The draws of an oracle are in the range of
    [crypto.randomInt(1000000, 1999999)]. *)
Definition draws_in_range (o : Oracle) : bool := forallb in_draw_range (randomInts o).

Section Pairing.
Variable utf8_decode : list byte → string.

(** The states of the runs whose draws are in that range. *)
Inductive drawn_run (rev : revision) (conf : Conf) (wss : Wss) : Server → Prop :=
| drawn_init : drawn_run rev conf wss (init conf wss)
| drawn_step st o i st' :
    drawn_run rev conf wss st →
    draws_in_range o = true →
    step utf8_decode rev o i st = Some st' →
    drawn_run rev conf wss st'.

Lemma drawn_run_reachable rev conf wss st :
  drawn_run rev conf wss st → reachable utf8_decode rev conf wss st.
Proof. induction 1; [constructor|by econstructor]. Qed.

Lemma PairInv_onMessage rev o P frame st st' :
  (P < length (heap st))%nat → draws_in_range o = true →
  _onMessage utf8_decode rev o P frame st = Some st' → PairInv st → PairInv st'.
Proof.
  intros HP Hd Hm HI.
  destruct frame as [data| |[]]; cbn [_onMessage] in Hm;
    try (apply (inj Some) in Hm; subst st');
    try (eapply PairInv_core; [|exact HI]; eauto using core_relayBinaryMessage with frame; fail).
  - by apply PairInv_disconnect.
  - by apply PairInv_setKeepAliveTimerToNow.
  - eapply PairInv_onPairDeviceInitiate; [done| |done|done].
    apply Forall_forall. intros n Hn. unfold draws_in_range in Hd.
    rewrite forallb_forall in Hd. by apply Hd, list_elem_of_In.
  - by apply PairInv_onPairDeviceJoin.
  - by apply PairInv_onPairDeviceCancel.
  - repeat case_match; apply (inj Some) in Hm; subst st'; try done;
      (eapply PairInv_core; [|exact HI]; eauto with frame).
Qed.

Lemma PairInv_step rev o i st st' :
  draws_in_range o = true → wf st →
  step utf8_decode rev o i st = Some st' → PairInv st → PairInv st'.
Proof.
  intros Hd Hwf Hstep HI.
  destruct i as [id ip name rtc hash|sender frame|h|peer|peer]; unfold step in Hstep;
    cbv beta iota in Hstep.
  - apply (inj Some) in Hstep. subst st'. by apply PairInv_onConnection.
  - case_bool_decide; [|done]. by eapply PairInv_onMessage.
  - destruct (timeouts st !! h) as [[[due peer]|]|] eqn:Hh; try done.
    case_bool_decide; [|done]. apply (inj Some) in Hstep. subst st'.
    apply PairInv_keepAlive; [by apply (proj2 Hwf h due)|].
    by apply (PairInv_ext st).
  - case_bool_decide; [|done]. apply (inj Some) in Hstep. subst st'.
    eapply PairInv_core; [|done]. apply core_update_peer; [|apply core_refl].
    intros p. by case_bool_decide.
  - case_bool_decide; [|done].
    assert (H3 : PairInv (update_peer peer (Peer.set_readyState 3) st)).
    { eapply PairInv_core; [|done]. by apply core_update_peer; [|apply core_refl]. }
    destruct rev; apply (inj Some) in Hstep; subst st'; [done|].
    apply PairInv_disconnect; [by rewrite length_heap_update_peer|done].
Qed.

Lemma drawn_run_PairInv rev conf wss st : drawn_run rev conf wss st → PairInv st.
Proof.
  induction 1 as [|st o i st' Hrun IH Hd Hstep]; [apply PairInv_init|].
  eapply PairInv_step; [done| |done|done].
  eapply reachable_wf, drawn_run_reachable, Hrun.
Qed.

(** X6.  In every state of a run whose draws are in the range of
    [crypto.randomInt]: each entry of the pair-key directory is filed
    under a key of six digits that is the [pairKey] of its creator, an
    existing peer; the [pairKey] of a peer names an entry that peer has
    created; so a peer has at most one key in the directory. *)
Theorem pair_keys_linked rev conf wss st :
  drawn_run rev conf wss st →
  (∀ k e, _roomSecrets st !! k = Some e →
     isPairKey k = true ∧ (creator e < length (heap st))%nat
     ∧ Peer.pairKey (deref st (creator e)) = Some k)
  ∧ (∀ p k, (p < length (heap st))%nat → Peer.pairKey (deref st p) = Some k →
       ∃ e, _roomSecrets st !! k = Some e ∧ creator e = p)
  ∧ (∀ k1 k2 e1 e2, _roomSecrets st !! k1 = Some e1 → _roomSecrets st !! k2 = Some e2 →
       creator e1 = creator e2 → k1 = k2).
Proof.
  intros Hrun. destruct (drawn_run_PairInv rev conf wss st Hrun) as [H1 H2].
  split; [done|]. split; [done|].
  intros k1 k2 e1 e2 Hk1 Hk2 Hc.
  destruct (H1 _ _ Hk1) as (_ & _ & Hp1), (H1 _ _ Hk2) as (_ & _ & Hp2).
  rewrite Hc in Hp1. congruence.
Qed.

(** X8.  A [pair-device-cancel], in such a run.  A peer that holds no key
    gets no answer and nothing changes.  Otherwise its key leaves the
    directory, its [pairKey] is [null] and it is handed
    [pair-device-canceled] with the key; the rooms are as before, and the
    peer still holds the secrets it held: the room it joined when it
    initiated the pairing is not left. *)
Theorem pair_device_cancel_revokes rev conf wss st P :
  drawn_run rev conf wss st →
  (P < length (heap st))%nat →
  match Peer.pairKey (deref st P) with
  | None => _onPairDeviceCancel rev P st = st
  | Some k =>
    _roomSecrets (_onPairDeviceCancel rev P st) = delete k (_roomSecrets st)
    ∧ Peer.pairKey (deref (_onPairDeviceCancel rev P st) P) = None
    ∧ wire (_onPairDeviceCancel rev P st)
      = wire st ++ send_out rev st P (MsgPairDeviceCanceled k)
    ∧ _rooms (_onPairDeviceCancel rev P st) = _rooms st
    ∧ Peer.roomSecrets (deref (_onPairDeviceCancel rev P st) P)
      = Peer.roomSecrets (deref st P)
  end.
Proof.
  intros Hrun HP. destruct (drawn_run_PairInv rev conf wss st Hrun) as [H1 H2].
  unfold _onPairDeviceCancel.
  destruct (Peer.pairKey (deref st P)) as [k|] eqn:Hk; [|done].
  destruct (H2 P k HP Hk) as (e & He & Hc). destruct (H1 _ _ He) as (Hs & _ & _).
  rewrite (isPairKey_truthy k Hs), _send_Some.
  rewrite (same_view_send_out rev _ st) by apply _removePairKey_same_view.
  change (deref (emits ?es ?s) ?r) with (deref s r).
  split; [|split; [|split; [|split]]].
  - proj. unfold _removePairKey. simpl property_key. by rewrite He.
  - unfold _removePairKey. simpl property_key. rewrite He, Hc.
    change (deref (set_roomSecrets ?f ?s) ?r) with (deref s r).
    by rewrite deref_update_peer_eq.
  - proj. by rewrite _removePairKey_wire.
  - proj. apply _removePairKey_rooms.
  - apply _removePairKey_roomSecrets.
Qed.
End Pairing.

(** ** Leaving and joining a room *)

Lemma ainsert_absent {A} k (v : A) l : alookup k l = None → ainsert k v l = l ++ [(k, v)].
Proof.
  induction l as [|[k' v'] t IH]; simpl; [done|].
  destruct (decide (k = k')); [done|]. intros H. by rewrite IH.
Qed.

(** X9.  [_leaveRoom] of a peer that is not filed in the room, or of a
    room that does not exist, changes nothing and writes nothing.  After a
    leave the peer is not filed in the room, every other entry of the
    registry is as before, and a second leave changes nothing more. *)
Theorem leaveRoom_idempotent rev P roomType R disconnect st :
  ((_rooms st !! R ≫= alookup (Peer.id (deref st P))) = None →
   _leaveRoom rev P roomType R disconnect st = st)
  ∧ (_rooms (_leaveRoom rev P roomType R disconnect st) !! R
     ≫= alookup (Peer.id (deref st P))) = None
  ∧ (∀ r k, ¬ (r = R ∧ k = Peer.id (deref st P)) →
       (_rooms (_leaveRoom rev P roomType R disconnect st) !! r ≫= alookup k)
       = (_rooms st !! r ≫= alookup k))
  ∧ _leaveRoom rev P roomType R disconnect (_leaveRoom rev P roomType R disconnect st)
    = _leaveRoom rev P roomType R disconnect st.
Proof.
  assert (Hnoop : ∀ s, (_rooms s !! R ≫= alookup (Peer.id (deref s P))) = None →
                       _leaveRoom rev P roomType R disconnect s = s).
  { intros s H. unfold _leaveRoom. destruct (_rooms s !! R) as [room|]; [|done].
    simpl in H. by rewrite H. }
  assert (Hgone : (_rooms (_leaveRoom rev P roomType R disconnect st) !! R
                   ≫= alookup (Peer.id (deref st P))) = None).
  { rewrite _leaveRoom_spec. proj. rewrite member_leave_rooms. by rewrite decide_True. }
  split; [apply Hnoop|]. split; [done|]. split.
  - intros r k Hne. rewrite _leaveRoom_spec. proj. rewrite member_leave_rooms.
    by rewrite decide_False.
  - apply Hnoop.
    assert (deref (_leaveRoom rev P roomType R disconnect st) P = deref st P) as ->
      by (by rewrite _leaveRoom_spec).
    exact Hgone.
Qed.

Lemma joinRoom_first_spec rev P roomType R st :
  (_rooms st !! R ≫= alookup (Peer.id (deref st P))) = None →
  _rooms (_joinRoom rev P roomType R st)
  = <[R := default [] (_rooms st !! R) ++ [(Peer.id (deref st P), P)]]> (_rooms st)
  ∧ wire (_joinRoom rev P roomType R st)
    = wire st
      ++ flat_map (λ kv, send_out rev st kv.2
                           (MsgPeerJoined (Peer.getInfo (deref st P)) roomType R))
           (default [] (_rooms st !! R))
      ++ send_out rev st P
           (MsgPeers ((λ kv, Peer.getInfo (deref st kv.2)) <$> default [] (_rooms st !! R))
              roomType R)
  ∧ heap (_joinRoom rev P roomType R st) = heap st.
Proof.
  intros Hnew. rewrite _joinRoom_spec. proj.
  assert (Habs : alookup (Peer.id (deref st P)) (default [] (_rooms st !! R)) = None).
  { by destruct (_rooms st !! R). }
  split; [|split; [|done]].
  - unfold join_rooms. by rewrite (adelete_absent _ _ Habs), (ainsert_absent _ _ _ Habs).
  - unfold join_out, leave_out, remaining_members.
    rewrite (adelete_absent _ _ Habs).
    destruct (_rooms st !! R) as [room|]; simpl in *; [|done]. by rewrite Hnew.
Qed.

(** X10.  A first [_joinRoom]: the peer is not filed in the room, which
    may not exist.  The peer goes last in the room (a room that did not
    exist is created with it alone); every member is handed a
    [peer-joined] with the peer's info, in the order of the room, and
    then the peer itself is handed the [peers] list of exactly those
    members.  No peer object changes. *)
Theorem joinRoom_first rev P roomType R st :
  (_rooms st !! R ≫= alookup (Peer.id (deref st P))) = None →
  _rooms (_joinRoom rev P roomType R st)
  = <[R := default [] (_rooms st !! R) ++ [(Peer.id (deref st P), P)]]> (_rooms st)
  ∧ wire (_joinRoom rev P roomType R st)
    = wire st
      ++ flat_map (λ kv, send_out rev st kv.2
                           (MsgPeerJoined (Peer.getInfo (deref st P)) roomType R))
           (default [] (_rooms st !! R))
      ++ send_out rev st P
           (MsgPeers ((λ kv, Peer.getInfo (deref st kv.2)) <$> default [] (_rooms st !! R))
              roomType R)
  ∧ heap (_joinRoom rev P roomType R st) = heap st.
Proof. apply joinRoom_first_spec. Qed.

(** bob connects while alice is alone in the room of the address. *)
Definition ex_bob_arrives : Server :=
  _onConnection Rev2 1000 bob ex_ip (ex_name "bob") true "hash-b" (ex_alice_in_room Rev2).

Lemma joinRoom_first_witness :
  (_rooms ex_bob_arrives !! ex_ip ≫= alookup (Peer.id (deref ex_bob_arrives 1%nat))) = None
  ∧ _rooms (_joinRoom Rev2 1%nat RoomIp ex_ip ex_bob_arrives)
    = <[ex_ip := default [] (_rooms ex_bob_arrives !! ex_ip)
                 ++ [(Peer.id (deref ex_bob_arrives 1%nat), 1%nat)]]> (_rooms ex_bob_arrives).
Proof.
  assert (H : (_rooms ex_bob_arrives !! ex_ip
               ≫= alookup (Peer.id (deref ex_bob_arrives 1%nat))) = None)
    by (vm_compute; reflexivity).
  exact (conj H (proj1 (joinRoom_first Rev2 1%nat RoomIp ex_ip ex_bob_arrives H))).
Defined.

(** ** The registry and the public rooms *)

Lemma alookup_NoDup_elem {A} k (v : A) l : NoDup l.*1 → (k, v) ∈ l → alookup k l = Some v.
Proof.
  induction l as [|[k' v'] t IH]; simpl; [by intros _ ?%elem_of_nil|].
  intros [Hk' Ht]%NoDup_cons [[= <- <-]|Hin]%elem_of_cons.
  - by rewrite decide_True.
  - rewrite decide_False; [auto|]. intros ->. apply Hk'.
    apply list_elem_of_fmap. by exists (k', v).
Qed.

Section Registry.
Variable utf8_decode : list byte → string.

(** X11.  In every state the server can reach, a room of the registry
    has one entry per peer id, and every entry names an existing peer
    that is filed under its own id: looking an id up in a room gives the
    peer object of that id. *)
Theorem registry_entries_own_id rev conf wss st R room :
  reachable utf8_decode rev conf wss st →
  _rooms st !! R = Some room →
  NoDup room.*1
  ∧ ∀ k r, (k, r) ∈ room →
      (r < length (heap st))%nat ∧ Peer.id (deref st r) = k ∧ alookup k room = Some r.
Proof.
  intros Hr HR. destruct (reachable_wf utf8_decode rev conf wss st Hr) as [Hok _].
  destruct (Hok R room HR) as (_ & Hnd & Hk). split; [done|].
  intros k r Hin. destruct (Hk k r Hin) as [Hlt Hid]. split; [done|]. split; [done|].
  by apply alookup_NoDup_elem.
Qed.

(** X12.  In a disciplined run a peer is filed in at most one public
    room: the leave that [_joinPublicRoom] starts with has taken it out
    of the room it was in. *)
Theorem one_public_room rev conf wss st P r1 r2 :
  disciplined_run utf8_decode rev conf wss st →
  (P < length (heap st))%nat →
  isPublicRoomId r1 = true → isPublicRoomId r2 = true →
  is_Some (_rooms st !! r1 ≫= alookup (Peer.id (deref st P))) →
  is_Some (_rooms st !! r2 ≫= alookup (Peer.id (deref st P))) →
  r1 = r2 ∧ Peer.publicRoomId (deref st P) = Some r1.
Proof.
  intros Hrun HP H1 H2 Hm1 Hm2. apply disciplined_run_Sym in Hrun.
  apply (sym_public st Hrun P r1 HP H1) in Hm1.
  apply (sym_public st Hrun P r2 HP H2) in Hm2.
  split; [congruence|done].
Qed.
End Registry.


(** ** A new connection *)

Lemma send_out_set_keepAliveTimers rev f st r m :
  send_out rev (set_keepAliveTimers f st) r m = send_out rev st r m.
Proof. unfold send_out. by destruct rev. Qed.

Lemma send_out_set_timeouts rev f st r m :
  send_out rev (set_timeouts f st) r m = send_out rev st r m.
Proof. unfold send_out. by destruct rev. Qed.

(** X14.  [_onConnection] of a peer whose id has no keep-alive record.
    The peer object is the last of the heap.  It is handed a [ping], the
    [ws-config] and its [display-name], in this order, and nothing is
    written to anyone else; its record is created with the time of the
    connection as last beat, and the first tick is scheduled one period
    later.  The rooms and the pair-key directory are as before: the peer
    is in no room until it asks. *)
Theorem connection_greets rev now id ip name rtc hash st :
  _keepAliveTimers st !! id = None →
  let P := length (heap st) in
  let st' := _onConnection rev now id ip name rtc hash st in
  heap st' = heap st ++ [Peer.new id ip name rtc]
  ∧ _rooms st' = _rooms st
  ∧ _roomSecrets st' = _roomSecrets st
  ∧ _keepAliveTimers st'
    = <[id := {| timer := Some (length (timeouts st)); lastBeat := now |}]>
        (_keepAliveTimers st)
  ∧ timeouts st' = timeouts st ++ [Some (now + timeout, P)]
  ∧ wire st'
    = wire st
      ++ (if sendable rev st' P
          then [SocketSend P MsgPing;
                SocketSend P (MsgWsConfig (rtcConfig (_conf st)) (wsFallback (_conf st)));
                SocketSend P (MsgDisplayName name id hash)]
          else [])
  ∧ (rev = Rev2 → sendable rev st' P = true).
Proof.
  intros Hrec P st'. subst st'. unfold _onConnection. fold P.
  set (st0 := set_heap _ st).
  assert (Hd0 : deref st0 P = Peer.new id ip name rtc) by apply deref_alloc_new.
  unfold _keepAlive.
  assert (Hc : _cancelKeepAlive P st0 = st0).
  { unfold _cancelKeepAlive. rewrite Hd0. simpl Peer.id.
    change (_keepAliveTimers st0) with (_keepAliveTimers st). by rewrite Hrec. }
  rewrite Hc, Hd0. simpl Peer.id.
  change (_keepAliveTimers st0) with (_keepAliveTimers st). rewrite Hrec.
  change (_keepAliveTimers (set_keepAliveTimers ?f ?s)) with (f (_keepAliveTimers s)).
  rewrite lookup_insert_eq. simpl default.
  rewrite bool_decide_false.
  2: { rewrite Z.sub_diag. destruct rev; unfold beat_factor, timeout; lia. }
  rewrite !_send_Some.
  repeat rewrite ?send_out_emits, ?send_out_set_keepAliveTimers, ?send_out_set_timeouts.
  set (stF := emits _ (emits _ _)).
  assert (Hs : sendable rev stF P = sendable rev st0 P) by (by destruct rev).
  rewrite Hs.
  split; [done|]. split; [done|]. split; [done|]. split; [|split; [done|split]].
  - subst stF. proj. change (_keepAliveTimers st0) with (_keepAliveTimers st).
    apply map_eq. intros k. destruct (decide (k = id)) as [->|Hne].
    + by rewrite lookup_alter_eq, !lookup_insert_eq.
    + by rewrite lookup_alter_ne, !lookup_insert_ne.
  - subst stF. proj. change (wire st0) with (wire st). unfold send_out.
    destruct (sendable rev st0 P); by rewrite <- !app_assoc.
  - intros ->. simpl. apply bool_decide_eq_true. by rewrite Hd0.
Qed.

Lemma connection_greets_witness :
  _keepAliveTimers (init ex_conf ex_wss) !! alice = None
  ∧ heap (_onConnection Rev2 1000 alice ex_ip (ex_name "alice") true "hash-a"
            (init ex_conf ex_wss))
    = heap (init ex_conf ex_wss) ++ [Peer.new alice ex_ip (ex_name "alice") true].
Proof.
  assert (H : _keepAliveTimers (init ex_conf ex_wss) !! alice = None)
    by (vm_compute; reflexivity).
  exact (conj H (proj1 (connection_greets Rev2 1000 alice ex_ip (ex_name "alice") true "hash-a"
                          (init ex_conf ex_wss) H))).
Defined.

(** ** The secrets a peer sends *)

Lemma _joinSecretRoom_member rev P s st :
  (P < length (heap st))%nat →
  length (heap (_joinSecretRoom rev P s st)) = length (heap st)
  ∧ Peer.id (deref (_joinSecretRoom rev P s st) P) = Peer.id (deref st P)
  ∧ (∀ s', s' ∈ Peer.roomSecrets (deref (_joinSecretRoom rev P s st) P)
           ↔ s' = s ∨ s' ∈ Peer.roomSecrets (deref st P))
  ∧ (∀ r k, (_rooms (_joinSecretRoom rev P s st) !! r ≫= alookup k)
            = if decide (r = s ∧ k = Peer.id (deref st P)) then Some P
              else _rooms st !! r ≫= alookup k)
  ∧ (∀ r, r ≠ s → _rooms (_joinSecretRoom rev P s st) !! r = _rooms st !! r).
Proof.
  intros HP. rewrite _joinSecretRoom_spec.
  assert (Hd : deref (emits (join_out rev st P RoomSecret s)
                 (update_peer P (Peer.addRoomSecret s)
                    (set_rooms (join_rooms (Peer.id (deref st P)) P s) st))) P
               = Peer.addRoomSecret s (deref st P)).
  { change (deref (emits ?es ?s) ?r) with (deref s r). by rewrite deref_update_peer_eq. }
  rewrite Hd. split; [proj; by rewrite length_insert|]. split; [apply id_addRoomSecret|].
  split; [intros s'; apply elem_of_addRoomSecret_iff|]. split.
  - intros r k. proj. apply member_join_rooms.
  - intros r Hr. proj. unfold join_rooms. by rewrite lookup_insert_ne.
Qed.

Lemma _joinSecretRooms_members rev P L st :
  (P < length (heap st))%nat →
  length (heap (_joinSecretRooms rev P L st)) = length (heap st)
  ∧ Peer.id (deref (_joinSecretRooms rev P L st) P) = Peer.id (deref st P)
  ∧ (∀ s', s' ∈ Peer.roomSecrets (deref (_joinSecretRooms rev P L st) P)
           ↔ s' ∈ L ∨ s' ∈ Peer.roomSecrets (deref st P))
  ∧ (∀ r k, (_rooms (_joinSecretRooms rev P L st) !! r ≫= alookup k)
            = if decide (r ∈ L ∧ k = Peer.id (deref st P)) then Some P
              else _rooms st !! r ≫= alookup k)
  ∧ (∀ r, r ∉ L → _rooms (_joinSecretRooms rev P L st) !! r = _rooms st !! r).
Proof.
  unfold _joinSecretRooms. revert st. induction L as [|s L IH]; intros st HP.
  - change (foldl ?f st []) with st.
    split; [done|]. split; [done|]. split; [|split; [|done]].
    + intros s'. split; [by right|]. by intros [?%elem_of_nil|?].
    + intros r k. case_decide as Hc; [|done]. by destruct Hc as [?%elem_of_nil _].
  - change (foldl ?f st (s :: L)) with (foldl f (f st s) L).
    destruct (_joinSecretRoom_member rev P s st HP) as (Hl1 & Hi1 & Hs1 & Hm1 & Hr1).
    destruct (IH (_joinSecretRoom rev P s st)) as (Hl & Hi & Hs & Hm & Hr); [by rewrite Hl1|].
    split; [by rewrite Hl|]. split; [by rewrite Hi|]. split; [|split].
    + intros s'. rewrite Hs, Hs1, elem_of_cons. tauto.
    + intros r k. rewrite Hm, Hm1, Hi1.
      destruct (decide (r ∈ L ∧ k = Peer.id (deref st P))) as [[HL ->]|H1].
      { rewrite decide_True; [done|]. split; [by apply list_elem_of_further|done]. }
      destruct (decide (r = s ∧ k = Peer.id (deref st P))) as [[-> ->]|H2].
      { rewrite decide_True; [done|]. split; [apply list_elem_of_here|done]. }
      rewrite decide_False; [done|].
      intros [[->|HL]%elem_of_cons ->]; [by apply H2|by apply H1].
    + intros r [Hrs HrL]%not_elem_of_cons. rewrite Hr by done. by apply Hr1.
Qed.

(** X15.  [_onRoomSecrets].  Of the secrets of the message only those of
    64 to 256 7-bit characters count.  Afterwards the sender holds each
    of them, besides the secrets it held, and is filed under its id in
    the room of each; the room of any other string is as before.  A
    message without the field changes nothing. *)
Theorem room_secrets_joins rev P l st :
  (P < length (heap st))%nat →
  (∀ s, s ∈ Peer.roomSecrets (deref (_onRoomSecrets rev P (Some l) st) P)
        ↔ (s ∈ l ∧ isRoomSecret s = true) ∨ s ∈ Peer.roomSecrets (deref st P))
  ∧ (∀ s, s ∈ l → isRoomSecret s = true →
       (_rooms (_onRoomSecrets rev P (Some l) st) !! s ≫= alookup (Peer.id (deref st P)))
       = Some P)
  ∧ (∀ r, ¬ (r ∈ l ∧ isRoomSecret r = true) →
       _rooms (_onRoomSecrets rev P (Some l) st) !! r = _rooms st !! r)
  ∧ _onRoomSecrets rev P None st = st.
Proof.
  intros HP.
  assert (Heq : _onRoomSecrets rev P (Some l) st
                = _joinSecretRooms rev P (List.filter isRoomSecret l) st).
  { unfold _onRoomSecrets. destruct rev; [done|].
    by destruct (List.filter isRoomSecret l). }
  rewrite Heq.
  assert (Hin : ∀ s, s ∈ List.filter isRoomSecret l ↔ s ∈ l ∧ isRoomSecret s = true).
  { intros s. by rewrite !list_elem_of_In, filter_In. }
  destruct (_joinSecretRooms_members rev P (List.filter isRoomSecret l) st HP)
    as (_ & _ & Hs & Hm & Hr).
  split; [|split; [|split; [|done]]].
  - intros s. by rewrite Hs, Hin.
  - intros s Hl Hsec. rewrite Hm, decide_True; [done|]. split; [by apply Hin|done].
  - intros r Hnot. apply Hr. by rewrite Hin.
Qed.

Lemma room_secrets_joins_witness :
  (0 < length (heap (ex_alone Rev2)))%nat
  ∧ (_rooms (_onRoomSecrets Rev2 0%nat (Some ["short"; ex_secret_a]) (ex_alone Rev2))
       !! "short" = _rooms (ex_alone Rev2) !! "short").
Proof.
  assert (H : (0 < length (heap (ex_alone Rev2)))%nat) by (vm_compute; lia).
  destruct (room_secrets_joins Rev2 0%nat ["short"; ex_secret_a] (ex_alone Rev2) H)
    as (_ & _ & Hr & _).
  refine (conj H (Hr "short" _)). intros [_ Hs]. vm_compute in Hs. discriminate Hs.
Defined.

(** ** Deleting and regenerating a secret room *)

(** Two states with the same transport and the same socket states. *)
Definition same_sockets (st st' : Server) : Prop :=
  _wss st' = _wss st ∧ ∀ r, Peer.readyState (deref st' r) = Peer.readyState (deref st r).

Lemma same_sockets_send_out rev st st' r m :
  same_sockets st st' → send_out rev st' r m = send_out rev st r m.
Proof.
  intros [Hw Hr]. unfold send_out, sendable. destruct rev; [by rewrite Hw|by rewrite Hr].
Qed.

(** What [_deleteSecretRoom] writes for the members [l] of the room, in
    the order of the room: for each member, the [peer-left] of its leave
    to the members after it, then its own [secret-room-deleted]. *)
Fixpoint delete_out (rev : revision) (st : Server) (roomSecret : string)
    (l : list (string * ref)) : list Effect :=
  match l with
  | [] => []
  | (peerId, peer) :: rest =>
    flat_map (λ kv, send_out rev st kv.2 (MsgPeerLeft peerId RoomSecret roomSecret true)) rest
    ++ send_out rev st peer (MsgSecretRoomDeleted roomSecret)
    ++ delete_out rev st roomSecret rest
  end.

Lemma delete_out_same_sockets rev st st' sec l :
  same_sockets st st' → delete_out rev st' sec l = delete_out rev st sec l.
Proof.
  intros H. induction l as [|[k p] l IH]; simpl; [done|].
  rewrite IH, (same_sockets_send_out rev st st') by done. f_equal.
  apply flat_map_ext. intros kv. by apply same_sockets_send_out.
Qed.

Lemma filter_ne_idemp (s : string) (l : list string) :
  filter (λ x, x ≠ s) (filter (λ x, x ≠ s) l) = filter (λ x, x ≠ s) l.
Proof.
  induction l as [|x l IH]; [done|].
  rewrite filter_cons. case_decide; [|done]. rewrite filter_cons, decide_True by done.
  by rewrite IH.
Qed.

Lemma removeRoomSecret_idemp s p :
  Peer.removeRoomSecret s (Peer.removeRoomSecret s p) = Peer.removeRoomSecret s p.
Proof. unfold Peer.removeRoomSecret, Peer.set_roomSecrets. simpl. by rewrite filter_ne_idemp. Qed.

(** The loop of [_deleteSecretRoom] over the members of a well-formed
    room. *)
Lemma _deleteSecretRoom_loop rev sec l st :
  _rooms st !! sec = (match l with [] => None | _ => Some l end) →
  NoDup l.*1 →
  (∀ k p, (k, p) ∈ l → (p < length (heap st))%nat ∧ Peer.id (deref st p) = k) →
  let st' :=
    foldl (λ s '(peerId, peer),
             match alookup peerId (default [] (_rooms s !! sec)) with
             | None => s
             | Some _ =>
               let s := _leaveSecretRoom rev peer sec true s in
               _send rev (Some peer) (MsgSecretRoomDeleted sec) s
             end) st l in
  _rooms st' = delete sec (_rooms st)
  ∧ wire st' = wire st ++ delete_out rev st sec l
  ∧ ∀ r, deref st' r = if decide (r ∈ l.*2) then Peer.removeRoomSecret sec (deref st r)
                       else deref st r.
Proof.
  revert st. induction l as [|[k p] l IH]; intros st Hroom Hnd Hok st'; subst st'.
  - change (foldl ?f st []) with st. split; [by rewrite delete_id|].
    split; [by rewrite app_nil_r|]. intros r. rewrite decide_False; [done|].
    by intros ?%elem_of_nil.
  - change (foldl ?f st ((k, p) :: l)) with (foldl f (f st (k, p)) l).
    match goal with |- context [foldl _ ?s0 l] => set (st1 := s0) end.
    apply NoDup_cons in Hnd as [Hk Hnd].
    destruct (Hok k p (list_elem_of_here _ _)) as [Hp Hid].
    assert (Habs : alookup k l = None).
    { destruct (alookup k l) as [x|] eqn:Hx; [|done]. exfalso. apply Hk.
      apply alookup_Some_elem in Hx. apply list_elem_of_fmap. by exists (k, x). }
    assert (Hst1 : st1 = emits (flat_map (λ kv, send_out rev st kv.2
                                           (MsgPeerLeft k RoomSecret sec true)) l
                                ++ send_out rev st p (MsgSecretRoomDeleted sec))
                           (update_peer p (Peer.removeRoomSecret sec)
                              (set_rooms (match l with
                                          | [] => delete sec
                                          | _ => <[sec := l]>
                                          end) st))).
    { subst st1. cbv beta iota zeta. rewrite Hroom. simpl default. simpl alookup.
      rewrite decide_True by done.
      rewrite _send_Some, _leaveSecretRoom_spec, emits_emits, Hid.
      rewrite send_out_emits.
      assert (Hso : ∀ m, send_out rev
                (update_peer p (Peer.removeRoomSecret sec)
                   (set_rooms (leave_rooms k sec) st)) p m = send_out rev st p m).
      { intros m. apply same_sockets_send_out. split; [done|]. intros r.
        rewrite deref_update_peer. by case_decide. }
      rewrite Hso. f_equal.
      - f_equal. unfold leave_out, remaining_members. rewrite Hroom, Hid. simpl alookup.
        rewrite decide_True by done. simpl adelete. rewrite decide_True by done.
        by rewrite (adelete_absent _ _ Habs).
      - f_equal. apply set_rooms_ext. unfold leave_rooms. rewrite Hroom. simpl alookup.
        rewrite decide_True by done. simpl adelete. rewrite decide_True by done.
        rewrite (adelete_absent _ _ Habs). by destruct l. }
    clearbody st1.
    assert (Hd1 : ∀ r, deref st1 r = if decide (p = r) then Peer.removeRoomSecret sec (deref st r)
                                     else deref st r).
    { intros r. rewrite Hst1. change (deref (emits ?es ?s) r) with (deref s r).
      rewrite deref_update_peer. change (deref (set_rooms ?f ?s) r) with (deref s r).
      change (heap (set_rooms ?f ?s)) with (heap s).
      destruct (decide (p = r)) as [<-|Hne].
      - by rewrite decide_True.
      - rewrite decide_False; [done|]. by intros [? _]. }
    assert (Hsock : same_sockets st st1).
    { split; [by rewrite Hst1|]. intros r. rewrite Hd1. by case_decide. }
    assert (Hlen1 : length (heap st1) = length (heap st)).
    { rewrite Hst1. change (heap (emits ?es ?s)) with (heap s).
      by rewrite length_heap_update_peer. }
    destruct (IH st1) as (Hr & Hw & Hd); [| done | |].
    { rewrite Hst1. proj. destruct l; [apply lookup_delete_eq|apply lookup_insert_eq]. }
    { intros k' p' Hin. destruct (Hok k' p' (list_elem_of_further _ _ _ Hin)) as [Hp' Hid'].
      rewrite Hlen1. split; [done|]. rewrite Hd1. by case_decide. }
    split; [|split].
    + rewrite Hr, Hst1. proj. destruct l; [apply delete_delete_eq|apply delete_insert_eq].
    + rewrite Hw, (delete_out_same_sockets rev st st1) by done. rewrite Hst1. proj.
      simpl delete_out. by rewrite <- !app_assoc.
    + intros r. rewrite Hd, Hd1. simpl fmap. 
      destruct (decide (p = r)) as [<-|Hne].
      * rewrite (decide_True (P := p ∈ p :: _)) by apply list_elem_of_here.
        case_decide; [apply removeRoomSecret_idemp|done].
      * destruct (decide (r ∈ l.*2)) as [Hin|Hin].
        -- rewrite decide_True; [done|]. by apply list_elem_of_further.
        -- rewrite decide_False; [done|]. by intros [->|?]%elem_of_cons.
Qed.

Lemma regenerate_wire rev old new (l : list (string * ref)) st :
  let st' :=
    foldl (λ s '(peerId, peer),
             let s := _send rev (Some peer) (MsgRoomSecretRegenerated old new) s in
             update_peer peer (Peer.removeRoomSecret old) s) st l in
  wire st' = wire st
             ++ flat_map (λ kv, send_out rev st kv.2 (MsgRoomSecretRegenerated old new)) l
  ∧ same_sockets st st'.
Proof.
  revert st. induction l as [|[k r] l IH]; intros st st'; subst st'.
  - change (foldl ?f st []) with st. simpl. rewrite app_nil_r. by split.
  - change (foldl ?f st ((k, r) :: l)) with (foldl f (f st (k, r)) l).
    match goal with |- context [foldl _ ?s0 l] => set (st1 := s0) end.
    assert (Hst1 : st1 = emits (send_out rev st r (MsgRoomSecretRegenerated old new))
                           (update_peer r (Peer.removeRoomSecret old) st)).
    { subst st1. cbv beta iota zeta. by rewrite _send_Some, update_peer_emits. }
    clearbody st1.
    assert (Hsock : same_sockets st st1).
    { split; [by rewrite Hst1|]. intros q. rewrite Hst1.
      change (deref (emits ?es ?s) q) with (deref s q). rewrite deref_update_peer.
      by case_decide. }
    destruct (IH st1) as [Hw [Hw2 Hr2]]. split.
    + rewrite Hw, Hst1. proj. simpl flat_map. rewrite <- app_assoc. do 2 f_equal.
      apply flat_map_ext. intros kv. rewrite <- Hst1. by apply same_sockets_send_out.
    + destruct Hsock as [Hw1 Hr1]. split; [by rewrite Hw2|]. intros q. by rewrite Hr2.
Qed.

Section SecretRooms.
Variable utf8_decode : list byte → string.

(** X16.  [_deleteSecretRoom] of a room of a state the server can reach.
    It takes no sender: the room is deleted whoever asks.  Afterwards
    the registry has no such room and is otherwise as before; no member
    holds the secret and no other peer object has changed; and what is
    written is, for each member in the order of the room, the
    [peer-left] of its leave to the members after it and then its own
    [secret-room-deleted].  A secret that names no room changes
    nothing. *)
Theorem delete_secret_room rev conf wss st sec :
  reachable utf8_decode rev conf wss st →
  match _rooms st !! sec with
  | None => _deleteSecretRoom rev sec st = st
  | Some room =>
    _rooms (_deleteSecretRoom rev sec st) = delete sec (_rooms st)
    ∧ wire (_deleteSecretRoom rev sec st) = wire st ++ delete_out rev st sec room
    ∧ (∀ k p, (k, p) ∈ room →
         sec ∉ Peer.roomSecrets (deref (_deleteSecretRoom rev sec st) p))
    ∧ (∀ r, r ∉ room.*2 → deref (_deleteSecretRoom rev sec st) r = deref st r)
  end.
Proof.
  intros Hreach. unfold _deleteSecretRoom.
  destruct (_rooms st !! sec) as [room|] eqn:Hroom; [|done].
  destruct (reachable_wf utf8_decode rev conf wss st Hreach) as [Hok _].
  destruct (Hok sec room Hroom) as (Hne & Hnd & Hk).
  destruct (_deleteSecretRoom_loop rev sec room st) as (Hr & Hw & Hd); try done.
  { rewrite Hroom. by destruct room. }
  split; [done|]. split; [done|]. split.
  - intros k p Hin. rewrite Hd, decide_True.
    + rewrite elem_of_removeRoomSecret_iff. by intros [? _].
    + apply list_elem_of_fmap. by exists (k, p).
  - intros r Hr'. rewrite Hd. by rewrite decide_False.
Qed.

(** X17.  [_onRegenerateRoomSecret] in a state the server can reach.
    Every member of the room of the old secret is handed
    [room-secret-regenerated] with the old and the new secret, in the
    order of the room, and gives the old secret up; the room is deleted
    and the rest of the registry is as before, so no peer is put in a
    room of the new secret.  The sender need not be a member. *)
Theorem regenerate_room_secret rev conf wss st P old new :
  reachable utf8_decode rev conf wss st →
  _rooms (_onRegenerateRoomSecret rev P old new st) = delete old (_rooms st)
  ∧ wire (_onRegenerateRoomSecret rev P old new st)
    = wire st
      ++ flat_map (λ kv, send_out rev st kv.2 (MsgRoomSecretRegenerated old new))
           (default [] (_rooms st !! old))
  ∧ (∀ k p, (k, p) ∈ default [] (_rooms st !! old) →
       old ∉ Peer.roomSecrets (deref (_onRegenerateRoomSecret rev P old new st) p))
  ∧ (∀ r s, (r < length (heap st))%nat → s ≠ old →
       (s ∈ Peer.roomSecrets (deref (_onRegenerateRoomSecret rev P old new st) r)
        ↔ s ∈ Peer.roomSecrets (deref st r))).
Proof.
  intros Hreach. unfold _onRegenerateRoomSecret.
  destruct (reachable_wf utf8_decode rev conf wss st Hreach) as [Hok _].
  assert (Hmem : ∀ k r, (k, r) ∈ default [] (_rooms st !! old) →
                        (r < length (heap st))%nat).
  { intros k r Hin. destruct (_rooms st !! old) as [room|] eqn:Hroom.
    - destruct (Hok old room Hroom) as (_ & _ & Hk). by apply (Hk k r).
    - by apply elem_of_nil in Hin. }
  destruct (regenerate_loop rev old new (length (heap st)) (default [] (_rooms st !! old)) st
              eq_refl Hmem) as (Hr & _ & Hq).
  destruct (regenerate_wire rev old new (default [] (_rooms st !! old)) st) as [Hw _].
  set (st1 := foldl _ st _) in *.
  split; [proj; by rewrite Hr|]. split; [done|]. split.
  - intros k p Hin. change (deref (set_rooms ?f ?s) p) with (deref s p).
    destruct (Hq p (Hmem k p Hin)) as (_ & _ & Hs). rewrite Hs. intros [_ Hnot].
    apply Hnot. split; [done|]. apply list_elem_of_fmap. by exists (k, p).
  - intros r s Hlt Hne. change (deref (set_rooms ?f ?s) r) with (deref s r).
    destruct (Hq r Hlt) as (_ & _ & Hs). rewrite Hs. split; [by intros [? _]|].
    intros H. split; [done|]. by intros [? _].
Qed.
End SecretRooms.

(** ** Which secret rooms a disconnect leaves *)

(** The items of a list at the positions 0, 2, 4, ... and at the
    positions 1, 3, 5, ... *)
Fixpoint even_items (l : list string) : list string :=
  match l with
  | x :: _ :: rest => x :: even_items rest
  | l => l
  end.

Fixpoint odd_items (l : list string) : list string :=
  match l with
  | _ :: y :: rest => y :: odd_items rest
  | _ => []
  end.

Lemma filter_ne_NoDup (s : string) pre suf :
  NoDup (pre ++ s :: suf) → filter (λ x, x ≠ s) (pre ++ s :: suf) = pre ++ suf.
Proof.
  intros Hnd. apply NoDup_app in Hnd as (Hpre & Hdisj & Hsuf).
  apply NoDup_cons in Hsuf as [Hs Hsuf].
  assert (Hf : ∀ l : list string, s ∉ l → filter (λ x, x ≠ s) l = l).
  { induction l as [|x l IH]; [done|]. intros [Hx Hl]%not_elem_of_cons.
    rewrite filter_cons, decide_True by done. by rewrite IH. }
  rewrite filter_app, filter_cons, decide_False by (by intros ?).
  rewrite !Hf; [done|done|]. intros Hin. apply (Hdisj s Hin). apply list_elem_of_here.
Qed.

(** The loop of [_leaveAllSecretRooms] at index [length pre] of the
    secrets [pre ++ suf]. *)
Lemma _leaveAllSecretRooms_loop_spec rev P d fuel pre suf st :
  (P < length (heap st))%nat →
  Peer.roomSecrets (deref st P) = pre ++ suf → NoDup (pre ++ suf) →
  (length suf ≤ fuel)%nat →
  Peer.roomSecrets (deref (_leaveAllSecretRooms_loop rev P d fuel (length pre) st) P)
  = pre ++ odd_items suf
  ∧ ∀ r k, (_rooms (_leaveAllSecretRooms_loop rev P d fuel (length pre) st) !! r
            ≫= alookup k)
           = if decide (r ∈ even_items suf ∧ k = Peer.id (deref st P)) then None
             else _rooms st !! r ≫= alookup k.
Proof.
  revert pre suf st. induction fuel as [|fuel IH]; intros pre suf st HP Hrs Hnd Hfuel.
  - destruct suf; [|simpl in Hfuel; lia]. cbn [_leaveAllSecretRooms_loop odd_items even_items].
    rewrite app_nil_r in *.
    split; [done|]. intros r k. case_decide as Hc; [|done]. by destruct Hc as [?%elem_of_nil _].
  - cbn [_leaveAllSecretRooms_loop]. rewrite Hrs. destruct suf as [|s suf].
    { rewrite lookup_ge_None_2 by (rewrite app_nil_r; lia).
      cbn [odd_items even_items]. rewrite app_nil_r in *.
      split; [done|]. intros r k. case_decide as Hc; [|done].
      by destruct Hc as [?%elem_of_nil _]. }
    rewrite list_lookup_middle by done.
    set (st1 := _leaveSecretRoom rev P s d st).
    assert (H1 : length (heap st1) = length (heap st)
                 ∧ Peer.id (deref st1 P) = Peer.id (deref st P)
                 ∧ Peer.roomSecrets (deref st1 P) = pre ++ suf
                 ∧ ∀ r k, (_rooms st1 !! r ≫= alookup k)
                          = if decide (r = s ∧ k = Peer.id (deref st P)) then None
                            else _rooms st !! r ≫= alookup k).
    { subst st1. rewrite _leaveSecretRoom_spec.
      change (deref (emits ?es ?s) ?r) with (deref s r).
      rewrite deref_update_peer_eq by done.
      change (deref (set_rooms ?f ?s) ?r) with (deref s r).
      split; [proj; by rewrite length_insert|]. split; [done|]. split.
      - unfold Peer.removeRoomSecret. simpl. rewrite Hrs. by apply filter_ne_NoDup.
      - intros r k. proj. apply member_leave_rooms. }
    destruct H1 as (Hl1 & Hi1 & Hrs1 & Hm1).
    assert (Hnd1 : NoDup (pre ++ suf)).
    { apply NoDup_app in Hnd as (Hpre & Hdisj & Hsuf).
      apply NoDup_cons in Hsuf as [Hs Hsuf]. apply NoDup_app. split; [done|]. split; [|done].
      intros x Hx Hin. apply (Hdisj x Hx). by apply list_elem_of_further. }
    destruct suf as [|y suf].
    + assert (Hstop : _leaveAllSecretRooms_loop rev P d fuel (S (length pre)) st1 = st1).
      { destruct fuel; [done|]. cbn [_leaveAllSecretRooms_loop]. rewrite Hrs1.
        rewrite lookup_ge_None_2; [done|]. rewrite app_nil_r. lia. }
      rewrite Hstop, Hrs1. cbn [odd_items even_items]. split; [done|]. intros r k. rewrite Hm1.
      destruct (decide (r = s ∧ k = Peer.id (deref st P))) as [[-> ->]|Hc].
      * rewrite decide_True; [done|]. split; [apply list_elem_of_here|done].
      * rewrite decide_False; [done|]. intros [->%list_elem_of_singleton ->]. by apply Hc.
    + destruct (IH (pre ++ [y]) suf st1) as [Hrs2 Hm2].
      * by rewrite Hl1.
      * by rewrite Hrs1, <- app_assoc.
      * by rewrite <- app_assoc.
      * simpl in Hfuel. lia.
      * assert (Hlen : length (pre ++ [y]) = S (length pre)).
        { rewrite length_app. simpl. lia. }
        rewrite Hlen in Hrs2, Hm2. split.
        -- rewrite Hrs2. cbn [odd_items]. by rewrite <- app_assoc.
        -- intros r k. rewrite Hm2, Hm1, Hi1. cbn [even_items].
           destruct (decide (r ∈ even_items suf ∧ k = Peer.id (deref st P))) as [[Hin ->]|H2].
           { rewrite decide_True; [done|]. split; [by apply list_elem_of_further|done]. }
           destruct (decide (r = s ∧ k = Peer.id (deref st P))) as [[-> ->]|H3].
           { rewrite decide_True; [done|]. split; [apply list_elem_of_here|done]. }
           rewrite decide_False; [done|].
           intros [[->|Hin]%elem_of_cons ->]; [by apply H3|by apply H2].
Qed.

(** X18.  [_leaveAllSecretRooms] of a peer whose secrets are pairwise
    different.  Its loop indexes the list that each leave shortens, so
    it leaves the rooms of the secrets at the positions 0, 2, 4, ... and
    no others: afterwards the peer holds the secrets that were at the
    positions 1, 3, 5, ..., in their order, and is still filed in their
    rooms. *)
Theorem leave_all_secret_rooms_every_other rev P disconnect st :
  (P < length (heap st))%nat →
  NoDup (Peer.roomSecrets (deref st P)) →
  Peer.roomSecrets (deref (_leaveAllSecretRooms rev P disconnect st) P)
  = odd_items (Peer.roomSecrets (deref st P))
  ∧ ∀ r k, (_rooms (_leaveAllSecretRooms rev P disconnect st) !! r ≫= alookup k)
           = if decide (r ∈ even_items (Peer.roomSecrets (deref st P))
                        ∧ k = Peer.id (deref st P))
             then None else _rooms st !! r ≫= alookup k.
Proof.
  intros HP Hnd. unfold _leaveAllSecretRooms.
  apply (_leaveAllSecretRooms_loop_spec rev P disconnect _ [] _ st); done.
Qed.

(** ** The status line *)

(** The two numbers the second revision logs every ten seconds (lines
    592-595): the peers filed in the rooms, counted once for every room
    they are in, and the rooms.  A room is the list of its keys, so its
    length is [Object.keys(room).length]. *)
Definition status (st : Server) : nat * nat :=
  (map_fold (λ _ (room : list (string * ref)) sum, (sum + length room)%nat) 0%nat (_rooms st),
   size (_rooms st)).

Lemma status_rooms_le (rooms : gmap string (list (string * ref))) :
  (∀ k room, rooms !! k = Some room → room ≠ []) →
  (size rooms
   ≤ map_fold (λ _ (room : list (string * ref)) sum, (sum + length room)%nat) 0%nat rooms)%nat.
Proof.
  apply (map_fold_weak_ind
    (λ (r : nat) (m : gmap string (list (string * ref))),
       (∀ k room, m !! k = Some room → room ≠ []) → (size m ≤ r)%nat)).
  - intros _. by rewrite map_size_empty.
  - intros i x m r Hi IH Hne. rewrite map_size_insert_None by done.
    assert (x ≠ []) by (apply (Hne i); apply lookup_insert_eq).
    assert (size m ≤ r)%nat.
    { apply IH. intros k room Hk. apply (Hne k). rewrite lookup_insert_ne; [done|].
      intros ->. congruence. }
    destruct x; [done|]. simpl. lia.
Qed.

Section Status.
Variable utf8_decode : list byte → string.

(** X19.  In every state the server can reach the status line counts at
    least one peer for every room: it never shows more rooms than
    peers, and it shows no peer exactly when it shows no room. *)
Theorem status_counts rev conf wss st :
  reachable utf8_decode rev conf wss st →
  ((status st).2 ≤ (status st).1)%nat
  ∧ ((status st).1 = 0%nat ↔ (status st).2 = 0%nat).
Proof.
  intros Hr. destruct (reachable_wf utf8_decode rev conf wss st Hr) as [Hok _].
  assert (Hle : ((status st).2 ≤ (status st).1)%nat).
  { unfold status. simpl. apply status_rooms_le. intros k room Hk.
    by destruct (Hok k room Hk). }
  split; [done|]. split; [lia|].
  unfold status in *. simpl in *. intros Hz. apply map_size_empty_iff in Hz.
  rewrite Hz. apply map_fold_empty.
Qed.
End Status.

(** ** Scenarios for the properties above *)

Lemma drawn_connection utf8 rev conf wss st t id ip name rtc hash :
  drawn_run utf8 rev conf wss st →
  drawn_run utf8 rev conf wss (_onConnection rev t id ip name rtc hash st).
Proof.
  intros H.
  by apply (drawn_step utf8 rev conf wss st (ex_oracle t) (Connection id ip name rtc hash)).
Qed.

Lemma ex_connected_run rev : drawn_run ex_decode rev ex_conf ex_wss (ex_connected rev).
Proof. do 2 apply drawn_connection. apply drawn_init. Qed.

Lemma drawn_received utf8 rev conf wss st o sender frame st' :
  drawn_run utf8 rev conf wss st →
  (sender < length (heap st))%nat →
  draws_in_range o = true →
  _onMessage utf8 rev o sender frame st = Some st' →
  drawn_run utf8 rev conf wss st'.
Proof.
  intros H Hs Hd Hm.
  apply (drawn_step utf8 rev conf wss st o (Received sender frame)); [done..|].
  unfold step. by rewrite bool_decide_true.
Qed.

Lemma ex_pairing_message :
  _onMessage ex_decode Rev2 (ex_oracle 1001) 0%nat (Text PairDeviceInitiate) (ex_connected Rev2)
  = Some (ex_pairing_state Rev2).
Proof. vm_compute. reflexivity. Qed.


Lemma ex_pairing_run : drawn_run ex_decode Rev2 ex_conf ex_wss (ex_pairing_state Rev2).
Proof.
  apply (drawn_received ex_decode Rev2 ex_conf ex_wss (ex_connected Rev2) (ex_oracle 1001)
           0%nat (Text PairDeviceInitiate));
    [apply ex_connected_run|vm_compute; lia|vm_compute; reflexivity|exact ex_pairing_message].
Qed.

Lemma one_timer_per_peer_witness :
  (reachable ex_decode Rev2 ex_conf ex_wss (ex_alone Rev2)
   ∧ timeouts (ex_alone Rev2) !! 0%nat = Some (Some (3000, 0%nat))
   ∧ Peer.id (deref (ex_alone Rev2) 0%nat) = Peer.id (deref (ex_alone Rev2) 0%nat))
  ∧ 0%nat = 0%nat
  ∧ (timer <$> _keepAliveTimers (ex_alone Rev2) !! Peer.id (deref (ex_alone Rev2) 0%nat))
    = Some (Some 0%nat).
Proof.
  assert (H1 : reachable ex_decode Rev2 ex_conf ex_wss (ex_alone Rev2))
    by exact (ex_alone_reachable Rev2).
  assert (H2 : timeouts (ex_alone Rev2) !! 0%nat = Some (Some (3000, 0%nat)))
    by (vm_compute; reflexivity).
  exact (conj (conj H1 (conj H2 eq_refl))
           (one_timer_per_peer ex_decode Rev2 ex_conf ex_wss (ex_alone Rev2) 0%nat 0%nat
              3000 3000 0%nat 0%nat H1 H2 H2 eq_refl)).
Defined.

Lemma disconnect_stops_keep_alive_witness :
  (reachable ex_decode Rev2 ex_conf ex_wss (ex_alone Rev2)
   ∧ (0 < length (heap (ex_alone Rev2)))%nat)
  ∧ _keepAliveTimers (_disconnect Rev2 0%nat (ex_alone Rev2))
      !! Peer.id (deref (ex_alone Rev2) 0%nat) = None.
Proof.
  assert (H1 : reachable ex_decode Rev2 ex_conf ex_wss (ex_alone Rev2))
    by exact (ex_alone_reachable Rev2).
  assert (H2 : (0 < length (heap (ex_alone Rev2)))%nat) by (vm_compute; lia).
  exact (conj (conj H1 H2)
           (proj1 (proj2 (disconnect_stops_keep_alive ex_decode Rev2 ex_conf ex_wss
                            (ex_alone Rev2) 0%nat 5000 H1 H2)))).
Defined.

Lemma pair_keys_linked_witness :
  drawn_run ex_decode Rev2 ex_conf ex_wss (ex_pairing_state Rev2)
  ∧ _roomSecrets (ex_pairing_state Rev2) !! "000042" = Some ex_entry
  ∧ (isPairKey "000042" = true
     ∧ (creator ex_entry < length (heap (ex_pairing_state Rev2)))%nat
     ∧ Peer.pairKey (deref (ex_pairing_state Rev2) (creator ex_entry)) = Some "000042").
Proof.
  assert (H1 : drawn_run ex_decode Rev2 ex_conf ex_wss (ex_pairing_state Rev2))
    by exact ex_pairing_run.
  assert (H2 : _roomSecrets (ex_pairing_state Rev2) !! "000042" = Some ex_entry)
    by (vm_compute; reflexivity).
  exact (conj H1 (conj H2
           (proj1 (pair_keys_linked ex_decode Rev2 ex_conf ex_wss (ex_pairing_state Rev2) H1)
              "000042" ex_entry H2))).
Defined.


Lemma pair_device_cancel_revokes_witness :
  (drawn_run ex_decode Rev2 ex_conf ex_wss (ex_pairing_state Rev2)
   ∧ (0 < length (heap (ex_pairing_state Rev2)))%nat)
  ∧ _roomSecrets (_onPairDeviceCancel Rev2 0%nat (ex_pairing_state Rev2))
    = delete "000042" (_roomSecrets (ex_pairing_state Rev2)).
Proof.
  assert (H1 : drawn_run ex_decode Rev2 ex_conf ex_wss (ex_pairing_state Rev2))
    by exact ex_pairing_run.
  assert (H2 : (0 < length (heap (ex_pairing_state Rev2)))%nat) by (vm_compute; lia).
  assert (Hk : Peer.pairKey (deref (ex_pairing_state Rev2) 0%nat) = Some "000042")
    by (vm_compute; reflexivity).
  split; [exact (conj H1 H2)|].
  pose proof (pair_device_cancel_revokes ex_decode Rev2 ex_conf ex_wss
                (ex_pairing_state Rev2) 0%nat H1 H2) as H.
  rewrite Hk in H. exact (proj1 H).
Defined.

Lemma registry_entries_own_id_witness :
  (reachable ex_decode Rev2 ex_conf ex_wss (ex_bob_in_room Rev2)
   ∧ _rooms (ex_bob_in_room Rev2) !! ex_ip = Some [(bob, 1%nat)])
  ∧ NoDup [(bob, 1%nat)].*1.
Proof.
  assert (H1 : reachable ex_decode Rev2 ex_conf ex_wss (ex_bob_in_room Rev2))
    by exact (ex_bob_in_room_reachable Rev2).
  assert (H2 : _rooms (ex_bob_in_room Rev2) !! ex_ip = Some [(bob, 1%nat)])
    by (vm_compute; reflexivity).
  exact (conj (conj H1 H2)
           (proj1 (registry_entries_own_id ex_decode Rev2 ex_conf ex_wss (ex_bob_in_room Rev2)
                     ex_ip [(bob, 1%nat)] H1 H2))).
Defined.

Lemma one_public_room_witness :
  (disciplined_run ex_decode Rev2 ex_conf ex_wss (ex_symmetric Rev2)
   ∧ (0 < length (heap (ex_symmetric Rev2)))%nat
   ∧ isPublicRoomId "abcde" = true
   ∧ is_Some (_rooms (ex_symmetric Rev2) !! "abcde"
              ≫= alookup (Peer.id (deref (ex_symmetric Rev2) 0%nat))))
  ∧ "abcde" = "abcde"
  ∧ Peer.publicRoomId (deref (ex_symmetric Rev2) 0%nat) = Some "abcde".
Proof.
  assert (H1 : disciplined_run ex_decode Rev2 ex_conf ex_wss (ex_symmetric Rev2))
    by exact (ex_symmetric_run Rev2).
  assert (H2 : (0 < length (heap (ex_symmetric Rev2)))%nat) by (vm_compute; lia).
  assert (H3 : isPublicRoomId "abcde" = true) by (vm_compute; reflexivity).
  assert (H4 : is_Some (_rooms (ex_symmetric Rev2) !! "abcde"
                        ≫= alookup (Peer.id (deref (ex_symmetric Rev2) 0%nat))))
    by (exists 0%nat; vm_compute; reflexivity).
  exact (conj (conj H1 (conj H2 (conj H3 H4)))
           (one_public_room ex_decode Rev2 ex_conf ex_wss (ex_symmetric Rev2) 0%nat
              "abcde" "abcde" H1 H2 H3 H3 H4 H4)).
Defined.

Lemma delete_secret_room_witness :
  reachable ex_decode Rev2 ex_conf ex_wss (ex_one_secret Rev2)
  ∧ _rooms (_deleteSecretRoom Rev2 ex_secret_a (ex_one_secret Rev2))
    = delete ex_secret_a (_rooms (ex_one_secret Rev2)).
Proof.
  assert (H1 : reachable ex_decode Rev2 ex_conf ex_wss (ex_one_secret Rev2))
    by exact (ex_one_secret_reachable Rev2).
  split; [exact H1|].
  pose proof (delete_secret_room ex_decode Rev2 ex_conf ex_wss (ex_one_secret Rev2)
                ex_secret_a H1) as H.
  destruct (_rooms (ex_one_secret Rev2) !! ex_secret_a) as [room|] eqn:E.
  - exact (proj1 H).
  - vm_compute in E. discriminate E.
Defined.

Lemma regenerate_room_secret_witness :
  reachable ex_decode Rev2 ex_conf ex_wss (ex_one_secret Rev2)
  ∧ _rooms (_onRegenerateRoomSecret Rev2 0%nat ex_secret_a ex_secret_b (ex_one_secret Rev2))
    = delete ex_secret_a (_rooms (ex_one_secret Rev2)).
Proof.
  assert (H1 : reachable ex_decode Rev2 ex_conf ex_wss (ex_one_secret Rev2))
    by exact (ex_one_secret_reachable Rev2).
  exact (conj H1 (proj1 (regenerate_room_secret ex_decode Rev2 ex_conf ex_wss
                           (ex_one_secret Rev2) 0%nat ex_secret_a ex_secret_b H1))).
Defined.

Lemma leave_all_secret_rooms_every_other_witness :
  ((0 < length (heap (ex_two_secrets Rev2)))%nat
   ∧ NoDup (Peer.roomSecrets (deref (ex_two_secrets Rev2) 0%nat)))
  ∧ Peer.roomSecrets (deref (_leaveAllSecretRooms Rev2 0%nat true (ex_two_secrets Rev2)) 0%nat)
    = odd_items (Peer.roomSecrets (deref (ex_two_secrets Rev2) 0%nat)).
Proof.
  assert (H1 : (0 < length (heap (ex_two_secrets Rev2)))%nat) by (vm_compute; lia).
  assert (Hl : Peer.roomSecrets (deref (ex_two_secrets Rev2) 0%nat)
               = [ex_secret_a; ex_secret_b]) by (vm_compute; reflexivity).
  assert (H2 : NoDup (Peer.roomSecrets (deref (ex_two_secrets Rev2) 0%nat))).
  { rewrite Hl. apply NoDup_cons. split; [|apply NoDup_singleton].
    intros Hin%list_elem_of_singleton. discriminate Hin. }
  exact (conj (conj H1 H2)
           (proj1 (leave_all_secret_rooms_every_other Rev2 0%nat true (ex_two_secrets Rev2)
                     H1 H2))).
Defined.

Lemma status_counts_witness :
  reachable ex_decode Rev2 ex_conf ex_wss (ex_bob_in_room Rev2)
  ∧ ((status (ex_bob_in_room Rev2)).2 ≤ (status (ex_bob_in_room Rev2)).1)%nat.
Proof.
  assert (H1 : reachable ex_decode Rev2 ex_conf ex_wss (ex_bob_in_room Rev2))
    by exact (ex_bob_in_room_reachable Rev2).
  exact (conj H1 (proj1 (status_counts ex_decode Rev2 ex_conf ex_wss (ex_bob_in_room Rev2)
                           H1))).
Defined.
